(** * The JerryScript heap allocator (jerry-core/jmem/jmem-heap.c)

    A shallow embedding of the fixed-capacity heap of JerryScript: the
    in-band free list, the fast and the first-fit allocation paths, the
    coalescing deallocator, the reclamation ("try to give memory back")
    protocol, the stored-size wrappers and the compressed pointers,
    followed by the properties the specification states about them.

    Pointers are addresses in [Z].  Memory is an array of 4-byte cells
    addressed by their first byte; every field the allocator touches is a
    [uint32_t] at a 4-byte aligned address.  Unsigned machine arithmetic is
    written with its wrap-around.

    The statistics kept under [JMEM_STATS] and the search, hexadecimal
    and case helpers of jerry-core/lit/lit-char-helpers.c are embedded
    after the allocator, with properties of their own. *)

From Stdlib Require Import ZArith List Lia Bool.
Import ListNotations.
Open Scope Z_scope.

Ltac Zify.zify_post_hook ::= Z.div_mod_to_equations.

(** ** Machine integers and memory *)

(** Conversion to [uint32_t]. *)
Definition to_uint32 (x : Z) : Z := x mod 2 ^ 32.

Definition mem := Z -> Z.

(** A store to a [uint32_t] field converts the value to 32 bits. *)
Definition store (m : mem) (a v : Z) : mem :=
  fun x => if x =? a then to_uint32 v else m x.

(** [jmem_heap_free_t]: [next_offset] at byte 0, [size] at byte 4. *)
Definition sizeof_jmem_heap_free_t : Z := 8.

Definition get_next_offset (m : mem) (p : Z) : Z := m p.

Definition get_size (m : mem) (p : Z) : Z := m (p + 4).

Definition set_next_offset (m : mem) (p v : Z) : mem := store m p v.

Definition set_size (m : mem) (p v : Z) : mem := store m (p + 4) v.

(** [jmem_heap_get_region_end] *)
Definition jmem_heap_get_region_end (m : mem) (curr_p : Z) : Z :=
  curr_p + get_size m curr_p.

(** The allocator's globals: the memory holding [jmem_heap] (sentinel and
    area), [jmem_heap_allocated_size], [jmem_heap_limit] and
    [jmem_heap_list_skip_p]. *)
Record heap_state : Type := mkHeap {
  heap_mem : mem;
  jmem_heap_allocated_size : Z;
  jmem_heap_limit : Z;
  jmem_heap_list_skip_p : Z
}.

Definition set_mem (st : heap_state) (m : mem) : heap_state :=
  mkHeap m (jmem_heap_allocated_size st) (jmem_heap_limit st)
         (jmem_heap_list_skip_p st).

Definition set_limit (st : heap_state) (l : Z) : heap_state :=
  mkHeap (heap_mem st) (jmem_heap_allocated_size st) l
         (jmem_heap_list_skip_p st).

(** Modelled from the spec: the type [jmem_free_unused_memory_severity_t]
    is declared outside the files at hand; the specification gives it the
    two levels LOW and HIGH, in this order. *)
Inductive severity : Type :=
| JMEM_FREE_UNUSED_MEMORY_SEVERITY_LOW
| JMEM_FREE_UNUSED_MEMORY_SEVERITY_HIGH.

(** The range [LOW .. HIGH] the retry loop iterates over. *)
Definition severity_range : list severity :=
  [JMEM_FREE_UNUSED_MEMORY_SEVERITY_LOW; JMEM_FREE_UNUSED_MEMORY_SEVERITY_HIGH].

(** What an allocation request does that an observer can see: runs of the
    reclamation callbacks and attempts of the internal allocation (with
    their success). *)
Inductive event : Type :=
| EvCallbacks (s : severity)
| EvAttempt (ok : bool).

(** Modelled from the spec: [jerry_fatal] and its codes are declared
    outside the files at hand; the allocator passes it the out-of-memory
    code, and the call does not return. *)
Inductive jerry_fatal_code : Type :=
| ERR_OUT_OF_MEMORY.

(** A call either returns (a pointer and the new state) or ends the
    process through [jerry_fatal]. *)
Inductive outcome : Type :=
| Returned (p : Z) (st : heap_state)
| Fatal (c : jerry_fatal_code).

Definition NULL : Z := 0.

(** Total of the [size] fields of a list of (address, size) nodes. *)
Definition sum_sizes (l : list (Z * Z)) : Z :=
  fold_right (fun n acc => snd n + acc) 0 l.

(** No two consecutive nodes touch: the end of each lies strictly below
    the start of the next. *)
Fixpoint no_touch (l : list (Z * Z)) : Prop :=
  match l with
  | (a, s) :: (((b, _) :: _) as l') => a + s < b /\ no_touch l'
  | _ => True
  end.

(** Build configuration.  [wide] is [UINTPTR_MAX > UINT32_MAX];
    [heap_base] is the address of [jmem_heap].  The constants come from
    [jmem-config.h] and [jmem-allocator.h], which are not among the files
    at hand, and are taken as parameters. *)
Class Config : Type := {
  wide : bool;
  heap_base : Z;
  JMEM_ALIGNMENT_LOG : Z;
  JMEM_HEAP_SIZE : Z;
  CONFIG_MEM_HEAP_DESIRED_LIMIT : Z;
  JMEM_GC_BEFORE_EACH_ALLOC : bool
}.

(** Modelled from the spec: [jmem_run_free_unused_memory_callbacks] is
    defined outside the files at hand.  It invokes the registered
    callbacks synchronously; they return nothing and may free blocks into
    this allocator, so a run is a partial transformer of the heap state. *)
Class Registry : Type := {
  jmem_run_free_unused_memory_callbacks : severity -> heap_state -> option heap_state
}.

Section Heap.

Context {cfg : Config} {reg : Registry}.

(** Width of [uintptr_t] and [size_t]. *)
Definition ptr_bits : Z := if wide then 64 else 32.

Definition to_size_t (x : Z) : Z := x mod 2 ^ ptr_bits.

(** Modelled from the spec: the alignment is the power of two whose
    logarithm is [JMEM_ALIGNMENT_LOG]. *)
Definition JMEM_ALIGNMENT : Z := 2 ^ JMEM_ALIGNMENT_LOG.

Definition JMEM_HEAP_AREA_SIZE : Z := JMEM_HEAP_SIZE - JMEM_ALIGNMENT.

(** The pointer whose bits are [~((uint32_t) 0x0)]. *)
Definition JMEM_HEAP_END_OF_LIST : Z := 2 ^ 32 - 1.

(** Modelled from the spec: the null compressed pointer is zero (the
    macro is defined in [jmem-allocator.h]). *)
Definition JMEM_CP_NULL : Z := 0.

(** [&jmem_heap.first]: the sentinel is the first member of [jmem_heap]. *)
Definition first_p : Z := heap_base.

(** [jmem_heap.area]: the member after [first], at the next multiple of
    its alignment [JMEM_ALIGNMENT]. *)
Definition area : Z :=
  heap_base
  + (sizeof_jmem_heap_free_t + JMEM_ALIGNMENT - 1) / JMEM_ALIGNMENT * JMEM_ALIGNMENT.

Definition area_end : Z := area + JMEM_HEAP_AREA_SIZE.

Definition JMEM_HEAP_GET_OFFSET_FROM_ADDR (p : Z) : Z :=
  if wide then to_uint32 (p - area) else to_uint32 p.

Definition JMEM_HEAP_GET_ADDR_FROM_OFFSET (u : Z) : Z :=
  if wide then area + u else u.

(** The size rounding both [jmem_heap_alloc_block_internal] and
    [jmem_heap_free_block] apply, in [size_t] arithmetic. *)
Definition align_size (size : Z) : Z :=
  to_size_t (to_size_t (size + JMEM_ALIGNMENT - 1) / JMEM_ALIGNMENT * JMEM_ALIGNMENT).

(** ** [jmem_is_heap_pointer] *)
Definition jmem_is_heap_pointer (pointer : Z) : bool :=
  (area <=? pointer) && (pointer <=? area + JMEM_HEAP_AREA_SIZE).

(** ** [jmem_heap_init] on a memory with arbitrary contents *)
Definition jmem_heap_init (m : mem) : heap_state :=
  let m := set_size m first_p 0 in
  let region_p := area in
  let m := set_next_offset m first_p (JMEM_HEAP_GET_OFFSET_FROM_ADDR region_p) in
  let m := set_size m region_p JMEM_HEAP_AREA_SIZE in
  let m := set_next_offset m region_p
             (JMEM_HEAP_GET_OFFSET_FROM_ADDR JMEM_HEAP_END_OF_LIST) in
  mkHeap m 0 CONFIG_MEM_HEAP_DESIRED_LIMIT first_p.

(** [jmem_heap_finalize]: its assertion. *)
Definition jmem_heap_finalize (st : heap_state) : bool :=
  jmem_heap_allocated_size st =? 0.

(** ** The two loops on [jmem_heap_limit] *)

(** [while (jmem_heap_allocated_size >= jmem_heap_limit)
      jmem_heap_limit += CONFIG_MEM_HEAP_DESIRED_LIMIT;] *)
Fixpoint limit_grow (fuel : nat) (allocated limit : Z) : option Z :=
  match fuel with
  | O => None
  | S fuel' =>
      if limit <=? allocated
      then limit_grow fuel' allocated (to_size_t (limit + CONFIG_MEM_HEAP_DESIRED_LIMIT))
      else Some limit
  end.

(** [while (jmem_heap_allocated_size + CONFIG_MEM_HEAP_DESIRED_LIMIT <= jmem_heap_limit)
      jmem_heap_limit -= CONFIG_MEM_HEAP_DESIRED_LIMIT;] *)
Fixpoint limit_shrink (fuel : nat) (allocated limit : Z) : option Z :=
  match fuel with
  | O => None
  | S fuel' =>
      if to_size_t (allocated + CONFIG_MEM_HEAP_DESIRED_LIMIT) <=? limit
      then limit_shrink fuel' allocated (to_size_t (limit - CONFIG_MEM_HEAP_DESIRED_LIMIT))
      else Some limit
  end.

(** ** [jmem_heap_alloc_block_internal] *)

(** The fast path: the first free region serves a request of
    [JMEM_ALIGNMENT] bytes.  [remaining_p] is one [jmem_heap_free_t]
    after the region's start. *)
Definition alloc_fast_path (st : heap_state) : Z * heap_state :=
  let m := heap_mem st in
  let data_space_p := JMEM_HEAP_GET_ADDR_FROM_OFFSET (get_next_offset m first_p) in
  let allocated := to_size_t (jmem_heap_allocated_size st + JMEM_ALIGNMENT) in
  let m' :=
    if get_size m data_space_p =? JMEM_ALIGNMENT
    then set_next_offset m first_p (get_next_offset m data_space_p)
    else
      let remaining_p :=
        JMEM_HEAP_GET_ADDR_FROM_OFFSET (get_next_offset m first_p)
        + sizeof_jmem_heap_free_t in
      let m1 := set_size m remaining_p (get_size m data_space_p - JMEM_ALIGNMENT) in
      let m2 := set_next_offset m1 remaining_p (get_next_offset m1 data_space_p) in
      set_next_offset m2 first_p (JMEM_HEAP_GET_OFFSET_FROM_ADDR remaining_p) in
  let skip :=
    if data_space_p =? jmem_heap_list_skip_p st
    then JMEM_HEAP_GET_ADDR_FROM_OFFSET (get_next_offset m' first_p)
    else jmem_heap_list_skip_p st in
  (data_space_p, mkHeap m' allocated (jmem_heap_limit st) skip).

(** What the slow path does to the list once [current_p] is large enough:
    a larger region keeps its tail as a new node at
    [current_p + required_size], an exact fit is unlinked. *)
Definition split_region (m : mem) (prev_p current_p required_size : Z) : mem :=
  let next_offset := get_next_offset m current_p in
  if required_size <? get_size m current_p then
    let remaining_p := current_p + required_size in
    let m1 := set_size m remaining_p
                (get_size m current_p - to_uint32 required_size) in
    let m2 := set_next_offset m1 remaining_p next_offset in
    set_next_offset m2 prev_p (JMEM_HEAP_GET_OFFSET_FROM_ADDR remaining_p)
  else set_next_offset m prev_p next_offset.

(** The slow path: the first-fit walk.  The result is [data_space_p]
    ([NULL] when the walk reaches the end of the list) and the state. *)
Fixpoint alloc_slow_path (fuel : nat) (required_size : Z) (st : heap_state)
         (prev_p current_p : Z) : option (Z * heap_state) :=
  match fuel with
  | O => None
  | S fuel' =>
      if current_p =? JMEM_HEAP_END_OF_LIST then Some (NULL, st)
      else
        let m := heap_mem st in
        let next_offset := get_next_offset m current_p in
        if required_size <=? get_size m current_p then
          let allocated := to_size_t (jmem_heap_allocated_size st + required_size) in
          let m' := split_region m prev_p current_p required_size in
          Some (current_p, mkHeap m' allocated (jmem_heap_limit st) prev_p)
        else
          alloc_slow_path fuel' required_size st current_p
                          (JMEM_HEAP_GET_ADDR_FROM_OFFSET next_offset)
  end.

Definition jmem_heap_alloc_block_internal (fuel : nat) (size : Z) (st : heap_state)
  : option (Z * heap_state) :=
  let required_size := align_size size in
  let m := heap_mem st in
  let walk :=
    if (required_size =? JMEM_ALIGNMENT)
       && negb (get_next_offset m first_p
                =? JMEM_HEAP_GET_OFFSET_FROM_ADDR JMEM_HEAP_END_OF_LIST)
    then Some (alloc_fast_path st)
    else alloc_slow_path fuel required_size st first_p
           (JMEM_HEAP_GET_ADDR_FROM_OFFSET (get_next_offset m first_p)) in
  match walk with
  | None => None
  | Some (data_space_p, st1) =>
      match limit_grow fuel (jmem_heap_allocated_size st1) (jmem_heap_limit st1) with
      | None => None
      | Some lim => Some (data_space_p, set_limit st1 lim)
      end
  end.

(** ** [jmem_heap_gc_and_alloc_block] *)

(** One run of the callbacks, recorded. *)
Definition run_callbacks (s : severity) (st : heap_state) (log : list event)
  : option (heap_state * list event) :=
  match jmem_run_free_unused_memory_callbacks s st with
  | None => None
  | Some st' => Some (st', log ++ [EvCallbacks s])
  end.

(** One attempt of the internal allocation, recorded. *)
Definition attempt (fuel : nat) (size : Z) (st : heap_state) (log : list event)
  : option (Z * heap_state * list event) :=
  match jmem_heap_alloc_block_internal fuel size st with
  | None => None
  | Some (data_space_p, st') =>
      Some (data_space_p, st', log ++ [EvAttempt (negb (data_space_p =? NULL))])
  end.

(** The [for] loop over the severities. *)
Fixpoint gc_retry (fuel : nat) (size : Z) (sevs : list severity)
         (st : heap_state) (log : list event)
  : option (Z * heap_state * list event) :=
  match sevs with
  | [] => Some (NULL, st, log)
  | s :: sevs' =>
      match run_callbacks s st log with
      | None => None
      | Some (st1, log1) =>
          match attempt fuel size st1 log1 with
          | None => None
          | Some (data_space_p, st2, log2) =>
              if negb (data_space_p =? NULL)
              then Some (data_space_p, st2, log2)
              else gc_retry fuel size sevs' st2 log2
          end
      end
  end.

Definition jmem_heap_gc_and_alloc_block (fuel : nat) (size : Z) (st : heap_state)
  : option (Z * heap_state * list event) :=
  let pre :=
    if JMEM_GC_BEFORE_EACH_ALLOC
    then run_callbacks JMEM_FREE_UNUSED_MEMORY_SEVERITY_HIGH st []
    else Some (st, []) in
  match pre with
  | None => None
  | Some (st0, log0) =>
      let low :=
        if jmem_heap_limit st0 <=? to_size_t (jmem_heap_allocated_size st0 + size)
        then run_callbacks JMEM_FREE_UNUSED_MEMORY_SEVERITY_LOW st0 log0
        else Some (st0, log0) in
      match low with
      | None => None
      | Some (st1, log1) =>
          match attempt fuel size st1 log1 with
          | None => None
          | Some (data_space_p, st2, log2) =>
              if negb (data_space_p =? NULL)
              then Some (data_space_p, st2, log2)
              else gc_retry fuel size severity_range st2 log2
          end
      end
  end.

(** ** The public allocation functions *)

Definition jmem_heap_alloc_block (fuel : nat) (size : Z) (st : heap_state)
  : option (outcome * list event) :=
  if size =? 0 then Some (Returned NULL st, [])
  else
    match jmem_heap_gc_and_alloc_block fuel size st with
    | None => None
    | Some (data_space_p, st', log) =>
        if negb (data_space_p =? NULL)
        then Some (Returned data_space_p st', log)
        else Some (Fatal ERR_OUT_OF_MEMORY, log)
    end.

Definition jmem_heap_alloc_block_null_on_error (fuel : nat) (size : Z)
           (st : heap_state) : option (Z * heap_state * list event) :=
  if size =? 0 then Some (NULL, st, [])
  else jmem_heap_gc_and_alloc_block fuel size st.

(** The size is stored through the pointer [jmem_heap_alloc_block]
    returns.  That pointer is [NULL] when the sum with the header size
    wrapped to zero; a store through the null pointer has no defined
    result, and the model gives none. *)
Definition jmem_heap_alloc_block_store_size (fuel : nat) (size : Z)
           (st : heap_state) : option (outcome * list event) :=
  if size =? 0 then Some (Returned NULL st, [])
  else
    let size := to_size_t (size + sizeof_jmem_heap_free_t) in
    match jmem_heap_alloc_block fuel size st with
    | None => None
    | Some (Fatal c, log) => Some (Fatal c, log)
    | Some (Returned data_space_p st', log) =>
        if data_space_p =? NULL then None
        else
          Some (Returned (data_space_p + sizeof_jmem_heap_free_t)
                         (set_mem st' (set_size (heap_mem st') data_space_p size)),
                log)
    end.

(** ** [jmem_heap_free_block] *)

(** [while (prev_p->next_offset < block_offset) prev_p = next_p;] *)
Fixpoint free_find_prev (fuel : nat) (m : mem) (prev_p block_offset : Z)
  : option Z :=
  match fuel with
  | O => None
  | S fuel' =>
      if get_next_offset m prev_p <? block_offset
      then free_find_prev fuel' m
             (JMEM_HEAP_GET_ADDR_FROM_OFFSET (get_next_offset m prev_p)) block_offset
      else Some prev_p
  end.

(** The two updates of [jmem_heap_free_block], "update prev" and "update
    next": the new memory and the skip pointer after the second one. *)
Definition free_link (m : mem) (skip prev_p block_p next_p aligned_size block_offset : Z)
  : mem * Z :=
  let '(m1, block_p1) :=
    if jmem_heap_get_region_end m prev_p =? block_p
    then (set_size m prev_p (get_size m prev_p + to_uint32 aligned_size), prev_p)
    else (set_next_offset (set_size m block_p aligned_size) prev_p block_offset,
          block_p) in
  if jmem_heap_get_region_end m1 block_p1 =? next_p
  then
    let skip1 := if next_p =? skip then block_p1 else skip in
    let m2 := set_size m1 block_p1 (get_size m1 block_p1 + get_size m1 next_p) in
    (set_next_offset m2 block_p1 (get_next_offset m2 next_p), skip1)
  else
    (set_next_offset m1 block_p1 (JMEM_HEAP_GET_OFFSET_FROM_ADDR next_p), skip).

Definition jmem_heap_free_block (fuel : nat) (ptr size : Z) (st : heap_state)
  : option heap_state :=
  let m := heap_mem st in
  let block_p := ptr in
  let start_p :=
    if jmem_heap_list_skip_p st <? block_p
    then jmem_heap_list_skip_p st else first_p in
  let block_offset := JMEM_HEAP_GET_OFFSET_FROM_ADDR block_p in
  match free_find_prev fuel m start_p block_offset with
  | None => None
  | Some prev_p =>
      let next_p := JMEM_HEAP_GET_ADDR_FROM_OFFSET (get_next_offset m prev_p) in
      let aligned_size := align_size size in
      let '(m2, skip1) :=
        free_link m (jmem_heap_list_skip_p st) prev_p block_p next_p
                  aligned_size block_offset in
      let skip2 := prev_p in
      let allocated := to_size_t (jmem_heap_allocated_size st - aligned_size) in
      match limit_shrink fuel allocated (jmem_heap_limit st) with
      | None => None
      | Some lim => Some (mkHeap m2 allocated lim skip2)
      end
  end.

(** [jmem_heap_free_block_size_stored] *)
Definition jmem_heap_free_block_size_stored (fuel : nat) (ptr : Z) (st : heap_state)
  : option heap_state :=
  let original_p := ptr - sizeof_jmem_heap_free_t in
  jmem_heap_free_block fuel original_p (get_size (heap_mem st) original_p) st.

(** ** Compressed pointers *)

Definition jmem_heap_compress_pointer (pointer_p : Z) : Z :=
  let int_ptr := to_size_t pointer_p in
  let heap_start := to_size_t heap_base in
  let int_ptr := to_size_t (int_ptr - heap_start) in
  Z.shiftr int_ptr JMEM_ALIGNMENT_LOG.

Definition jmem_heap_decompress_pointer (compressed_pointer : Z) : Z :=
  let int_ptr := compressed_pointer in
  let heap_start := to_size_t heap_base in
  let int_ptr := to_size_t (Z.shiftl int_ptr JMEM_ALIGNMENT_LOG) in
  to_size_t (int_ptr + heap_start).

(** ** The free list as data, and well-formed heap states *)

(** The (address, size) nodes reached from [p] by following [next_offset]
    up to [JMEM_HEAP_END_OF_LIST]. *)
Fixpoint free_list_from (fuel : nat) (m : mem) (p : Z) : option (list (Z * Z)) :=
  match fuel with
  | O => None
  | S fuel' =>
      if p =? JMEM_HEAP_END_OF_LIST then Some []
      else
        match free_list_from fuel' m
                (JMEM_HEAP_GET_ADDR_FROM_OFFSET (get_next_offset m p)) with
        | None => None
        | Some l => Some ((p, get_size m p) :: l)
        end
  end.

(** The free regions of a state: the list that starts at the sentinel's
    successor. *)
Definition free_list (fuel : nat) (st : heap_state) : option (list (Z * Z)) :=
  free_list_from fuel (heap_mem st)
    (JMEM_HEAP_GET_ADDR_FROM_OFFSET (get_next_offset (heap_mem st) first_p)).

(** The precondition of [jmem_heap_free_block]: the block is an aligned
    part of the area of at most its size, and no free region overlaps it. *)
Definition block_in_use (fuel : nat) (st : heap_state) (p size : Z) : bool :=
  match free_list fuel st with
  | None => false
  | Some l =>
      (0 <? size) && (size <=? JMEM_HEAP_AREA_SIZE)
      && (p mod JMEM_ALIGNMENT =? 0) && (area <=? p)
      && (p + align_size size <=? area_end)
      && forallb (fun n => (fst n + snd n <=? p) || (p + align_size size <=? fst n)) l
  end.

(** A 4-byte cell of the area that lies in no free region: the only
    memory a client of the allocator may write. *)
Definition word_in_use (fuel : nat) (st : heap_state) (x : Z) : bool :=
  match free_list fuel st with
  | None => false
  | Some l =>
      (x mod 4 =? 0) && (area <=? x) && (x + 4 <=? area_end)
      && forallb (fun n => (fst n + snd n <=? x) || (x + 4 <=? fst n)) l
  end.

(** The address of the first node of [l], or [tl] after the last one. *)
Definition head_addr (l : list (Z * Z)) (tl : Z) : Z :=
  match l with
  | [] => tl
  | n :: _ => fst n
  end.

(** The memory holds the nodes of [l], linked in this order and followed
    by [tl]. *)
Fixpoint lrep (m : mem) (l : list (Z * Z)) (tl : Z) : Prop :=
  match l with
  | [] => True
  | n :: l' =>
      get_next_offset m (fst n) = JMEM_HEAP_GET_OFFSET_FROM_ADDR (head_addr l' tl)
      /\ get_size m (fst n) = snd n
      /\ lrep m l' tl
  end.

(** A free region: aligned, of positive aligned size, inside the area. *)
Definition node_ok (n : Z * Z) : Prop :=
  area <= fst n /\ fst n mod JMEM_ALIGNMENT = 0
  /\ 0 < snd n /\ snd n mod JMEM_ALIGNMENT = 0
  /\ fst n + snd n <= area_end.

(** The regions of [l] ascend from [e] without touching [e] or each other. *)
Fixpoint chain (e : Z) (l : list (Z * Z)) : Prop :=
  match l with
  | [] => True
  | n :: l' => e < fst n /\ node_ok n /\ chain (fst n + snd n) l'
  end.

(** The skip pointer is the sentinel or a free node; the fast path may
    also leave it at the end-of-list pointer when it empties the list. *)
Definition skip_ok (skip : Z) (l : list (Z * Z)) : Prop :=
  skip = first_p \/ In skip (map fst l)
  \/ (skip = JMEM_HEAP_END_OF_LIST /\ l = []).

(** The end of the last region of [l], or [e] when there is none. *)
Fixpoint last_end (e : Z) (l : list (Z * Z)) : Z :=
  match l with
  | [] => e
  | n :: l' => last_end (fst n + snd n) l'
  end.

(** The address offsets are counted from: the area on wide builds, zero
    where [next_offset] holds the pointer bits. *)
Definition offset_base : Z := if wide then area else 0.

(** [m'] is [m] with the region [(a, s)] after [pa] carved by [req]
    bytes from its front. *)
Definition carved (m m' : mem) (pa a s req : Z) : Prop :=
  if req <? s then
    m' pa = JMEM_HEAP_GET_OFFSET_FROM_ADDR (a + req)
    /\ m' (a + req) = m a /\ m' (a + req + 4) = s - req
    /\ forall x, x <> pa -> x <> a + req -> x <> a + req + 4 -> m' x = m x
  else
    m' pa = m a /\ forall x, x <> pa -> m' x = m x.

(** The nodes left of a region [(a, s)] carved by [req] bytes. *)
Definition carve_nodes (a s req : Z) : list (Z * Z) :=
  if req <? s then [(a + req, s - req)] else [].

(** Well-formed heap states: the invariants of the data model. *)
Definition heap_wf (st : heap_state) : Prop :=
  exists l,
    lrep (heap_mem st) ((first_p, 0) :: l) JMEM_HEAP_END_OF_LIST
    /\ chain first_p l
    /\ jmem_heap_allocated_size st + sum_sizes l = JMEM_HEAP_AREA_SIZE
    /\ skip_ok (jmem_heap_list_skip_p st) l
    /\ jmem_heap_allocated_size st <= jmem_heap_limit st
       <= jmem_heap_allocated_size st + CONFIG_MEM_HEAP_DESIRED_LIMIT.

(** The configurations the allocator is built for: 8-byte alignment (the
    fast path steps by one [jmem_heap_free_t]), an aligned heap below the
    end-of-list pointer, a positive limit step. *)
Definition config_ok : Prop :=
  JMEM_ALIGNMENT_LOG = 3
  /\ 0 < heap_base /\ heap_base mod 8 = 0
  /\ 8 < JMEM_HEAP_SIZE /\ JMEM_HEAP_SIZE mod 8 = 0
  /\ heap_base + JMEM_HEAP_SIZE < 2 ^ 32 - 1
  /\ 0 < CONFIG_MEM_HEAP_DESIRED_LIMIT
  /\ JMEM_HEAP_SIZE + CONFIG_MEM_HEAP_DESIRED_LIMIT < 2 ^ 32.

(** Fuel that suffices for every loop of the allocator. *)
Definition fuel_ok (fuel : nat) : Prop := JMEM_HEAP_SIZE <= Z.of_nat fuel.

(** The contract of the registry: on a well-formed heap the callbacks
    return and leave a well-formed heap. *)
Definition callbacks_ok : Prop :=
  forall s st, heap_wf st ->
    exists st', jmem_run_free_unused_memory_callbacks s st = Some st' /\ heap_wf st'.

(** The events of a request after the pre-emptive reclamation, and the
    pointer it returns: the first attempt, then the retries after the LOW
    and the HIGH run of the callbacks, ending at the first success or
    after the third failure. *)
Definition protocol_tail (p : Z) (tail : list event) : Prop :=
  (p <> NULL /\ tail = [EvAttempt true])
  \/ (p <> NULL
      /\ tail = [EvAttempt false;
                 EvCallbacks JMEM_FREE_UNUSED_MEMORY_SEVERITY_LOW; EvAttempt true])
  \/ (p <> NULL
      /\ tail = [EvAttempt false;
                 EvCallbacks JMEM_FREE_UNUSED_MEMORY_SEVERITY_LOW; EvAttempt false;
                 EvCallbacks JMEM_FREE_UNUSED_MEMORY_SEVERITY_HIGH; EvAttempt true])
  \/ (p = NULL
      /\ tail = [EvAttempt false;
                 EvCallbacks JMEM_FREE_UNUSED_MEMORY_SEVERITY_LOW; EvAttempt false;
                 EvCallbacks JMEM_FREE_UNUSED_MEMORY_SEVERITY_HIGH; EvAttempt false]).

(** The events of the retry loop over the severities [sevs], and the
    pointer it ends with. *)
Fixpoint retry_tail (sevs : list severity) (p : Z) (tail : list event) : Prop :=
  match sevs with
  | [] => p = NULL /\ tail = []
  | s :: sevs' =>
      (p <> NULL /\ tail = [EvCallbacks s; EvAttempt true])
      \/ (exists tail', tail = [EvCallbacks s; EvAttempt false] ++ tail'
                        /\ retry_tail sevs' p tail')
  end.

(** The pressure loop is exhausted: the retry after the HIGH run failed. *)
Definition exhausted (log : list event) : Prop :=
  exists pre,
    log = pre ++ [EvCallbacks JMEM_FREE_UNUSED_MEMORY_SEVERITY_HIGH; EvAttempt false].

(** Properties of states that survive what the pressure loop does
    before its successful attempt: runs of the callbacks and failed
    attempts, which only move the limit. *)
Definition survives (R : heap_state -> Prop) : Prop :=
  (forall s x y, heap_wf x -> R x ->
                 jmem_run_free_unused_memory_callbacks s x = Some y -> R y)
  /\ (forall x lim, R x -> R (set_limit x lim)).

(** The states at the entries and exits of the public functions, run
    with enough fuel; between two calls the client may write the memory
    it holds. *)
Inductive reachable : heap_state -> Prop :=
| reach_init m : reachable (jmem_heap_init m)
| reach_alloc_block fuel size st p st' log :
    reachable st -> fuel_ok fuel -> 0 <= size < 2 ^ ptr_bits ->
    jmem_heap_alloc_block fuel size st = Some (Returned p st', log) ->
    reachable st'
| reach_alloc_block_null_on_error fuel size st p st' log :
    reachable st -> fuel_ok fuel -> 0 <= size < 2 ^ ptr_bits ->
    jmem_heap_alloc_block_null_on_error fuel size st = Some (p, st', log) ->
    reachable st'
| reach_alloc_block_store_size fuel size st p st' log :
    reachable st -> fuel_ok fuel ->
    0 <= size ->
    size + sizeof_jmem_heap_free_t + JMEM_ALIGNMENT - 1 < 2 ^ ptr_bits ->
    jmem_heap_alloc_block_store_size fuel size st = Some (Returned p st', log) ->
    reachable st'
| reach_free_block fuel ptr size st st' :
    reachable st -> fuel_ok fuel -> block_in_use fuel st ptr size = true ->
    jmem_heap_free_block fuel ptr size st = Some st' ->
    reachable st'
| reach_free_block_size_stored fuel ptr st st' :
    reachable st -> fuel_ok fuel ->
    block_in_use fuel st (ptr - sizeof_jmem_heap_free_t)
      (get_size (heap_mem st) (ptr - sizeof_jmem_heap_free_t)) = true ->
    jmem_heap_free_block_size_stored fuel ptr st = Some st' ->
    reachable st'
| reach_client_store fuel x v st :
    reachable st -> fuel_ok fuel -> word_in_use fuel st x = true ->
    reachable (set_mem st (store (heap_mem st) x v)).

End Heap.

(** ** A small configuration and two registries, to run the allocator *)

(** A 64-bit build with a 40-byte heap at address 4096: the area is the
    four 8-byte slots at 4104, 4112, 4120 and 4128. *)
Definition demo_config : Config := {|
  wide := true;
  heap_base := 4096;
  JMEM_ALIGNMENT_LOG := 3;
  JMEM_HEAP_SIZE := 40;
  CONFIG_MEM_HEAP_DESIRED_LIMIT := 16;
  JMEM_GC_BEFORE_EACH_ALLOC := false
|}.

Definition demo_fuel : nat := 40.

(** No callback is registered. *)
Definition no_callbacks : Registry := {|
  jmem_run_free_unused_memory_callbacks := fun _ st => Some st
|}.

Definition severity_eqb (s1 s2 : severity) : bool :=
  match s1, s2 with
  | JMEM_FREE_UNUSED_MEMORY_SEVERITY_LOW, JMEM_FREE_UNUSED_MEMORY_SEVERITY_LOW => true
  | JMEM_FREE_UNUSED_MEMORY_SEVERITY_HIGH, JMEM_FREE_UNUSED_MEMORY_SEVERITY_HIGH => true
  | _, _ => false
  end.

(** One callback, registered at severity [sev]: it frees the block
    [(b, bsize)] it was handed, if it still holds it. *)
Definition staged_registry {cfg : Config} (fuel : nat) (sev : severity) (b bsize : Z)
  : Registry := {|
  jmem_run_free_unused_memory_callbacks := fun s st =>
    if severity_eqb s sev && block_in_use fuel st b bsize
    then jmem_heap_free_block fuel b bsize st
    else Some st
|}.

(** The state after a call, for chaining calls; a call that does not
    return leaves the state as it was. *)
Definition run_alloc {cfg : Config} {reg : Registry} (fuel : nat) (size : Z)
           (st : heap_state) : heap_state :=
  match jmem_heap_alloc_block_null_on_error fuel size st with
  | Some (_, st', _) => st'
  | None => st
  end.

Definition run_free {cfg : Config} (fuel : nat) (p size : Z) (st : heap_state)
  : heap_state :=
  match jmem_heap_free_block fuel p size st with
  | Some st' => st'
  | None => st
  end.

(** The severities of the callback runs of a log, in order. *)
Definition callbacks_run (log : list event) : list severity :=
  flat_map (fun e => match e with EvCallbacks s => [s] | EvAttempt _ => [] end) log.

Definition demo_init : heap_state := @jmem_heap_init demo_config (fun _ => 0).

(** Four 8-byte blocks allocated, the first and the third freed, two
    more allocated: the heap is full again. *)
Definition demo_drained : heap_state :=
  let run_alloc := @run_alloc demo_config no_callbacks demo_fuel in
  let run_free := @run_free demo_config demo_fuel in
  run_alloc 8 (run_alloc 8
    (run_free 4120 8 (run_free 4104 8
      (run_alloc 8 (run_alloc 8 (run_alloc 8 (run_alloc 8 demo_init))))))).

(** The registry of scenario S4: the HIGH callback frees the 16-byte
    block at 4104. *)
Definition demo_high_registry : Registry :=
  @staged_registry demo_config demo_fuel JMEM_FREE_UNUSED_MEMORY_SEVERITY_HIGH 4104 16.

(** The heap filled with two 16-byte blocks. *)
Definition demo_full : heap_state :=
  @run_alloc demo_config demo_high_registry demo_fuel 16
    (@run_alloc demo_config demo_high_registry demo_fuel 16 demo_init).



(** ** The free list after a free, as a function on lists *)

(** A region put in front of a list, merged with the first region of the
    list when it ends where that one starts. *)
Definition join_next (n : Z * Z) (l : list (Z * Z)) : list (Z * Z) :=
  match l with
  | [] => [n]
  | x :: l' =>
      if fst n + snd n =? fst x then (fst n, snd n + snd x) :: l' else n :: l
  end.

(** The free list with the block [(p, asz)] put back: inserted by
    address, regions that touch merged. *)
Fixpoint free_insert (p asz : Z) (l : list (Z * Z)) : list (Z * Z) :=
  match l with
  | [] => [(p, asz)]
  | n :: l' =>
      if fst n <? p then join_next n (free_insert p asz l')
      else join_next (p, asz) l
  end.

(** The addresses a list of regions covers. *)
Definition covers (l : list (Z * Z)) (y : Z) : Prop :=
  Exists (fun n => fst n <= y < fst n + snd n) l.

(** One 8-byte block held, at 4104, with no callback registered. *)
Definition demo_held : heap_state :=
  @run_alloc demo_config no_callbacks demo_fuel 8 demo_init.

(** Two 8-byte blocks held, at 4104 and 4112. *)
Definition demo_two : heap_state :=
  @run_alloc demo_config no_callbacks demo_fuel 8 demo_held.

(** The first of the two blocks freed: the block at 4112 is held
    between the free regions at 4104 (8 bytes) and 4120 (16 bytes). *)
Definition demo_gap : heap_state :=
  @run_free demo_config demo_fuel 4104 8 demo_two.

(** The second block freed too: nothing is held. *)
Definition demo_released : heap_state :=
  @run_free demo_config demo_fuel 4112 8 demo_gap.


(** ** Memory usage statistics (the functions under [JMEM_STATS]) *)

(** Modelled from the spec: [jmem_heap_stats_t] is declared outside the
    files at hand; these are the fields this file uses, each printed as
    a [size_t].  The field [size] of the source is [stats_size] here,
    [size] being the name of the request size throughout. *)
Record jmem_heap_stats_t : Type := mkStats {
  stats_size : Z;
  allocated_bytes : Z;
  waste_bytes : Z;
  peak_allocated_bytes : Z;
  peak_waste_bytes : Z;
  global_peak_allocated_bytes : Z;
  global_peak_waste_bytes : Z;
  skip_count : Z;
  nonskip_count : Z;
  alloc_count : Z;
  free_count : Z;
  alloc_iter_count : Z;
  free_iter_count : Z
}.

Section Stats.
Context {cfg : Config}.

(** [jmem_heap_stat_init] *)
Definition jmem_heap_stat_init : jmem_heap_stats_t :=
  mkStats JMEM_HEAP_AREA_SIZE 0 0 0 0 0 0 0 0 0 0 0 0.

(** [jmem_heap_stat_alloc] *)
Definition jmem_heap_stat_alloc (size : Z) (s : jmem_heap_stats_t) : jmem_heap_stats_t :=
  let aligned_size := align_size size in
  let waste := to_size_t (aligned_size - size) in
  let allocated := to_size_t (allocated_bytes s + aligned_size) in
  let wasted := to_size_t (waste_bytes s + waste) in
  mkStats (stats_size s) allocated wasted
          (if peak_allocated_bytes s <? allocated
           then allocated else peak_allocated_bytes s)
          (if peak_waste_bytes s <? wasted then wasted else peak_waste_bytes s)
          (if global_peak_allocated_bytes s <? allocated
           then allocated else global_peak_allocated_bytes s)
          (if global_peak_waste_bytes s <? wasted
           then wasted else global_peak_waste_bytes s)
          (skip_count s) (nonskip_count s)
          (to_size_t (alloc_count s + 1)) (free_count s)
          (alloc_iter_count s) (free_iter_count s).

(** [jmem_heap_stat_free] *)
Definition jmem_heap_stat_free (size : Z) (s : jmem_heap_stats_t) : jmem_heap_stats_t :=
  let aligned_size := align_size size in
  let waste := to_size_t (aligned_size - size) in
  mkStats (stats_size s)
          (to_size_t (allocated_bytes s - aligned_size))
          (to_size_t (waste_bytes s - waste))
          (peak_allocated_bytes s) (peak_waste_bytes s)
          (global_peak_allocated_bytes s) (global_peak_waste_bytes s)
          (skip_count s) (nonskip_count s)
          (alloc_count s) (to_size_t (free_count s + 1))
          (alloc_iter_count s) (free_iter_count s).

(** [jmem_heap_stats_reset_peak] *)
Definition jmem_heap_stats_reset_peak (s : jmem_heap_stats_t) : jmem_heap_stats_t :=
  mkStats (stats_size s) (allocated_bytes s) (waste_bytes s)
          (allocated_bytes s) (waste_bytes s)
          (global_peak_allocated_bytes s) (global_peak_waste_bytes s)
          (skip_count s) (nonskip_count s) (alloc_count s) (free_count s)
          (alloc_iter_count s) (free_iter_count s).

(** The current values are within the peaks, the peaks within the
    global peaks. *)
Definition stats_peaks_ok (s : jmem_heap_stats_t) : Prop :=
  allocated_bytes s <= peak_allocated_bytes s <= global_peak_allocated_bytes s
  /\ waste_bytes s <= peak_waste_bytes s <= global_peak_waste_bytes s.

End Stats.

(** ** Character helpers (jerry-core/lit/lit-char-helpers.c) *)

(** The element at index [i] of an array that is followed in memory by
    [past]: the search loops can look one element past the end. *)
Definition array_read {A : Type} (array : list A) (past : A) (i : Z) : A :=
  nth (Z.to_nat i) (array ++ [past]) past.

(** The loop of [search_char_in_char_array], on indices into the array:
    [buttom], [middle] and [top] are the offsets of the three pointers
    from [array]; the pointer difference is divided with truncation. *)
Fixpoint search_char_loop (fuel : nat) (c : Z) (array : list Z) (past : Z)
         (buttom middle top : Z) : option bool :=
  match fuel with
  | O => None
  | S fuel' =>
      if buttom <=? top then
        let m := array_read array past middle in
        let top1 := if c <? m then middle - 1 else top in
        let buttom1 :=
          if c <? m then buttom else if m <? c then middle + 1 else buttom in
        let middle1 := buttom1 + Z.quot (top1 - buttom1) 2 in
        if array_read array past middle1 =? c then Some true
        else search_char_loop fuel' c array past buttom1 middle1 top1
      else Some false
  end.

Definition search_char_in_char_array (c : Z) (array : list Z) (past : Z)
  : option bool :=
  let size_of_array := Z.of_nat (length array) in
  search_char_loop (S (S (length array))) c array past
                   0 (size_of_array / 2) (size_of_array - 1).

(** The loop of [search_char_in_interval_array]; an interval
    [unicode_char_interval_t] is the pair of its fields [l] and [u]. *)
Fixpoint search_interval_loop (fuel : nat) (c : Z) (array : list (Z * Z))
         (past : Z * Z) (buttom middle top : Z) : option bool :=
  match fuel with
  | O => None
  | S fuel' =>
      if buttom <=? top then
        let m := array_read array past middle in
        let top1 := if c <? fst m then middle - 1 else top in
        let buttom1 :=
          if c <? fst m then buttom else if snd m <? c then middle + 1 else buttom in
        let middle1 := buttom1 + Z.quot (top1 - buttom1) 2 in
        let m1 := array_read array past middle1 in
        if (fst m1 <=? c) && (c <=? snd m1) then Some true
        else search_interval_loop fuel' c array past buttom1 middle1 top1
      else Some false
  end.

Definition search_char_in_interval_array (c : Z) (array : list (Z * Z))
           (past : Z * Z) : option bool :=
  let size_of_array := Z.of_nat (length array) in
  search_interval_loop (S (S (length array))) c array past
                       0 (size_of_array / 2) (size_of_array - 1).

(** [c] lies in the interval [n]. *)
Definition in_interval (c : Z) (n : Z * Z) : bool := (fst n <=? c) && (c <=? snd n).

(** The intervals are well formed and ascend without overlap. *)
Fixpoint intervals_ascending (array : list (Z * Z)) : Prop :=
  match array with
  | [] => True
  | n :: array' =>
      fst n <= snd n
      /\ match array' with
         | [] => True
         | n' :: _ => snd n < fst n'
         end
      /\ intervals_ascending array'
  end.

(** The characters ascend strictly. *)
Fixpoint chars_ascending (array : list Z) : Prop :=
  match array with
  | [] => True
  | x :: array' =>
      match array' with
      | [] => True
      | y :: _ => x < y
      end
      /\ chars_ascending array'
  end.

(** The character constants of [lit-char-helpers.h] and the width of
    [ecma_char_t], which are declared outside the files at hand, are
    taken as parameters. *)
Class LitChars : Type := {
  LIT_CHAR_ASCII_DIGITS_BEGIN : Z;
  LIT_CHAR_ASCII_DIGITS_END : Z;
  LIT_CHAR_ASCII_LOWERCASE_LETTERS_HEX_BEGIN : Z;
  LIT_CHAR_ASCII_LOWERCASE_LETTERS_HEX_END : Z;
  LIT_CHAR_ASCII_UPPERCASE_LETTERS_HEX_BEGIN : Z;
  LIT_CHAR_ASCII_UPPERCASE_LETTERS_HEX_END : Z;
  LIT_CHAR_LOWERCASE_A : Z;
  LIT_CHAR_LOWERCASE_Z : Z;
  LIT_CHAR_UPPERCASE_A : Z;
  LIT_CHAR_UPPERCASE_Z : Z;
  LIT_CHAR_LOWERCASE_I : Z;
  LIT_CHAR_UPPERCASE_S : Z;
  ecma_char_bits : Z
}.

Section Lit.
Context {chars : LitChars}.

(** Conversion to [ecma_char_t]. *)
Definition to_ecma_char (x : Z) : Z := x mod 2 ^ ecma_char_bits.

Definition lit_char_is_hex_digit (c : Z) : bool :=
  ((LIT_CHAR_ASCII_DIGITS_BEGIN <=? c) && (c <=? LIT_CHAR_ASCII_DIGITS_END))
  || ((LIT_CHAR_ASCII_LOWERCASE_LETTERS_HEX_BEGIN <=? c)
      && (c <=? LIT_CHAR_ASCII_LOWERCASE_LETTERS_HEX_END))
  || ((LIT_CHAR_ASCII_UPPERCASE_LETTERS_HEX_BEGIN <=? c)
      && (c <=? LIT_CHAR_ASCII_UPPERCASE_LETTERS_HEX_END)).

Definition lit_char_hex_to_int (c : Z) : Z :=
  if (LIT_CHAR_ASCII_DIGITS_BEGIN <=? c) && (c <=? LIT_CHAR_ASCII_DIGITS_END)
  then to_uint32 (c - LIT_CHAR_ASCII_DIGITS_BEGIN)
  else if (LIT_CHAR_ASCII_LOWERCASE_LETTERS_HEX_BEGIN <=? c)
          && (c <=? LIT_CHAR_ASCII_LOWERCASE_LETTERS_HEX_END)
  then to_uint32 (c - LIT_CHAR_ASCII_LOWERCASE_LETTERS_HEX_BEGIN + 10)
  else to_uint32 (c - LIT_CHAR_ASCII_UPPERCASE_LETTERS_HEX_BEGIN + 10).

(** The loop of [lit_read_code_point_from_hex] with [count] characters
    left to read; a buffer that ends is followed by its terminating
    zero. *)
Fixpoint read_code_point_loop (buf_p : list Z) (count : nat) (code_point : Z)
  : option Z :=
  match count with
  | O => Some code_point
  | S count' =>
      let code_point := to_uint32 (Z.shiftl code_point 4) in
      let b := hd 0 buf_p in
      if (LIT_CHAR_ASCII_DIGITS_BEGIN <=? b) && (b <=? LIT_CHAR_ASCII_DIGITS_END)
      then read_code_point_loop (tl buf_p) count'
             (Z.lor code_point (to_uint32 (b - LIT_CHAR_ASCII_DIGITS_BEGIN)))
      else if (LIT_CHAR_ASCII_LOWERCASE_LETTERS_HEX_BEGIN <=? b)
              && (b <=? LIT_CHAR_ASCII_LOWERCASE_LETTERS_HEX_END)
      then read_code_point_loop (tl buf_p) count'
             (Z.lor code_point
                (to_uint32 (b - (LIT_CHAR_ASCII_LOWERCASE_LETTERS_HEX_BEGIN - 10))))
      else if (LIT_CHAR_ASCII_UPPERCASE_LETTERS_HEX_BEGIN <=? b)
              && (b <=? LIT_CHAR_ASCII_UPPERCASE_LETTERS_HEX_END)
      then read_code_point_loop (tl buf_p) count'
             (Z.lor code_point
                (to_uint32 (b - (LIT_CHAR_ASCII_UPPERCASE_LETTERS_HEX_BEGIN - 10))))
      else None
  end.

(** [lit_read_code_point_from_hex]: the code point written to
    [out_code_point_p] when the function returns true, [None] when it
    returns false. *)
Definition lit_read_code_point_from_hex (buf_p : list Z) (number_of_characters : Z)
  : option Z :=
  read_code_point_loop buf_p (Z.to_nat number_of_characters) 0.

(** [lit_char_to_lower_case]: the characters written to the output
    buffer; their number is the value returned. *)
Definition lit_char_to_lower_case (character : Z) : list Z :=
  if (LIT_CHAR_UPPERCASE_A <=? character) && (character <=? LIT_CHAR_UPPERCASE_Z)
  then [to_ecma_char (character + (LIT_CHAR_LOWERCASE_A - LIT_CHAR_UPPERCASE_A))]
  else if character =? 304 then [LIT_CHAR_LOWERCASE_I; 775]
  else [character].

(** [lit_char_to_upper_case] *)
Definition lit_char_to_upper_case (character : Z) : list Z :=
  if (LIT_CHAR_LOWERCASE_A <=? character) && (character <=? LIT_CHAR_LOWERCASE_Z)
  then [to_ecma_char (character - (LIT_CHAR_LOWERCASE_A - LIT_CHAR_UPPERCASE_A))]
  else if character =? 223 then [LIT_CHAR_UPPERCASE_S; LIT_CHAR_UPPERCASE_S]
  else if character =? 8151 then [921; 776; 834]
  else [character].

(** The value of a string of hexadecimal digits. *)
Definition hex_value (digits : list Z) : Z :=
  fold_left (fun acc c => 16 * acc + lit_char_hex_to_int c) digits 0.

End Lit.

(** The ASCII values of the constants. *)
Definition ascii_chars : LitChars := {|
  LIT_CHAR_ASCII_DIGITS_BEGIN := 48;
  LIT_CHAR_ASCII_DIGITS_END := 57;
  LIT_CHAR_ASCII_LOWERCASE_LETTERS_HEX_BEGIN := 97;
  LIT_CHAR_ASCII_LOWERCASE_LETTERS_HEX_END := 102;
  LIT_CHAR_ASCII_UPPERCASE_LETTERS_HEX_BEGIN := 65;
  LIT_CHAR_ASCII_UPPERCASE_LETTERS_HEX_END := 70;
  LIT_CHAR_LOWERCASE_A := 97;
  LIT_CHAR_LOWERCASE_Z := 122;
  LIT_CHAR_UPPERCASE_A := 65;
  LIT_CHAR_UPPERCASE_Z := 90;
  LIT_CHAR_LOWERCASE_I := 105;
  LIT_CHAR_UPPERCASE_S := 83;
  ecma_char_bits := 16
|}.

(** * Properties *)

(** ** Machine arithmetic, compressed pointers *)

Section Basics.
Context {cfg : Config}.

Lemma ptr_bits_cases : ptr_bits = 32 \/ ptr_bits = 64.
Proof. unfold ptr_bits. destruct wide; auto. Qed.

Lemma pow_ptr_bits_ge : 2 ^ 32 <= 2 ^ ptr_bits.
Proof. destruct ptr_bits_cases as [-> | ->]; lia. Qed.

Lemma to_size_t_small x : 0 <= x < 2 ^ ptr_bits -> to_size_t x = x.
Proof. intros H. unfold to_size_t. apply Z.mod_small. exact H. Qed.

Lemma to_size_t_small32 x : 0 <= x < 2 ^ 32 -> to_size_t x = x.
Proof. intros H. apply to_size_t_small. pose proof pow_ptr_bits_ge. lia. Qed.

Lemma to_uint32_small x : 0 <= x < 2 ^ 32 -> to_uint32 x = x.
Proof. intros H. unfold to_uint32. apply Z.mod_small. exact H. Qed.

Lemma to_size_t_range x : 0 <= to_size_t x < 2 ^ ptr_bits.
Proof.
  unfold to_size_t. apply Z.mod_pos_bound.
  destruct ptr_bits_cases as [-> | ->]; lia.
Qed.

Lemma alignment_pos : 0 <= JMEM_ALIGNMENT_LOG -> 0 < JMEM_ALIGNMENT.
Proof. intros H. unfold JMEM_ALIGNMENT. apply Z.pow_pos_nonneg; lia. Qed.

Lemma area_offset_bounds :
  0 <= JMEM_ALIGNMENT_LOG ->
  JMEM_ALIGNMENT <= area - heap_base /\ (area - heap_base) mod JMEM_ALIGNMENT = 0.
Proof.
  intros H. pose proof (alignment_pos H) as HA. unfold area, sizeof_jmem_heap_free_t.
  replace (heap_base + (8 + JMEM_ALIGNMENT - 1) / JMEM_ALIGNMENT * JMEM_ALIGNMENT - heap_base)
    with ((8 + JMEM_ALIGNMENT - 1) / JMEM_ALIGNMENT * JMEM_ALIGNMENT) by lia.
  split.
  - assert (1 <= (8 + JMEM_ALIGNMENT - 1) / JMEM_ALIGNMENT).
    { apply Z.div_le_lower_bound; lia. }
    nia.
  - apply Z.mod_mul. lia.
Qed.

(** C1 (compressed pointers).  For every [JMEM_ALIGNMENT]-aligned pointer
    inside the heap region, decompressing the compressed pointer gives
    the pointer back, and the compressed pointer is never
    [JMEM_CP_NULL]. *)
Theorem compress_roundtrip (p : Z) :
  0 <= JMEM_ALIGNMENT_LOG ->
  0 <= heap_base -> heap_base mod JMEM_ALIGNMENT = 0 ->
  area_end < 2 ^ ptr_bits ->
  jmem_is_heap_pointer p = true ->
  p mod JMEM_ALIGNMENT = 0 ->
  jmem_heap_decompress_pointer (jmem_heap_compress_pointer p) = p
  /\ jmem_heap_compress_pointer p <> JMEM_CP_NULL.
Proof.
  intros HL Hb Hba Hend Hp Hpa.
  pose proof (alignment_pos HL) as HA.
  destruct (area_offset_bounds HL) as [Hoff Hoffm].
  unfold jmem_is_heap_pointer in Hp. apply andb_true_iff in Hp.
  destruct Hp as [Hp1 Hp2]. apply Z.leb_le in Hp1, Hp2.
  fold area_end in Hp2.
  assert (Hpm : (p - heap_base) mod JMEM_ALIGNMENT = 0).
  { rewrite Zminus_mod, Hpa, Hba. reflexivity. }
  unfold jmem_heap_decompress_pointer, jmem_heap_compress_pointer.
  rewrite (to_size_t_small p) by lia.
  rewrite (to_size_t_small heap_base) by lia.
  rewrite (to_size_t_small (p - heap_base)) by lia.
  rewrite Z.shiftr_div_pow2, Z.shiftl_mul_pow2 by lia.
  fold JMEM_ALIGNMENT.
  assert (Hq : (p - heap_base) / JMEM_ALIGNMENT * JMEM_ALIGNMENT = p - heap_base).
  { pose proof (Z.div_mod (p - heap_base) JMEM_ALIGNMENT). lia. }
  rewrite Hq. rewrite (to_size_t_small (p - heap_base)) by lia.
  split.
  - replace (p - heap_base + heap_base) with p by lia. apply to_size_t_small. lia.
  - unfold JMEM_CP_NULL. intros H0. rewrite H0 in Hq. lia.
Qed.

(** C10 (heap pointers).  [jmem_is_heap_pointer] is true exactly on
    the addresses from the start of the area up to and including the
    address one past its end. *)
Theorem is_heap_pointer_inclusive (p : Z) :
  0 <= JMEM_HEAP_AREA_SIZE ->
  (jmem_is_heap_pointer p = true <-> area <= p <= area + JMEM_HEAP_AREA_SIZE)
  /\ jmem_is_heap_pointer (area + JMEM_HEAP_AREA_SIZE) = true.
Proof.
  intros H. unfold jmem_is_heap_pointer. split.
  - rewrite andb_true_iff, !Z.leb_le. tauto.
  - apply andb_true_iff. rewrite !Z.leb_le. lia.
Qed.

End Basics.

(** ** Configuration facts and the offset codec *)

Section Layout.
Context {cfg : Config}.
Hypothesis Hcfg : config_ok.

Lemma alignment_8 : JMEM_ALIGNMENT = 8.
Proof. unfold JMEM_ALIGNMENT. destruct Hcfg as (-> & _). reflexivity. Qed.

Lemma area_val : area = heap_base + 8.
Proof. unfold area. rewrite alignment_8. reflexivity. Qed.

Lemma area_size_val : JMEM_HEAP_AREA_SIZE = JMEM_HEAP_SIZE - 8.
Proof. unfold JMEM_HEAP_AREA_SIZE. rewrite alignment_8. reflexivity. Qed.

Lemma area_end_val : area_end = heap_base + JMEM_HEAP_SIZE.
Proof. unfold area_end. rewrite area_val, area_size_val. lia. Qed.

Lemma offset_base_bounds : 0 <= offset_base <= area.
Proof.
  unfold offset_base. rewrite area_val.
  destruct Hcfg as (_ & ? & _). destruct wide; lia.
Qed.

Lemma offset_val p :
  area <= p < 2 ^ 32 -> JMEM_HEAP_GET_OFFSET_FROM_ADDR p = p - offset_base.
Proof.
  intros Hp. pose proof offset_base_bounds as Hb.
  unfold JMEM_HEAP_GET_OFFSET_FROM_ADDR, offset_base in *.
  destruct wide; rewrite to_uint32_small; lia.
Qed.

Lemma addr_val u : JMEM_HEAP_GET_ADDR_FROM_OFFSET u = offset_base + u.
Proof. unfold JMEM_HEAP_GET_ADDR_FROM_OFFSET, offset_base. destruct wide; lia. Qed.

Lemma addr_of_offset p :
  area <= p < 2 ^ 32 ->
  JMEM_HEAP_GET_ADDR_FROM_OFFSET (JMEM_HEAP_GET_OFFSET_FROM_ADDR p) = p.
Proof. intros Hp. rewrite addr_val, offset_val by exact Hp. lia. Qed.

Lemma offset_range p :
  area <= p < 2 ^ 32 -> 0 <= JMEM_HEAP_GET_OFFSET_FROM_ADDR p < 2 ^ 32.
Proof. intros Hp. rewrite offset_val by exact Hp. pose proof offset_base_bounds. lia. Qed.

Lemma end_of_list_val : JMEM_HEAP_END_OF_LIST = 4294967295.
Proof. reflexivity. Qed.

Lemma area_end_below_eol : area_end < JMEM_HEAP_END_OF_LIST - 1.
Proof.
  rewrite area_end_val, end_of_list_val.
  destruct Hcfg as (_ & ? & ? & ? & ? & ? & _). lia.
Qed.

End Layout.

(** All the facts about the layout at once, for [lia]. *)
Ltac layout H :=
  pose proof (alignment_8 H) as L_A8;
  pose proof (area_val H) as L_area;
  pose proof (area_size_val H) as L_asz;
  pose proof (area_end_val H) as L_aend;
  pose proof end_of_list_val as L_eol;
  pose proof (offset_base_bounds H) as L_ob;
  let H' := fresh "Hc" in
  pose proof H as H';
  destruct H' as (HcL & HcB0 & HcB8 & HcS8 & HcSm & HcTop & HcD & HcDS);
  unfold first_p, sizeof_jmem_heap_free_t in *;
  rewrite ?L_A8 in *.

(** ** Memory *)

Lemma store_same m a v : store m a v a = to_uint32 v.
Proof. unfold store. rewrite Z.eqb_refl. reflexivity. Qed.

Lemma store_other m a v x : x <> a -> store m a v x = m x.
Proof. intros H. unfold store. destruct (Z.eqb_spec x a); [contradiction | reflexivity]. Qed.

(** Evaluate reads of a memory built from stores. *)
Ltac mem_simpl :=
  unfold set_size, set_next_offset, get_size, get_next_offset,
         jmem_heap_get_region_end, first_p, sizeof_jmem_heap_free_t in *;
  repeat (rewrite store_same in * || rewrite store_other in * by lia).

(** ** Lists of free nodes *)

Section Lists.
Context {cfg : Config}.

Lemma head_addr_app l1 l2 t :
  head_addr (l1 ++ l2) t = head_addr l1 (head_addr l2 t).
Proof. destruct l1; reflexivity. Qed.

Lemma lrep_app m l1 l2 t :
  lrep m (l1 ++ l2) t <-> lrep m l1 (head_addr l2 t) /\ lrep m l2 t.
Proof.
  induction l1 as [| n l1 IH]; simpl.
  - tauto.
  - rewrite IH, head_addr_app. tauto.
Qed.

Lemma lrep_frame m m' l t :
  (forall n, In n l -> m' (fst n) = m (fst n) /\ m' (fst n + 4) = m (fst n + 4)) ->
  lrep m l t -> lrep m' l t.
Proof.
  induction l as [| n l IH]; simpl; intros Hag H; [exact I |].
  destruct H as (Hn & Hs & Hl).
  destruct (Hag n (or_introl eq_refl)) as [E1 E2].
  unfold get_next_offset, get_size in *. rewrite E1, E2.
  repeat split; auto.
Qed.

Lemma lrep_frame_below m m' l t B :
  (forall x, x < B -> m' x = m x) ->
  (forall n, In n l -> fst n + 4 < B) ->
  lrep m l t -> lrep m' l t.
Proof.
  intros Hag Hl. apply lrep_frame. intros n Hn.
  specialize (Hl n Hn). split; apply Hag; lia.
Qed.

Lemma lrep_frame_above m m' l t B :
  (forall x, B < x -> m' x = m x) ->
  (forall n, In n l -> B < fst n) ->
  lrep m l t -> lrep m' l t.
Proof.
  intros Hag Hl. apply lrep_frame. intros n Hn.
  specialize (Hl n Hn). split; apply Hag; lia.
Qed.

Lemma sum_sizes_cons n l : sum_sizes (n :: l) = snd n + sum_sizes l.
Proof. reflexivity. Qed.

Lemma sum_sizes_app l1 l2 : sum_sizes (l1 ++ l2) = sum_sizes l1 + sum_sizes l2.
Proof.
  induction l1 as [| n l1 IH]; [reflexivity |].
  cbn [app]. rewrite !sum_sizes_cons, IH. lia.
Qed.

Lemma last_end_app e l1 l2 : last_end e (l1 ++ l2) = last_end (last_end e l1) l2.
Proof. revert e. induction l1 as [| n l1 IH]; simpl; intros e; [reflexivity | apply IH]. Qed.

Lemma chain_app e l1 l2 :
  chain e (l1 ++ l2) <-> chain e l1 /\ chain (last_end e l1) l2.
Proof.
  revert e. induction l1 as [| n l1 IH]; simpl; intros e.
  - tauto.
  - rewrite IH. tauto.
Qed.

Lemma chain_weaken e e' l : e' <= e -> chain e l -> chain e' l.
Proof. destruct l as [| n l]; simpl; intros He H; [exact I |]. intuition lia. Qed.

End Lists.

Section Chains.
Context {cfg : Config}.
Hypothesis Hcfg : config_ok.

Lemma node_ok_facts n :
  node_ok n ->
  heap_base + 8 <= fst n /\ fst n mod 8 = 0 /\ 8 <= snd n /\ snd n mod 8 = 0
  /\ fst n + snd n <= heap_base + JMEM_HEAP_SIZE.
Proof.
  unfold node_ok. layout Hcfg. rewrite L_area, L_aend. intros (? & ? & ? & ? & ?).
  repeat split; lia.
Qed.

Lemma chain_In e l n : chain e l -> In n l -> e < fst n /\ node_ok n.
Proof.
  revert e. induction l as [| x l IH]; simpl; intros e Hc Hin; [contradiction |].
  destruct Hc as (He & Hx & Hl). destruct Hin as [-> | Hin]; [auto |].
  destruct (IH _ Hl Hin) as [H1 H2]. split; [| exact H2].
  apply node_ok_facts in Hx. lia.
Qed.

Lemma chain_last_end e l : chain e l -> e <= last_end e l.
Proof.
  revert e. induction l as [| x l IH]; simpl; intros e Hc; [lia |].
  destruct Hc as (He & Hx & Hl). apply IH in Hl. apply node_ok_facts in Hx. lia.
Qed.

Lemma chain_In_end e l n : chain e l -> In n l -> fst n + snd n <= last_end e l.
Proof.
  revert e. induction l as [| x l IH]; simpl; intros e Hc Hin; [contradiction |].
  destruct Hc as (He & Hx & Hl). destruct Hin as [-> | Hin].
  - apply chain_last_end. exact Hl.
  - apply (IH _ Hl Hin).
Qed.

Lemma chain_last_end_bound e l :
  chain e l -> e <= heap_base + JMEM_HEAP_SIZE ->
  last_end e l <= heap_base + JMEM_HEAP_SIZE.
Proof.
  revert e. induction l as [| x l IH]; simpl; intros e Hc He; [lia |].
  destruct Hc as (_ & Hx & Hl). apply IH; [exact Hl |].
  apply node_ok_facts in Hx. lia.
Qed.

Lemma chain_length e l :
  chain e l -> e <= heap_base + JMEM_HEAP_SIZE ->
  8 * Z.of_nat (length l) <= heap_base + JMEM_HEAP_SIZE - e.
Proof.
  revert e. induction l as [| x l IH]; simpl length; intros e Hc He; [simpl; lia |].
  destruct Hc as (Hlt & Hx & Hl). pose proof (node_ok_facts _ Hx) as Hf.
  assert (Hb : fst x + snd x <= heap_base + JMEM_HEAP_SIZE) by lia.
  specialize (IH _ Hl Hb). rewrite Nat2Z.inj_succ. lia.
Qed.

Lemma chain_sum e l :
  chain e l -> 0 <= sum_sizes l /\ e + sum_sizes l <= last_end e l.
Proof.
  revert e. induction l as [| x l IH]; simpl; intros e Hc; [lia |].
  destruct Hc as (Hlt & Hx & Hl). pose proof (node_ok_facts _ Hx) as Hf.
  destruct (IH _ Hl). lia.
Qed.

Lemma chain_sum_area e l : chain e l -> 0 <= sum_sizes l <= JMEM_HEAP_SIZE - 8.
Proof.
  destruct l as [| n l]; intros Hc.
  - cbn. destruct Hcfg as (_ & _ & _ & ? & _). lia.
  - destruct Hc as (_ & Hok & Hc). pose proof (node_ok_facts _ Hok) as Hf.
    pose proof (chain_sum _ _ Hc) as [H0 H1].
    pose proof (chain_last_end_bound _ _ Hc ltac:(lia)).
    rewrite sum_sizes_cons. lia.
Qed.

Lemma chain_head_range e l :
  chain e l -> area <= head_addr l JMEM_HEAP_END_OF_LIST < 2 ^ 32.
Proof.
  layout Hcfg. destruct l as [| x l]; cbn [head_addr chain]; intros Hc.
  - lia.
  - destruct Hc as (_ & Hx & _). apply node_ok_facts in Hx. lia.
Qed.

Lemma fuel_enough e l fuel :
  chain e l -> heap_base <= e <= heap_base + JMEM_HEAP_SIZE -> fuel_ok fuel ->
  (length l < fuel)%nat.
Proof.
  intros Hc He Hf. pose proof (chain_length _ _ Hc (proj2 He)).
  unfold fuel_ok in Hf. layout Hcfg. lia.
Qed.

Lemma free_list_from_lrep m e l fuel :
  lrep m l JMEM_HEAP_END_OF_LIST -> chain e l -> (length l < fuel)%nat ->
  free_list_from fuel m (head_addr l JMEM_HEAP_END_OF_LIST) = Some l.
Proof.
  revert e fuel. induction l as [| x l IH]; intros e fuel Hr Hc Hf.
  - destruct fuel; [simpl in Hf; lia |]. simpl. reflexivity.
  - destruct fuel; [simpl in Hf; lia |]. simpl in Hr, Hc, Hf.
    destruct Hr as (Hn & Hs & Hr). destruct Hc as (He & Hx & Hc).
    pose proof (node_ok_facts _ Hx) as Hxf. layout Hcfg.
    cbn [free_list_from head_addr].
    destruct (Z.eqb_spec (fst x) JMEM_HEAP_END_OF_LIST) as [E | _]; [lia |].
    rewrite Hn, (addr_of_offset Hcfg) by (apply (chain_head_range _ _ Hc)).
    rewrite (IH _ fuel Hr Hc) by lia.
    rewrite Hs. destruct x; reflexivity.
Qed.

Lemma free_list_from_det m p f1 f2 l1 l2 :
  free_list_from f1 m p = Some l1 -> free_list_from f2 m p = Some l2 -> l1 = l2.
Proof.
  revert p f2 l1 l2. induction f1 as [| f1 IH]; intros p f2 l1 l2 H1 H2; [discriminate |].
  destruct f2 as [| f2]; [discriminate |]. simpl in H1, H2.
  destruct (p =? JMEM_HEAP_END_OF_LIST); [congruence |].
  destruct (free_list_from f1 m _) as [l1' |] eqn:E1; [| discriminate].
  destruct (free_list_from f2 m _) as [l2' |] eqn:E2; [| discriminate].
  rewrite (IH _ _ _ _ E1 E2) in H1. congruence.
Qed.

(** The list of a well-formed state is the one [free_list] reads. *)
Lemma free_list_of_lrep st l fuel :
  lrep (heap_mem st) ((first_p, 0) :: l) JMEM_HEAP_END_OF_LIST ->
  chain first_p l -> fuel_ok fuel ->
  free_list fuel st = Some l.
Proof.
  intros Hr Hc Hf. simpl in Hr. destruct Hr as (Hn & _ & Hr).
  unfold free_list. rewrite Hn.
  rewrite (addr_of_offset Hcfg) by (apply (chain_head_range _ _ Hc)).
  apply (free_list_from_lrep _ first_p); auto.
  apply (fuel_enough first_p); auto. layout Hcfg. lia.
Qed.

(** ** Initialisation *)

Lemma init_wf m : heap_wf (jmem_heap_init m).
Proof.
  layout Hcfg. exists [(area, JMEM_HEAP_AREA_SIZE)].
  unfold jmem_heap_init. cbn [heap_mem jmem_heap_allocated_size jmem_heap_limit
                                jmem_heap_list_skip_p].
  assert (Ho : JMEM_HEAP_GET_OFFSET_FROM_ADDR area = area - offset_base)
    by (apply (offset_val Hcfg); lia).
  assert (Ho2 : 0 <= JMEM_HEAP_GET_OFFSET_FROM_ADDR JMEM_HEAP_END_OF_LIST < 2 ^ 32)
    by (apply (offset_range Hcfg); lia).
  repeat split; cbn [lrep fst snd head_addr chain sum_sizes fold_right];
    try (left; reflexivity);
    try (mem_simpl; rewrite ?Ho; try reflexivity; apply to_uint32_small; lia);
    try (unfold first_p, area_end; rewrite ?L_A8; lia).
Qed.

(** ** The loops on the limit *)

Lemma limit_grow_spec fuel a lim :
  0 <= a <= JMEM_HEAP_SIZE -> 0 <= lim ->
  lim <= a + CONFIG_MEM_HEAP_DESIRED_LIMIT ->
  a - lim < Z.of_nat fuel * CONFIG_MEM_HEAP_DESIRED_LIMIT ->
  exists lim', limit_grow (S fuel) a lim = Some lim'
               /\ a < lim' <= a + CONFIG_MEM_HEAP_DESIRED_LIMIT
               /\ lim <= lim' /\ (lim <= a \/ lim' = lim).
Proof.
  layout Hcfg. revert lim. induction fuel as [| fuel IH]; intros lim Ha Hl0 Hl Hf.
  - simpl in Hf. exists lim. simpl.
    destruct (Z.leb_spec lim a); [lia |]. repeat split; lia.
  - cbn [limit_grow]. destruct (Z.leb_spec lim a) as [Hle | Hgt].
    + rewrite to_size_t_small32 by lia.
      destruct (IH (lim + CONFIG_MEM_HEAP_DESIRED_LIMIT)) as (lim' & E & H1 & H2 & H3);
        try lia.
      exists lim'. cbn [limit_grow] in E. rewrite E. repeat split; try lia.
    + exists lim. repeat split; try lia.
Qed.

Lemma limit_shrink_spec fuel a lim :
  0 <= a <= JMEM_HEAP_SIZE -> a <= lim < 2 ^ 32 ->
  lim - a < Z.of_nat fuel * CONFIG_MEM_HEAP_DESIRED_LIMIT ->
  exists lim', limit_shrink fuel a lim = Some lim'
               /\ a <= lim' /\ lim' <= lim
               /\ lim' <= a + CONFIG_MEM_HEAP_DESIRED_LIMIT.
Proof.
  layout Hcfg. revert lim. induction fuel as [| fuel IH]; intros lim Ha Hl Hf.
  - lia.
  - cbn [limit_shrink]. rewrite to_size_t_small32 by lia.
    destruct (Z.leb_spec (a + CONFIG_MEM_HEAP_DESIRED_LIMIT) lim) as [Hle | Hgt].
    + rewrite to_size_t_small32 by lia.
      destruct (IH (lim - CONFIG_MEM_HEAP_DESIRED_LIMIT)) as (lim' & E & H1 & H2 & H3);
        try lia.
      exists lim'. rewrite E. repeat split; lia.
    + exists lim. repeat split; lia.
Qed.

End Chains.

Section Splits.
Context {cfg : Config}.
Hypothesis Hcfg : config_ok.

(** Where a node [(pa, ps)] of the list headed by the sentinel sits. *)
Lemma split_facts l pre pa ps post :
  chain first_p l ->
  (first_p, 0) :: l = pre ++ (pa, ps) :: post ->
  (forall n, In n pre -> fst n + 4 < pa)
  /\ chain (pa + ps) post
  /\ ((pre = [] /\ pa = first_p /\ ps = 0 /\ post = l)
      \/ (exists l1, pre = (first_p, 0) :: l1 /\ l = l1 ++ (pa, ps) :: post
                     /\ node_ok (pa, ps) /\ chain first_p l1
                     /\ last_end first_p l1 < pa)).
Proof.
  intros Hc E. layout Hcfg. destruct pre as [| x l1].
  - simpl in E. injection E as <- <- <-. repeat split.
    + intros n [].
    + replace (heap_base + 0) with heap_base by lia. exact Hc.
    + left. auto.
  - simpl in E. injection E as <- ->.
    apply chain_app in Hc. destruct Hc as [Hc1 Hc2].
    cbn [chain fst snd] in Hc2. destruct Hc2 as (Hlt & Hok & Hpost).
    pose proof (node_ok_facts Hcfg _ Hok) as Hf. cbn [fst snd] in Hf.
    repeat split.
    + intros n [<- | Hn]; cbn [fst]; [lia |].
      pose proof (chain_In_end Hcfg _ _ _ Hc1 Hn).
      destruct (chain_In Hcfg _ _ _ Hc1 Hn) as [_ Hnok].
      apply (node_ok_facts Hcfg) in Hnok. lia.
    + exact Hpost.
    + right. exists l1. repeat split; auto; apply Hok.
Qed.

(** Replacing the part of the list from a node on, given the memory is
    unchanged below that node. *)
Lemma rebuild l pre pa ps post ps' post' m m' :
  chain first_p l ->
  (first_p, 0) :: l = pre ++ (pa, ps) :: post ->
  lrep m ((first_p, 0) :: l) JMEM_HEAP_END_OF_LIST ->
  (forall x, x < pa -> m' x = m x) ->
  lrep m' ((pa, ps') :: post') JMEM_HEAP_END_OF_LIST ->
  (pa = first_p -> ps' = 0) ->
  (pa <> first_p -> node_ok (pa, ps')) ->
  chain (pa + ps') post' ->
  exists l',
    lrep m' ((first_p, 0) :: l') JMEM_HEAP_END_OF_LIST
    /\ chain first_p l'
    /\ sum_sizes l' = sum_sizes l - (ps + sum_sizes post) + (ps' + sum_sizes post')
    /\ (first_p, 0) :: l' = pre ++ (pa, ps') :: post'.
Proof.
  intros Hc E Hr Hag Hr' Hs0 Hnok Hc'.
  destruct (split_facts _ _ _ _ _ Hc E) as (Hpre & Hpost & Hcase).
  rewrite E in Hr. apply lrep_app in Hr. destruct Hr as [Hr1 _].
  cbn [head_addr fst] in Hr1.
  assert (Hr1' : lrep m' pre pa) by (apply (lrep_frame_below m m' pre pa pa); auto).
  destruct Hcase as [(-> & -> & -> & ->) | (l1 & -> & -> & Hok & Hc1 & Hlt)].
  - exists post'. rewrite (Hs0 eq_refl) in *. split; [| split; [| split]].
    + exact Hr'.
    + replace (first_p + 0) with first_p in Hc' by lia. exact Hc'.
    + lia.
    + reflexivity.
  - assert (Hne : pa <> first_p).
    { apply (node_ok_facts Hcfg) in Hok. cbn [fst] in Hok. unfold first_p. lia. }
    exists (l1 ++ (pa, ps') :: post'). split; [| split; [| split]].
    + change ((first_p, 0) :: l1 ++ (pa, ps') :: post')
        with (((first_p, 0) :: l1) ++ (pa, ps') :: post').
      apply lrep_app. split; [exact Hr1' | exact Hr'].
    + apply chain_app. split; [exact Hc1 |].
      cbn [chain fst snd]. repeat split; auto; apply (Hnok Hne).
    + rewrite !sum_sizes_app, !sum_sizes_cons. cbn [snd]. lia.
    + reflexivity.
Qed.

Lemma skip_ok_full skip l :
  In skip (map fst ((first_p, 0) :: l)) -> skip_ok skip l.
Proof. cbn [map fst]. intros [<- | H]; [left | right; left]; auto. Qed.

Lemma skip_ok_full_inv skip l :
  skip_ok skip l ->
  In skip (map fst ((first_p, 0) :: l)) \/ (skip = JMEM_HEAP_END_OF_LIST /\ l = []).
Proof.
  cbn [map fst]. intros [-> | [H | H]].
  - left. left. reflexivity.
  - left. right. exact H.
  - right. exact H.
Qed.

(** Carving a region keeps the list well formed. *)
Lemma carve_wf l pre pa ps a s post m m' req :
  chain first_p l ->
  lrep m ((first_p, 0) :: l) JMEM_HEAP_END_OF_LIST ->
  (first_p, 0) :: l = pre ++ (pa, ps) :: (a, s) :: post ->
  0 <= req <= s -> req mod 8 = 0 ->
  carved m m' pa a s req ->
  exists l',
    lrep m' ((first_p, 0) :: l') JMEM_HEAP_END_OF_LIST
    /\ chain first_p l'
    /\ sum_sizes l' = sum_sizes l - req
    /\ (first_p, 0) :: l' = pre ++ (pa, ps) :: carve_nodes a s req ++ post.
Proof.
  intros Hc Hr E Hreq Hreq8 Hcv.
  destruct (split_facts _ _ _ _ _ Hc E) as (Hpre & Hpost & Hcase).
  cbn [chain fst snd] in Hpost. destruct Hpost as (Hlt & Haok & Hpost).
  pose proof (node_ok_facts Hcfg _ Haok) as Haf. cbn [fst snd] in Haf.
  layout Hcfg.
  assert (Hpa : heap_base <= pa /\ pa + 8 <= a /\ (pa = heap_base -> ps = 0)
                /\ (pa <> heap_base -> node_ok (pa, ps))).
  { destruct Hcase as [(_ & -> & -> & _) | (l1 & _ & _ & Hok & _)].
    - split; [lia | split; [lia | split; [reflexivity | intros H; congruence]]].
    - pose proof (node_ok_facts Hcfg _ Hok) as Hf. cbn [fst snd] in Hf.
      split; [lia | split; [lia | split; [lia | auto]]]. }
  destruct Hpa as (Hpa1 & Hpa2 & Hpa3 & Hpa4).
  pose proof Hr as Hr0. rewrite E in Hr0. apply lrep_app in Hr0.
  destruct Hr0 as [_ Hr0]. cbn [lrep fst snd head_addr] in Hr0.
  destruct Hr0 as (Hpn & Hpsz & Han & Hasz' & Hrpost).
  unfold get_next_offset, get_size in *.
  assert (Hna : 0 <= m a < 2 ^ 32).
  { rewrite Han. apply (offset_range Hcfg).
    pose proof (chain_head_range Hcfg _ _ Hpost). lia. }
  assert (Hpostabove : forall n, In n post -> a + s < fst n).
  { intros n Hn. apply (chain_In Hcfg _ _ _ Hpost Hn). }
  unfold carved, carve_nodes in *.
  destruct (Z.ltb_spec req s) as [Hlt' | Hge].
  - destruct Hcv as (Cp & Cr & Crs & Cfr).
    destruct (rebuild l pre pa ps ((a, s) :: post) ps ((a + req, s - req) :: post) m m')
      as (l' & R1 & R2 & R3 & R4); auto.
    + intros x Hx. apply Cfr; lia.
    + cbn [lrep fst snd head_addr]. unfold get_next_offset, get_size.
      repeat split.
      * exact Cp.
      * rewrite Cfr by lia. exact Hpsz.
      * rewrite Cr. exact Han.
      * exact Crs.
      * apply (lrep_frame_above m m' post _ (a + req + 4)); auto.
        -- intros x Hx. apply Cfr; lia.
        -- intros n Hn. specialize (Hpostabove n Hn). lia.
    + cbn [chain fst snd]. split; [lia | split].
      * unfold node_ok. cbn [fst snd]. rewrite L_A8, L_area, L_aend. lia.
      * replace (a + req + (s - req)) with (a + s) by lia. exact Hpost.
    + exists l'. split; [| split; [| split]]; auto.
      rewrite R3, ?sum_sizes_cons. cbn [snd]. lia.
  - assert (req = s) by lia. subst req. destruct Hcv as (Cp & Cfr).
    destruct (rebuild l pre pa ps ((a, s) :: post) ps post m m')
      as (l' & R1 & R2 & R3 & R4); auto.
    + intros x Hx. apply Cfr; lia.
    + cbn [lrep fst snd head_addr]. unfold get_next_offset, get_size.
      repeat split.
      * rewrite Cp. exact Han.
      * rewrite Cfr by lia. exact Hpsz.
      * apply (lrep_frame_above m m' post _ pa); auto.
        -- intros x Hx. apply Cfr; lia.
        -- intros n Hn. specialize (Hpostabove n Hn). lia.
    + apply (chain_weaken (a + s)); [lia | exact Hpost].
    + exists l'. split; [| split; [| split]]; auto.
      rewrite R3, ?sum_sizes_cons. cbn [snd]. lia.
Qed.

End Splits.

Lemma last_cons {A} (x : A) l d : last (x :: l) d = last l x.
Proof.
  revert x d. induction l as [| y l IH]; intros x d; [reflexivity |].
  change (last (x :: y :: l) d) with (last (y :: l) d).
  rewrite (IH y d), (IH y x). reflexivity.
Qed.

Section Alloc.
Context {cfg : Config}.
Hypothesis Hcfg : config_ok.

Lemma align_size_facts size :
  0 <= align_size size < 2 ^ ptr_bits /\ align_size size mod 8 = 0.
Proof.
  unfold align_size. rewrite (alignment_8 Hcfg).
  pose proof (to_size_t_range (size + 8 - 1)) as Hr.
  set (y := to_size_t (size + 8 - 1)) in *.
  rewrite (to_size_t_small (y / 8 * 8)) by lia. lia.
Qed.

Lemma align_size_val size :
  0 <= size -> size + 7 < 2 ^ ptr_bits -> align_size size = (size + 7) / 8 * 8.
Proof.
  intros H0 H1. unfold align_size. rewrite (alignment_8 Hcfg).
  replace (size + 8 - 1) with (size + 7) by lia.
  rewrite (to_size_t_small (size + 7)) by lia.
  apply to_size_t_small. lia.
Qed.

(** The pure search of the first fit. *)
Lemma first_fit_split (l : list (Z * Z)) req :
  Forall (fun n => snd n < req) l
  \/ exists l1 a s l2, l = l1 ++ (a, s) :: l2
                       /\ Forall (fun n => snd n < req) l1 /\ req <= s.
Proof.
  induction l as [| [a s] l IH].
  - left. constructor.
  - destruct (Z.ltb_spec s req) as [Hlt | Hge].
    + destruct IH as [IH | (l1 & a' & s' & l2 & -> & Hl1 & Hs)].
      * left. constructor; auto.
      * right. exists ((a, s) :: l1), a', s', l2. repeat split; auto.
    + right. exists [], a, s, l. repeat split; auto.
Qed.

Lemma split_region_carved m pa a s req :
  m (a + 4) = s -> 0 <= req <= s -> s < 2 ^ 32 ->
  pa + 8 <= a -> 0 <= m a < 2 ^ 32 ->
  area <= a + req < 2 ^ 32 ->
  carved m (split_region m pa a req) pa a s req.
Proof.
  intros Hs Hreq Hs32 Hpa Hma Hrem.
  pose proof (offset_range Hcfg _ Hrem) as Hor.
  unfold carved, split_region, get_size, get_next_offset, set_size, set_next_offset.
  rewrite Hs. destruct (Z.ltb_spec req s) as [Hlt | Hge].
  - rewrite (to_uint32_small req) by lia. split; [| split; [| split]].
    + rewrite store_same. apply to_uint32_small. lia.
    + rewrite store_other by lia. rewrite store_same. apply to_uint32_small. lia.
    + rewrite !store_other by lia. rewrite store_same. apply to_uint32_small. lia.
    + intros x H1 H2 H3. rewrite !store_other by lia. reflexivity.
  - split.
    + rewrite store_same. apply to_uint32_small. lia.
    + intros x H1. rewrite store_other by lia. reflexivity.
Qed.

Section Walk.
Variable st : heap_state.
Variable req : Z.

Lemma slow_walk_fail l e pa fuel :
  lrep (heap_mem st) l JMEM_HEAP_END_OF_LIST -> chain e l ->
  Forall (fun n => snd n < req) l -> (length l < fuel)%nat ->
  alloc_slow_path fuel req st pa (head_addr l JMEM_HEAP_END_OF_LIST) = Some (NULL, st).
Proof.
  revert e pa fuel. induction l as [| [b t] l IH]; intros e pa fuel Hr Hc Hall Hf;
    (destruct fuel as [| fuel]; [simpl in Hf; lia |]).
  - cbn [alloc_slow_path head_addr]. rewrite Z.eqb_refl. reflexivity.
  - cbn [lrep chain fst snd] in Hr, Hc. destruct Hr as (Hn & Hs & Hr).
    destruct Hc as (_ & Hok & Hc). apply Forall_cons_iff in Hall. destruct Hall as [Ht Hall'].
    cbn [snd] in Ht. pose proof (node_ok_facts Hcfg _ Hok) as Hf'. cbn [fst snd] in Hf'.
    layout Hcfg. cbn [alloc_slow_path head_addr fst].
    destruct (Z.eqb_spec b JMEM_HEAP_END_OF_LIST) as [E | _]; [lia |].
    rewrite Hs. destruct (Z.leb_spec req t) as [? | _]; [lia |].
    rewrite Hn, (addr_of_offset Hcfg) by (apply (chain_head_range Hcfg _ _ Hc)).
    apply (IH (b + t)); auto. simpl in Hf. lia.
Qed.

Lemma slow_walk_found l1 a s l2 e pa fuel :
  lrep (heap_mem st) (l1 ++ (a, s) :: l2) JMEM_HEAP_END_OF_LIST ->
  chain e (l1 ++ (a, s) :: l2) ->
  Forall (fun n => snd n < req) l1 -> req <= s -> (length l1 < fuel)%nat ->
  alloc_slow_path fuel req st pa (head_addr (l1 ++ (a, s) :: l2) JMEM_HEAP_END_OF_LIST)
  = Some (a, mkHeap (split_region (heap_mem st) (last (map fst l1) pa) a req)
                    (to_size_t (jmem_heap_allocated_size st + req))
                    (jmem_heap_limit st) (last (map fst l1) pa)).
Proof.
  revert e pa fuel. induction l1 as [| [b t] l1 IH]; intros e pa fuel Hr Hc Hall Hs Hf;
    (destruct fuel as [| fuel]; [simpl in Hf; lia |]).
  - cbn [app lrep chain fst snd] in Hr, Hc. destruct Hr as (Hn & Hsz & Hr).
    destruct Hc as (_ & Hok & Hc).
    pose proof (node_ok_facts Hcfg _ Hok) as Hf'. cbn [fst snd] in Hf'.
    layout Hcfg. cbn [app alloc_slow_path head_addr fst map last].
    destruct (Z.eqb_spec a JMEM_HEAP_END_OF_LIST) as [E | _]; [lia |].
    rewrite Hsz. destruct (Z.leb_spec req s) as [_ | ?]; [| lia]. reflexivity.
  - cbn [app lrep chain fst snd] in Hr, Hc. destruct Hr as (Hn & Hsz & Hr).
    destruct Hc as (_ & Hok & Hc). apply Forall_cons_iff in Hall. destruct Hall as [Ht Hall'].
    cbn [snd] in Ht. pose proof (node_ok_facts Hcfg _ Hok) as Hf'. cbn [fst snd] in Hf'.
    layout Hcfg. cbn [app alloc_slow_path head_addr fst map].
    destruct (Z.eqb_spec b JMEM_HEAP_END_OF_LIST) as [E | _]; [lia |].
    rewrite Hsz. destruct (Z.leb_spec req t) as [? | _]; [lia |].
    rewrite Hn, (addr_of_offset Hcfg) by (apply (chain_head_range Hcfg _ _ Hc)).
    rewrite last_cons. apply (IH (b + t)); auto. simpl in Hf. lia.
Qed.

End Walk.

End Alloc.

Section AllocSpec.
Context {cfg : Config}.
Hypothesis Hcfg : config_ok.

(** The node before position [length l1] of the list, sentinel included. *)
Lemma prev_split (l1 : list (Z * Z)) :
  exists pre pa ps, (first_p, 0) :: l1 = pre ++ [(pa, ps)]
                    /\ pa = last (map fst l1) first_p.
Proof.
  destruct (@exists_last _ ((first_p, 0) :: l1)) as (pre & [pa ps] & E); [discriminate |].
  exists pre, pa, ps. split; [exact E |].
  assert (H : last (map fst ((first_p, 0) :: l1)) 0 = pa).
  { rewrite E, map_app. cbn [map fst]. apply last_last. }
  cbn [map fst] in H. rewrite last_cons in H. symmetry. exact H.
Qed.

(** What the memory holds around a node [(a, s)] that follows [(pa, ps)]. *)
Lemma suffix_facts l pre pa ps a s post m :
  chain first_p l ->
  lrep m ((first_p, 0) :: l) JMEM_HEAP_END_OF_LIST ->
  (first_p, 0) :: l = pre ++ (pa, ps) :: (a, s) :: post ->
  m pa = JMEM_HEAP_GET_OFFSET_FROM_ADDR a /\ m (pa + 4) = ps
  /\ m a = JMEM_HEAP_GET_OFFSET_FROM_ADDR (head_addr post JMEM_HEAP_END_OF_LIST)
  /\ m (a + 4) = s /\ 0 <= m a < 2 ^ 32
  /\ heap_base <= pa /\ pa + 8 <= a /\ pa + ps < a
  /\ heap_base + 8 <= a /\ a mod 8 = 0 /\ 8 <= s /\ s mod 8 = 0
  /\ a + s <= heap_base + JMEM_HEAP_SIZE.
Proof.
  intros Hc Hr E.
  destruct (split_facts Hcfg _ _ _ _ _ Hc E) as (Hpre & Hpost & Hcase).
  cbn [chain fst snd] in Hpost. destruct Hpost as (Hlt & Haok & Hpost).
  pose proof (node_ok_facts Hcfg _ Haok) as Haf. cbn [fst snd] in Haf.
  rewrite E in Hr. apply lrep_app in Hr.
  destruct Hr as [_ Hr]. cbn [lrep fst snd head_addr] in Hr.
  destruct Hr as (Hpn & Hpsz & Han & Hasz' & Hrpost).
  unfold get_next_offset, get_size in *.
  assert (Hna : 0 <= m a < 2 ^ 32).
  { rewrite Han. apply (offset_range Hcfg). apply (chain_head_range Hcfg _ _ Hpost). }
  layout Hcfg.
  assert (Hpa : heap_base <= pa /\ pa + 8 <= a).
  { destruct Hcase as [(_ & -> & -> & _) | (l1 & _ & _ & Hok & _)].
    - unfold first_p. lia.
    - pose proof (node_ok_facts Hcfg _ Hok) as Hf. cbn [fst snd] in Hf. lia. }
  repeat split; auto; lia.
Qed.

Lemma offset_eol_iff p :
  area <= p < 2 ^ 32 ->
  (JMEM_HEAP_GET_OFFSET_FROM_ADDR p
   =? JMEM_HEAP_GET_OFFSET_FROM_ADDR JMEM_HEAP_END_OF_LIST)
  = (p =? JMEM_HEAP_END_OF_LIST).
Proof.
  intros Hp. layout Hcfg.
  rewrite !(offset_val Hcfg) by lia.
  destruct (Z.eqb_spec p JMEM_HEAP_END_OF_LIST);
    destruct (Z.eqb_spec (p - offset_base) (JMEM_HEAP_END_OF_LIST - offset_base)); lia.
Qed.

Lemma fast_path_carved st a s post :
  chain first_p ((a, s) :: post) ->
  lrep (heap_mem st) ((first_p, 0) :: (a, s) :: post) JMEM_HEAP_END_OF_LIST ->
  exists m',
    alloc_fast_path st
    = (a, mkHeap m' (to_size_t (jmem_heap_allocated_size st + 8)) (jmem_heap_limit st)
                 (if a =? jmem_heap_list_skip_p st
                  then JMEM_HEAP_GET_ADDR_FROM_OFFSET (m' first_p)
                  else jmem_heap_list_skip_p st))
    /\ carved (heap_mem st) m' first_p a s 8.
Proof.
  intros Hc Hr.
  destruct (suffix_facts _ [] first_p 0 a s post _ Hc Hr eq_refl)
    as (Hpn & Hpsz & Han & Hasz & Hna & Hp1 & Hp2 & Hp3 & Ha1 & Ha2 & Hs1 & Hs2 & Ha3).
  layout Hcfg.
  assert (Hrem : area <= a + 8 < 2 ^ 32) by lia.
  pose proof (offset_range Hcfg _ Hrem) as Hor.
  assert (Hd : JMEM_HEAP_GET_ADDR_FROM_OFFSET (get_next_offset (heap_mem st) first_p) = a).
  { unfold get_next_offset, first_p. rewrite Hpn. apply (addr_of_offset Hcfg). lia. }
  assert (Hsz : get_size (heap_mem st) a = s) by exact Hasz.
  unfold alloc_fast_path. rewrite !Hd, L_A8, !Hsz. unfold sizeof_jmem_heap_free_t.
  unfold carved.
  destruct (Z.eqb_spec s 8) as [-> | Hne].
  - eexists. split; [reflexivity |].
    destruct (Z.ltb_spec 8 8) as [? | _]; [lia |].
    unfold set_next_offset, get_next_offset. split.
    + rewrite store_same. apply to_uint32_small. lia.
    + intros x Hx. rewrite store_other by exact Hx. reflexivity.
  - eexists. split; [reflexivity |].
    destruct (Z.ltb_spec 8 s) as [_ | ?]; [| lia].
    unfold set_next_offset, set_size, get_next_offset, get_size.
    unfold first_p. split; [| split; [| split]].
    + rewrite store_same. apply to_uint32_small. lia.
    + rewrite store_other by lia. rewrite store_same.
      rewrite store_other by lia. apply to_uint32_small. lia.
    + rewrite !store_other by lia. rewrite store_same. apply to_uint32_small. lia.
    + intros x H1 H2 H3. rewrite !store_other by lia. reflexivity.
Qed.

End AllocSpec.

Section AllocInternal.
Context {cfg : Config}.
Hypothesis Hcfg : config_ok.

Lemma fuel_mul fuel x :
  fuel_ok fuel -> x <= JMEM_HEAP_SIZE - 8 ->
  x < Z.of_nat (pred fuel) * CONFIG_MEM_HEAP_DESIRED_LIMIT.
Proof.
  unfold fuel_ok. intros Hf Hx. layout Hcfg.
  assert (x < Z.of_nat (pred fuel)) by lia. nia.
Qed.

(** The internal allocation on a well-formed heap, with the skip pointer
    each path leaves. *)
Lemma alloc_internal_full fuel size st l :
  lrep (heap_mem st) ((first_p, 0) :: l) JMEM_HEAP_END_OF_LIST ->
  chain first_p l ->
  jmem_heap_allocated_size st + sum_sizes l = JMEM_HEAP_AREA_SIZE ->
  skip_ok (jmem_heap_list_skip_p st) l ->
  jmem_heap_allocated_size st <= jmem_heap_limit st
    <= jmem_heap_allocated_size st + CONFIG_MEM_HEAP_DESIRED_LIMIT ->
  fuel_ok fuel ->
  (Forall (fun n => snd n < align_size size) l
   /\ exists lim,
       jmem_heap_alloc_block_internal fuel size st = Some (NULL, set_limit st lim)
       /\ jmem_heap_limit st <= lim
       /\ jmem_heap_allocated_size st <= lim
          <= jmem_heap_allocated_size st + CONFIG_MEM_HEAP_DESIRED_LIMIT)
  \/ (exists l1 a s l2 st',
        l = l1 ++ (a, s) :: l2
        /\ Forall (fun n => snd n < align_size size) l1
        /\ align_size size <= s
        /\ jmem_heap_alloc_block_internal fuel size st = Some (a, st')
        /\ carved (heap_mem st) (heap_mem st') (last (map fst l1) first_p) a s
                  (align_size size)
        /\ lrep (heap_mem st')
                ((first_p, 0) :: l1 ++ carve_nodes a s (align_size size) ++ l2)
                JMEM_HEAP_END_OF_LIST
        /\ chain first_p (l1 ++ carve_nodes a s (align_size size) ++ l2)
        /\ jmem_heap_allocated_size st'
           = jmem_heap_allocated_size st + align_size size
        /\ skip_ok (jmem_heap_list_skip_p st')
                   (l1 ++ carve_nodes a s (align_size size) ++ l2)
        /\ jmem_heap_allocated_size st' < jmem_heap_limit st'
           <= jmem_heap_allocated_size st' + CONFIG_MEM_HEAP_DESIRED_LIMIT
        /\ jmem_heap_limit st <= jmem_heap_limit st'
        /\ (align_size size <> JMEM_ALIGNMENT ->
            jmem_heap_list_skip_p st' = last (map fst l1) first_p)
        /\ (align_size size = JMEM_ALIGNMENT ->
            l1 = []
            /\ jmem_heap_list_skip_p st'
               = (if a =? jmem_heap_list_skip_p st
                  then head_addr (carve_nodes a s (align_size size) ++ l2)
                                 JMEM_HEAP_END_OF_LIST
                  else jmem_heap_list_skip_p st))).
Proof.
  intros Hr Hc Hsum Hskip Hlim Hfuel.
  destruct (align_size_facts Hcfg size) as [Hreq0 Hreq8].
  set (req := align_size size) in *.
  pose proof (chain_sum_area Hcfg _ _ Hc) as Hsum0.
  pose proof (chain_last_end_bound Hcfg _ _ Hc) as Hle.
  pose proof (fuel_enough Hcfg first_p l fuel Hc) as Hlen.
  pose proof Hr as Hr0. cbn [lrep fst snd] in Hr0. destruct Hr0 as (Hfn & Hfs & Hrl).
  unfold get_next_offset in Hfn.
  assert (Hfuel1 : exists fuel', fuel = S fuel' /\ fuel' = pred fuel).
  { unfold fuel_ok in Hfuel. destruct fuel as [| f]; [| eauto].
    destruct Hcfg as (_ & _ & _ & ? & _). simpl in Hfuel. lia. }
  destruct Hfuel1 as (fuel' & Efuel & Epred).
  unfold jmem_heap_alloc_block_internal. fold req.
  destruct (first_fit_split l req) as [Hall | (l1 & a & s & l2 & El & Hall & Hs)].
  - left. split; [exact Hall |].
    assert (Hcond : (req =? JMEM_ALIGNMENT)
                    && negb (get_next_offset (heap_mem st) first_p
                             =? JMEM_HEAP_GET_OFFSET_FROM_ADDR JMEM_HEAP_END_OF_LIST)
                    = false).
    { unfold get_next_offset. rewrite Hfn.
      rewrite (offset_eol_iff Hcfg) by (apply (chain_head_range Hcfg _ _ Hc)).
      rewrite (alignment_8 Hcfg).
      destruct l as [| [b t] l'].
      - cbn [head_addr]. rewrite Z.eqb_refl. apply andb_false_r.
      - apply Forall_cons_iff in Hall. destruct Hall as [Ht _]. cbn [snd] in Ht.
        destruct Hc as (_ & Hok & _). apply (node_ok_facts Hcfg) in Hok.
        cbn [fst snd] in Hok. destruct (Z.eqb_spec req 8); [lia | reflexivity]. }
    rewrite Hcond. unfold get_next_offset. rewrite Hfn.
    rewrite (addr_of_offset Hcfg) by (apply (chain_head_range Hcfg _ _ Hc)).
    rewrite (slow_walk_fail Hcfg st req l first_p first_p fuel Hrl Hc Hall)
      by (apply Hlen; [layout Hcfg; lia | exact Hfuel]).
    layout Hcfg.
    destruct (limit_grow_spec Hcfg fuel' (jmem_heap_allocated_size st)
                (jmem_heap_limit st)) as (lim & E & H1 & H2 & H3); try lia.
    { pose proof (fuel_mul fuel 0 Hfuel). subst fuel'. lia. }
    subst fuel. rewrite E. exists lim. repeat split; lia.
  - right. exists l1, a, s, l2.
    destruct (prev_split l1) as (pre & pa & ps & Epre & Epa).
    assert (E : (first_p, 0) :: l = pre ++ (pa, ps) :: (a, s) :: l2).
    { rewrite El. change ((first_p, 0) :: l1 ++ (a, s) :: l2)
        with (((first_p, 0) :: l1) ++ (a, s) :: l2).
      rewrite Epre, <- app_assoc. reflexivity. }
    destruct (suffix_facts Hcfg _ _ _ _ _ _ _ _ Hc Hr E)
      as (Hpn & Hpsz & Han & Hasz & Hna & Hp1 & Hp2 & Hp3 & Ha1 & Ha2 & Hs1 & Hs2 & Ha3).
    assert (Hsl : s <= sum_sizes l).
    { rewrite El, sum_sizes_app, sum_sizes_cons. cbn [snd].
      rewrite El in Hc. apply chain_app in Hc. destruct Hc as [Hc1 Hc2].
      destruct Hc2 as (_ & _ & Hc2).
      pose proof (chain_sum Hcfg _ _ Hc1). pose proof (chain_sum Hcfg _ _ Hc2). lia. }
    (* the state after the walk *)
    assert (Hwalk : exists m' skip',
      (if (req =? JMEM_ALIGNMENT)
          && negb (get_next_offset (heap_mem st) first_p
                   =? JMEM_HEAP_GET_OFFSET_FROM_ADDR JMEM_HEAP_END_OF_LIST)
       then Some (alloc_fast_path st)
       else alloc_slow_path fuel req st first_p
              (JMEM_HEAP_GET_ADDR_FROM_OFFSET (get_next_offset (heap_mem st) first_p)))
      = Some (a, mkHeap m' (to_size_t (jmem_heap_allocated_size st + req))
                        (jmem_heap_limit st) skip')
      /\ carved (heap_mem st) m' pa a s req
      /\ ((req <> 8 /\ skip' = pa)
          \/ (req = 8 /\ l1 = [] /\ skip' = (if a =? jmem_heap_list_skip_p st
                                  then JMEM_HEAP_GET_ADDR_FROM_OFFSET (m' first_p)
                                  else jmem_heap_list_skip_p st)))).
    { unfold get_next_offset. rewrite Hfn.
      rewrite (offset_eol_iff Hcfg) by (apply (chain_head_range Hcfg _ _ Hc)).
      rewrite (addr_of_offset Hcfg) by (apply (chain_head_range Hcfg _ _ Hc)).
      rewrite (alignment_8 Hcfg).
      assert (Hhd : (head_addr l JMEM_HEAP_END_OF_LIST =? JMEM_HEAP_END_OF_LIST) = false).
      { rewrite El. destruct l1 as [| [b t] l1']; cbn [app head_addr fst].
        - layout Hcfg. apply Z.eqb_neq. lia.
        - rewrite El in Hc. destruct Hc as (_ & Hok & _).
          apply (node_ok_facts Hcfg) in Hok. cbn [fst] in Hok.
          layout Hcfg. apply Z.eqb_neq. lia. }
      rewrite Hhd. cbn [negb]. rewrite andb_true_r.
      destruct (Z.eqb_spec req 8) as [E8 | Hne8].
      - (* fast path: the first region is the fit *)
        assert (El1 : l1 = []).
        { destruct l1 as [| [b t] l1']; [reflexivity |].
          apply Forall_cons_iff in Hall. destruct Hall as [Ht _]. cbn [snd] in Ht.
          rewrite El in Hc. destruct Hc as (_ & Hok & _).
          apply (node_ok_facts Hcfg) in Hok. cbn [fst snd] in Hok. lia. }
        subst l1. cbn [app] in El. subst l.
        destruct (fast_path_carved Hcfg st a s l2 Hc Hr) as (m' & Ef & Hcv).
        cbn [map last] in Epa. subst pa.
        exists m'. eexists. rewrite Ef, E8. split; [reflexivity |].
        split; [exact Hcv |]. right. split; [reflexivity |]. split; reflexivity.
      - rewrite El.
        rewrite El in Hrl, Hc.
        rewrite (slow_walk_found Hcfg st req l1 a s l2 first_p first_p fuel Hrl Hc Hall Hs).
        + rewrite <- Epa. eexists. eexists. split; [reflexivity |].
          split; [| left; split; [exact Hne8 | reflexivity]].
          layout Hcfg. apply (split_region_carved Hcfg); try lia.
        + rewrite <- El in Hc. specialize (Hlen ltac:(layout Hcfg; lia) Hfuel).
          rewrite El, length_app in Hlen. simpl in Hlen. lia. }
    destruct Hwalk as (m' & skip' & Ewalk & Hcv & Hsk).
    rewrite Ewalk. cbn [jmem_heap_allocated_size jmem_heap_limit].
    destruct (carve_wf Hcfg l pre pa ps a s l2 (heap_mem st) m' req Hc Hr E)
      as (l' & R1 & R2 & R3 & R4); auto; try lia.
    assert (El' : l' = l1 ++ carve_nodes a s req ++ l2).
    { change (pre ++ (pa, ps) :: carve_nodes a s req ++ l2)
        with (pre ++ [(pa, ps)] ++ carve_nodes a s req ++ l2) in R4.
      rewrite app_assoc, <- Epre in R4. cbn [app] in R4. congruence. }
    layout Hcfg.
    assert (Hal : to_size_t (jmem_heap_allocated_size st + req)
                  = jmem_heap_allocated_size st + req).
    { apply to_size_t_small32. lia. }
    rewrite Hal.
    destruct (limit_grow_spec Hcfg fuel' (jmem_heap_allocated_size st + req)
                (jmem_heap_limit st)) as (lim & Eg & H1 & H2 & H3); try lia.
    { pose proof (fuel_mul fuel req Hfuel). subst fuel'. lia. }
    subst fuel. rewrite Eg.
    eexists. split; [exact El |]. split; [exact Hall |]. split; [exact Hs |].
    split; [reflexivity |].
    cbn [set_limit heap_mem jmem_heap_allocated_size jmem_heap_limit jmem_heap_list_skip_p].
    rewrite <- Epa, <- El'.
    split; [exact Hcv |]. split; [exact R1 |]. split; [exact R2 |].
    split; [reflexivity |]. split; [| split; [lia | split; [lia | split]]].
    2: { intros Hne. destruct Hsk as [[_ ->] | (E8 & _)]; [reflexivity | lia]. }
    2: { intros E8. destruct Hsk as [[Hne _] | (_ & -> & ->)]; [lia |].
         split; [reflexivity |]. cbn [app] in El'. rewrite <- El'.
         destruct (Z.eqb_spec a (jmem_heap_list_skip_p st)) as [Ea | Hna']; [| reflexivity].
         pose proof R1 as R1'. cbn [lrep fst] in R1'. destruct R1' as (Hn' & _).
         unfold get_next_offset in Hn'. rewrite Hn'.
         apply (addr_of_offset Hcfg). apply (chain_head_range Hcfg _ _ R2). }
    destruct Hsk as [[_ ->] | (_ & -> & ->)].
    + apply skip_ok_full. unfold first_p. rewrite R4, map_app. apply in_or_app.
      right. left. reflexivity.
    + cbn [app] in *. subst l.
      destruct (Z.eqb_spec a (jmem_heap_list_skip_p st)) as [Ea | Hna'].
      * pose proof R1 as R1'. cbn [lrep fst] in R1'. destruct R1' as (Hn' & _).
        unfold get_next_offset in Hn'. unfold first_p. rewrite Hn'.
        rewrite (addr_of_offset Hcfg) by (apply (chain_head_range Hcfg _ _ R2)).
        destruct l' as [| x l'']; cbn [head_addr].
        -- right. right. split; reflexivity.
        -- right. left. left. reflexivity.
      * destruct Hskip as [Hk | [Hk | [_ Hk]]]; [left; exact Hk | | discriminate].
        cbn [map fst] in Hk. destruct Hk as [Hk | Hk]; [congruence |].
        right. left. rewrite El', map_app. apply in_or_app. right. exact Hk.
Qed.

(** The internal allocation on a well-formed heap: it fails exactly when
    no region is large enough, and otherwise carves the first one that is. *)
Lemma alloc_internal_spec fuel size st l :
  lrep (heap_mem st) ((first_p, 0) :: l) JMEM_HEAP_END_OF_LIST ->
  chain first_p l ->
  jmem_heap_allocated_size st + sum_sizes l = JMEM_HEAP_AREA_SIZE ->
  skip_ok (jmem_heap_list_skip_p st) l ->
  jmem_heap_allocated_size st <= jmem_heap_limit st
    <= jmem_heap_allocated_size st + CONFIG_MEM_HEAP_DESIRED_LIMIT ->
  fuel_ok fuel ->
  (Forall (fun n => snd n < align_size size) l
   /\ exists lim,
       jmem_heap_alloc_block_internal fuel size st = Some (NULL, set_limit st lim)
       /\ jmem_heap_limit st <= lim
       /\ jmem_heap_allocated_size st <= lim
          <= jmem_heap_allocated_size st + CONFIG_MEM_HEAP_DESIRED_LIMIT)
  \/ (exists l1 a s l2 st',
        l = l1 ++ (a, s) :: l2
        /\ Forall (fun n => snd n < align_size size) l1
        /\ align_size size <= s
        /\ jmem_heap_alloc_block_internal fuel size st = Some (a, st')
        /\ carved (heap_mem st) (heap_mem st') (last (map fst l1) first_p) a s
                  (align_size size)
        /\ lrep (heap_mem st')
                ((first_p, 0) :: l1 ++ carve_nodes a s (align_size size) ++ l2)
                JMEM_HEAP_END_OF_LIST
        /\ chain first_p (l1 ++ carve_nodes a s (align_size size) ++ l2)
        /\ jmem_heap_allocated_size st'
           = jmem_heap_allocated_size st + align_size size
        /\ skip_ok (jmem_heap_list_skip_p st')
                   (l1 ++ carve_nodes a s (align_size size) ++ l2)
        /\ jmem_heap_allocated_size st' < jmem_heap_limit st'
           <= jmem_heap_allocated_size st' + CONFIG_MEM_HEAP_DESIRED_LIMIT
        /\ jmem_heap_limit st <= jmem_heap_limit st'
        /\ (align_size size <> JMEM_ALIGNMENT ->
            jmem_heap_list_skip_p st' = last (map fst l1) first_p)).
Proof.
  intros Hr Hc Hsum Hskip Hlim Hfuel.
  destruct (alloc_internal_full fuel size st l Hr Hc Hsum Hskip Hlim Hfuel)
    as [H | (l1 & a & s & l2 & st' & H1 & H2 & H3 & H4 & H5 & H6 & H7 & H8 & H9
             & H10 & H11 & H12 & _)].
  - left. exact H.
  - right. exists l1, a, s, l2, st'. auto 15.
Qed.

End AllocInternal.

(** Evaluate [join_next] on the cases of [free_link]. *)
Ltac shape_tac post nx :=
  try (destruct post as [| [? ?] ?]; unfold nx in *; cbn [head_addr fst snd] in * );
  repeat (cbn [join_next fst snd];
          match goal with
          | |- context [Z.eqb ?a ?b] => destruct (Z.eqb_spec a b); try lia
          end);
  cbn [join_next fst snd];
  try reflexivity; try (f_equal; f_equal; lia).

Section Free.
Context {cfg : Config}.
Hypothesis Hcfg : config_ok.

Lemma chain_rebase e e' l :
  chain e l -> e' < head_addr l JMEM_HEAP_END_OF_LIST -> chain e' l.
Proof. destruct l as [| n l]; cbn [chain head_addr]; intuition. Qed.

Lemma chain_head_le e l n :
  chain e l -> In n l -> head_addr l JMEM_HEAP_END_OF_LIST <= fst n.
Proof.
  destruct l as [| x l]; [intros _ [] |].
  cbn [chain head_addr]. intros (_ & Hok & Hc) [-> | Hin]; [lia |].
  destruct (chain_In Hcfg _ _ _ Hc Hin) as [H _].
  apply (node_ok_facts Hcfg) in Hok. lia.
Qed.

(** The last node below [p] in a list that starts below [p]. *)
Lemma find_split (l : list (Z * Z)) x p :
  fst x < p -> p < JMEM_HEAP_END_OF_LIST ->
  exists pre q post,
    x :: l = pre ++ q :: post
    /\ (forall n, In n (pre ++ [q]) -> fst n < p)
    /\ p <= head_addr post JMEM_HEAP_END_OF_LIST.
Proof.
  revert x. induction l as [| y l IH]; intros x Hx Hp.
  - exists [], x, []. cbn [app head_addr]. repeat split; [| lia].
    intros n [<- | []]. exact Hx.
  - destruct (Z.ltb_spec (fst y) p) as [Hy | Hy].
    + destruct (IH y Hy Hp) as (pre & q & post & E & Hall & Hpost).
      exists (x :: pre), q, post. rewrite E. repeat split; auto.
      intros n [<- | Hn]; [exact Hx | apply Hall; exact Hn].
    + exists [], x, (y :: l). cbn [app head_addr]. repeat split; auto.
      intros n [<- | []]. exact Hx.
Qed.

(** The walk of [jmem_heap_free_block] stops at the last node below the block. *)
Lemma free_walk m p post mid x e fuel :
  lrep m ((x :: mid) ++ post) JMEM_HEAP_END_OF_LIST ->
  chain e (mid ++ post) ->
  (forall n, In n mid -> fst n < p) ->
  area <= p < JMEM_HEAP_END_OF_LIST ->
  p <= head_addr post JMEM_HEAP_END_OF_LIST ->
  (length mid < fuel)%nat ->
  free_find_prev fuel m (fst x) (JMEM_HEAP_GET_OFFSET_FROM_ADDR p)
  = Some (fst (last mid x)).
Proof.
  revert x e fuel. induction mid as [| y mid IH]; intros x e fuel Hr Hc Hall Hp Hpost Hf;
    (destruct fuel as [| fuel]; [simpl in Hf; lia |]).
  - cbn [app lrep] in Hr. destruct Hr as (Hn & _ & _).
    cbn [app] in Hc. pose proof (chain_head_range Hcfg _ _ Hc) as Hh.
    cbn [free_find_prev last].
    assert (Hcmp : (get_next_offset m (fst x) <? JMEM_HEAP_GET_OFFSET_FROM_ADDR p) = false).
    { rewrite Hn. layout Hcfg. rewrite !(offset_val Hcfg) by lia. apply Z.ltb_ge. lia. }
    rewrite Hcmp. reflexivity.
  - cbn [app lrep head_addr] in Hr. destruct Hr as (Hn & _ & Hr).
    cbn [app chain] in Hc. destruct Hc as (_ & Hok & Hc).
    pose proof (node_ok_facts Hcfg _ Hok) as Hyf.
    pose proof (Hall y (or_introl eq_refl)) as Hy.
    cbn [free_find_prev].
    assert (Hcmp : (get_next_offset m (fst x) <? JMEM_HEAP_GET_OFFSET_FROM_ADDR p) = true).
    { rewrite Hn. layout Hcfg. rewrite !(offset_val Hcfg) by lia. apply Z.ltb_lt. lia. }
    rewrite Hcmp, Hn, (addr_of_offset Hcfg) by (layout Hcfg; lia).
    rewrite last_cons.
    apply (IH y (fst y + snd y)); auto.
    + intros n Hn'. apply Hall. right. exact Hn'.
    + simpl in Hf. lia.
Qed.

(** The two updates put the block into the list, merged with the
    neighbours it touches, and write nothing but the header words of the
    block and of the node before it. *)
Lemma free_link_full m skip pa ps p asz post :
  lrep m ((pa, ps) :: post) JMEM_HEAP_END_OF_LIST ->
  chain (pa + ps) post ->
  heap_base <= pa -> pa + 8 <= p -> pa + ps <= p ->
  (pa = first_p -> ps = 0) -> (pa <> first_p -> node_ok (pa, ps)) ->
  heap_base + 8 <= p -> p mod 8 = 0 -> 8 <= asz -> asz mod 8 = 0 ->
  p + asz <= heap_base + JMEM_HEAP_SIZE ->
  p + asz <= head_addr post JMEM_HEAP_END_OF_LIST ->
  let m2 := fst (free_link m skip pa p (head_addr post JMEM_HEAP_END_OF_LIST) asz
                           (JMEM_HEAP_GET_OFFSET_FROM_ADDR p)) in
  exists ps' post',
    lrep m2 ((pa, ps') :: post') JMEM_HEAP_END_OF_LIST
    /\ (forall x, x < pa -> m2 x = m x)
    /\ (pa = first_p -> ps' = 0)
    /\ (pa <> first_p -> node_ok (pa, ps'))
    /\ chain (pa + ps') post'
    /\ ps' + sum_sizes post' = ps + sum_sizes post + asz
    /\ (exists n, In n ((pa, ps') :: post') /\ fst n <= p /\ p + asz <= fst n + snd n)
    /\ (pa, ps') :: post' = join_next (pa, ps) (join_next (p, asz) post)
    /\ (forall x, x <> pa -> x <> pa + 4 -> x <> p -> x <> p + 4 -> m2 x = m x).
Proof.
  intros Hr Hc Hpa0 Hpa8 Hpae Hsent Hnode Hp0 Hp8 Hasz Hasz8 Hpend Hnext.
  cbn [lrep fst snd] in Hr. destruct Hr as (Hpn & Hpsz & Hrpost).
  unfold get_next_offset, get_size in Hpn, Hpsz.
  pose proof (chain_head_range Hcfg _ _ Hc) as Hnxr.
  set (nx := head_addr post JMEM_HEAP_END_OF_LIST) in *.
  layout Hcfg.
  assert (Hpr : area <= p < 2 ^ 32) by lia.
  pose proof (offset_range Hcfg _ Hpr) as Hop.
  pose proof (offset_range Hcfg _ Hnxr) as Honx.
  assert (Hpostabove : forall n, In n post -> nx <= fst n).
  { intros n Hn. apply (chain_head_le _ _ _ Hc Hn). }
  assert (Hps0 : 0 <= ps).
  { destruct (Z.eq_dec pa heap_base) as [E | E]; [rewrite (Hsent E); lia |].
    apply Hnode in E. apply (node_ok_facts Hcfg) in E. cbn [snd] in E. lia. }
  unfold free_link, jmem_heap_get_region_end, get_size, get_next_offset,
    set_size, set_next_offset.
  rewrite Hpsz.
  destruct (Z.eqb_spec (pa + ps) p) as [Eprev | Nprev].
  - (* merged with the region before *)
    assert (Hne : pa <> heap_base).
    { intros E. rewrite (Hsent E) in Eprev. lia. }
    pose proof (node_ok_facts Hcfg _ (Hnode Hne)) as Hpaf. cbn [fst snd] in Hpaf.
    rewrite (to_uint32_small asz) by lia.
    rewrite store_same. rewrite (to_uint32_small (ps + asz)) by lia.
    destruct (Z.eqb_spec (pa + (ps + asz)) nx) as [Enext | Nnext].
    + (* and with the region after *)
      destruct post as [| [na ns] post']; [unfold nx in Enext; cbn in Enext; lia |].
      cbn [head_addr fst] in nx. subst nx.
      cbn [lrep fst snd] in Hrpost. destruct Hrpost as (Hnn & Hns & Hrpost').
      unfold get_next_offset, get_size in Hnn, Hns.
      cbn [chain fst snd] in Hc. destruct Hc as (_ & Hnok & Hc').
      pose proof (node_ok_facts Hcfg _ Hnok) as Hnaf. cbn [fst snd] in Hnaf.
      pose proof (chain_head_range Hcfg _ _ Hc') as Hnnr.
      pose proof (offset_range Hcfg _ Hnnr) as Honn.
      cbn [fst]. exists (ps + asz + ns), post'.
      repeat (rewrite store_other by lia). rewrite Hns.
      split; [| split; [| split; [| split; [| split; [| split; [| split; [| split]]]]]]].
      * cbn [lrep fst snd]. unfold get_next_offset, get_size.
        split; [| split].
        -- rewrite store_same, Hnn. apply to_uint32_small. lia.
        -- rewrite store_other by lia. rewrite store_same. apply to_uint32_small. lia.
        -- apply (lrep_frame_above m _ post' _ (pa + 4)); auto.
           ++ intros x Hx. rewrite !store_other by lia. reflexivity.
           ++ intros n Hn. destruct (chain_In Hcfg _ _ _ Hc' Hn). lia.
      * intros x Hx. rewrite !store_other by lia. reflexivity.
      * intros E. contradiction.
      * intros _. unfold node_ok. cbn [fst snd]. rewrite L_A8, L_area, L_aend. lia.
      * replace (pa + (ps + asz + ns)) with (na + ns) by lia. exact Hc'.
      * rewrite sum_sizes_cons. cbn [snd]. lia.
      * exists (pa, ps + asz + ns). cbn [fst snd]. split; [left; reflexivity | lia].
      * shape_tac post nx.
      * intros x X1 X2 X3 X4. rewrite !store_other by lia. reflexivity.
    + cbn [fst]. exists (ps + asz), post.
      split; [| split; [| split; [| split; [| split; [| split; [| split; [| split]]]]]]].
      * cbn [lrep fst snd]. unfold get_next_offset, get_size. fold nx.
        split; [| split].
        -- rewrite store_same. apply to_uint32_small. lia.
        -- rewrite store_other by lia. rewrite store_same. apply to_uint32_small. lia.
        -- apply (lrep_frame_above m _ post _ (pa + 4)); auto.
           ++ intros x Hx. rewrite !store_other by lia. reflexivity.
           ++ intros n Hn. specialize (Hpostabove n Hn). lia.
      * intros x Hx. rewrite !store_other by lia. reflexivity.
      * intros E. contradiction.
      * intros _. unfold node_ok. cbn [fst snd]. rewrite L_A8, L_area, L_aend. lia.
      * apply (chain_rebase (pa + ps)); [exact Hc | fold nx; lia].
      * lia.
      * exists (pa, ps + asz). cbn [fst snd]. split; [left; reflexivity | lia].
      * shape_tac post nx.
      * intros x X1 X2 X3 X4. rewrite !store_other by lia. reflexivity.
  - (* a node of its own after [pa] *)
    rewrite store_other by lia. rewrite store_same.
    rewrite (to_uint32_small asz) by lia.
    destruct (Z.eqb_spec (p + asz) nx) as [Enext | Nnext].
    + destruct post as [| [na ns] post']; [unfold nx in Enext; cbn in Enext; lia |].
      cbn [head_addr fst] in nx. subst nx.
      cbn [lrep fst snd] in Hrpost. destruct Hrpost as (Hnn & Hns & Hrpost').
      unfold get_next_offset, get_size in Hnn, Hns.
      cbn [chain fst snd] in Hc. destruct Hc as (_ & Hnok & Hc').
      pose proof (node_ok_facts Hcfg _ Hnok) as Hnaf. cbn [fst snd] in Hnaf.
      pose proof (chain_head_range Hcfg _ _ Hc') as Hnnr.
      pose proof (offset_range Hcfg _ Hnnr) as Honn.
      cbn [fst]. exists ps, ((p, asz + ns) :: post').
      repeat (rewrite store_other by lia). rewrite Hns.
      split; [| split; [| split; [| split; [| split; [| split; [| split; [| split]]]]]]].
      * cbn [lrep fst snd head_addr]. unfold get_next_offset, get_size.
        split; [| split; [| split; [| split]]].
        -- rewrite !store_other by lia. rewrite store_same. apply to_uint32_small. lia.
        -- rewrite !store_other by lia. exact Hpsz.
        -- rewrite store_same, Hnn. apply to_uint32_small. lia.
        -- rewrite store_other by lia. rewrite store_same. apply to_uint32_small. lia.
        -- apply (lrep_frame_above m _ post' _ (p + 4)); auto.
           ++ intros x Hx. rewrite !store_other by lia. reflexivity.
           ++ intros n Hn. destruct (chain_In Hcfg _ _ _ Hc' Hn). lia.
      * intros x Hx. rewrite !store_other by lia. reflexivity.
      * exact Hsent.
      * exact Hnode.
      * cbn [chain fst snd]. split; [lia | split].
        -- unfold node_ok. cbn [fst snd]. rewrite L_A8, L_area, L_aend. lia.
        -- replace (p + (asz + ns)) with (na + ns) by lia. exact Hc'.
      * rewrite !sum_sizes_cons. cbn [snd]. lia.
      * exists (p, asz + ns). cbn [fst snd]. split; [right; left; reflexivity | lia].
      * shape_tac post nx.
      * intros x X1 X2 X3 X4. rewrite !store_other by lia. reflexivity.
    + cbn [fst]. exists ps, ((p, asz) :: post).
      split; [| split; [| split; [| split; [| split; [| split; [| split; [| split]]]]]]].
      * cbn [lrep fst snd head_addr]. unfold get_next_offset, get_size. fold nx.
        split; [| split; [| split; [| split]]].
        -- rewrite !store_other by lia. rewrite store_same. apply to_uint32_small. lia.
        -- rewrite !store_other by lia. exact Hpsz.
        -- rewrite store_same. apply to_uint32_small. lia.
        -- rewrite !store_other by lia. rewrite store_same. apply to_uint32_small. lia.
        -- apply (lrep_frame_above m _ post _ (p + 4)); auto.
           ++ intros x Hx. rewrite !store_other by lia. reflexivity.
           ++ intros n Hn. specialize (Hpostabove n Hn). lia.
      * intros x Hx. rewrite !store_other by lia. reflexivity.
      * exact Hsent.
      * exact Hnode.
      * cbn [chain fst snd]. split; [lia | split].
        -- unfold node_ok. cbn [fst snd]. rewrite L_A8, L_area, L_aend. lia.
        -- apply (chain_rebase (pa + ps)); [exact Hc | fold nx; lia].
      * rewrite !sum_sizes_cons. cbn [snd]. lia.
      * exists (p, asz). cbn [fst snd]. split; [right; left; reflexivity | lia].
      * shape_tac post nx.
      * intros x X1 X2 X3 X4. rewrite !store_other by lia. reflexivity.
Qed.

Lemma free_link_spec m skip pa ps p asz post :
  lrep m ((pa, ps) :: post) JMEM_HEAP_END_OF_LIST ->
  chain (pa + ps) post ->
  heap_base <= pa -> pa + 8 <= p -> pa + ps <= p ->
  (pa = first_p -> ps = 0) -> (pa <> first_p -> node_ok (pa, ps)) ->
  heap_base + 8 <= p -> p mod 8 = 0 -> 8 <= asz -> asz mod 8 = 0 ->
  p + asz <= heap_base + JMEM_HEAP_SIZE ->
  p + asz <= head_addr post JMEM_HEAP_END_OF_LIST ->
  let m2 := fst (free_link m skip pa p (head_addr post JMEM_HEAP_END_OF_LIST) asz
                           (JMEM_HEAP_GET_OFFSET_FROM_ADDR p)) in
  exists ps' post',
    lrep m2 ((pa, ps') :: post') JMEM_HEAP_END_OF_LIST
    /\ (forall x, x < pa -> m2 x = m x)
    /\ (pa = first_p -> ps' = 0)
    /\ (pa <> first_p -> node_ok (pa, ps'))
    /\ chain (pa + ps') post'
    /\ ps' + sum_sizes post' = ps + sum_sizes post + asz
    /\ (exists n, In n ((pa, ps') :: post') /\ fst n <= p /\ p + asz <= fst n + snd n).
Proof.
  intros Hr Hc Hpa0 Hpa8 Hpae Hsent Hnode Hp0 Hp8 Hasz Hasz8 Hpend Hnext m2.
  destruct (free_link_full m skip pa ps p asz post Hr Hc Hpa0 Hpa8 Hpae Hsent Hnode
              Hp0 Hp8 Hasz Hasz8 Hpend Hnext)
    as (ps' & post' & H1 & H2 & H3 & H4 & H5 & H6 & H7 & _).
  exists ps', post'. auto 10.
Qed.

End Free.

Lemma last_app_cons {A} (l1 : list A) x l2 d : last (l1 ++ x :: l2) d = last l2 x.
Proof.
  induction l1 as [| y l1 IH]; cbn [app].
  - apply last_cons.
  - rewrite last_cons. destruct l1; cbn [app] in *; rewrite last_cons in *; auto.
Qed.

Section FreeSpec.
Context {cfg : Config}.
Hypothesis Hcfg : config_ok.

(** What [block_in_use] says, in [Prop]. *)
Lemma block_in_use_facts fuel st p size l :
  free_list fuel st = Some l ->
  block_in_use fuel st p size = true ->
  0 < size <= JMEM_HEAP_SIZE - 8 /\ p mod 8 = 0 /\ heap_base + 8 <= p
  /\ p + align_size size <= heap_base + JMEM_HEAP_SIZE
  /\ Forall (fun n => fst n + snd n <= p \/ p + align_size size <= fst n) l.
Proof.
  intros El H. unfold block_in_use in H. rewrite El in H. layout Hcfg.
  rewrite L_area, L_aend, L_asz in H.
  apply andb_true_iff in H. destruct H as [H Hall].
  apply andb_true_iff in H. destruct H as [H Hend].
  apply andb_true_iff in H. destruct H as [H Hge].
  apply andb_true_iff in H. destruct H as [H Hmod].
  apply andb_true_iff in H. destruct H as [Hpos Hle].
  apply Z.ltb_lt in Hpos. apply Z.leb_le in Hle, Hge, Hend. apply Z.eqb_eq in Hmod.
  repeat split; try lia.
  apply Forall_forall. intros n Hn.
  rewrite forallb_forall in Hall. specialize (Hall n Hn).
  apply orb_true_iff in Hall. rewrite !Z.leb_le in Hall. exact Hall.
Qed.

Lemma block_in_use_intro fuel st p size l :
  free_list fuel st = Some l ->
  0 < size <= JMEM_HEAP_SIZE - 8 -> p mod 8 = 0 -> heap_base + 8 <= p ->
  p + align_size size <= heap_base + JMEM_HEAP_SIZE ->
  Forall (fun n => fst n + snd n <= p \/ p + align_size size <= fst n) l ->
  block_in_use fuel st p size = true.
Proof.
  intros El H1 H2 H3 H4 H5. unfold block_in_use. rewrite El. layout Hcfg.
  rewrite L_area, L_aend, L_asz.
  repeat (apply andb_true_iff; split);
    try (apply Z.ltb_lt; lia); try (apply Z.leb_le; lia); try (apply Z.eqb_eq; lia).
  apply forallb_forall. intros n Hn. rewrite Forall_forall in H5.
  specialize (H5 n Hn). apply orb_true_iff. rewrite !Z.leb_le. exact H5.
Qed.

Lemma fuel_mul_shrink fuel x :
  fuel_ok fuel -> 0 <= x <= JMEM_HEAP_SIZE - 8 ->
  x + CONFIG_MEM_HEAP_DESIRED_LIMIT < Z.of_nat fuel * CONFIG_MEM_HEAP_DESIRED_LIMIT.
Proof.
  unfold fuel_ok. intros Hf Hx. layout Hcfg.
  assert (x + 8 <= Z.of_nat fuel) by lia. nia.
Qed.

(** [join_next] keeps the start of its region. *)
Lemma join_next_head n l : exists s r, join_next n l = (fst n, s) :: r.
Proof.
  destruct l as [| x l]; cbn [join_next].
  - exists (snd n), []. destruct n; reflexivity.
  - destruct (fst n + snd n =? fst x); [eauto |].
    exists (snd n), (x :: l). destruct n; reflexivity.
Qed.

Lemma join_next_far n l :
  (forall x r, l = x :: r -> fst n + snd n <> fst x) -> join_next n l = n :: l.
Proof.
  destruct l as [| x l]; cbn [join_next]; [reflexivity |].
  intros H. specialize (H x l eq_refl).
  destruct (Z.eqb_spec (fst n + snd n) (fst x)); [contradiction | reflexivity].
Qed.

Lemma free_insert_above p asz l :
  p <= head_addr l JMEM_HEAP_END_OF_LIST ->
  free_insert p asz l = join_next (p, asz) l.
Proof.
  destruct l as [| x l]; cbn [free_insert head_addr]; [reflexivity |].
  intros H. destruct (Z.ltb_spec (fst x) p); [lia | reflexivity].
Qed.

(** [free_insert] on a list split around the block. *)
Lemma free_insert_split e pre q post p asz :
  chain e (pre ++ q :: post) ->
  (forall n, In n (pre ++ [q]) -> fst n < p) ->
  p <= head_addr post JMEM_HEAP_END_OF_LIST ->
  free_insert p asz (pre ++ q :: post) = pre ++ join_next q (join_next (p, asz) post).
Proof.
  revert e. induction pre as [| n pre IH]; intros e Hc Hb Hp; cbn [app free_insert].
  - pose proof (Hb q (or_introl eq_refl)) as Hq.
    destruct (Z.ltb_spec (fst q) p); [| lia].
    rewrite (free_insert_above p asz post Hp). reflexivity.
  - pose proof (Hb n (or_introl eq_refl)) as Hn.
    destruct (Z.ltb_spec (fst n) p); [| lia].
    cbn [app chain] in Hc. destruct Hc as (_ & Hnok & Hc).
    rewrite (IH (fst n + snd n) Hc); [| intros x Hx; apply Hb; right; exact Hx | exact Hp].
    apply join_next_far. intros x r Ex.
    destruct pre as [| y pre]; cbn [app] in *.
    + destruct (join_next_head q (join_next (p, asz) post)) as (s' & r' & Ej).
      rewrite Ej in Ex. injection Ex as <- _. cbn [fst]. destruct Hc as (Hlt & _). lia.
    + injection Ex as <- _. destruct Hc as (Hlt & _). lia.
Qed.

(** Freeing a block in use on a well-formed heap: the list after the
    call, and the words the call leaves as they were. *)
Lemma free_block_full fuel p size st l :
  lrep (heap_mem st) ((first_p, 0) :: l) JMEM_HEAP_END_OF_LIST ->
  chain first_p l ->
  jmem_heap_allocated_size st + sum_sizes l = JMEM_HEAP_AREA_SIZE ->
  skip_ok (jmem_heap_list_skip_p st) l ->
  jmem_heap_allocated_size st <= jmem_heap_limit st
    <= jmem_heap_allocated_size st + CONFIG_MEM_HEAP_DESIRED_LIMIT ->
  fuel_ok fuel ->
  block_in_use fuel st p size = true ->
  exists st' l',
    jmem_heap_free_block fuel p size st = Some st'
    /\ lrep (heap_mem st') ((first_p, 0) :: l') JMEM_HEAP_END_OF_LIST
    /\ chain first_p l'
    /\ sum_sizes l' = sum_sizes l + align_size size
    /\ jmem_heap_allocated_size st' = jmem_heap_allocated_size st - align_size size
    /\ In (jmem_heap_list_skip_p st') (map fst ((first_p, 0) :: l'))
    /\ jmem_heap_allocated_size st' <= jmem_heap_limit st'
       <= jmem_heap_allocated_size st' + CONFIG_MEM_HEAP_DESIRED_LIMIT
    /\ jmem_heap_limit st' <= jmem_heap_limit st
    /\ (exists n, In n l' /\ fst n <= p /\ p + align_size size <= fst n + snd n)
    /\ l' = free_insert p (align_size size) l
    /\ (exists pre pa ps post,
          (first_p, 0) :: l = pre ++ (pa, ps) :: post
          /\ (forall n, In n (pre ++ [(pa, ps)]) -> fst n < p)
          /\ p <= head_addr post JMEM_HEAP_END_OF_LIST
          /\ jmem_heap_list_skip_p st' = pa
          /\ forall x, x <> pa -> x <> pa + 4 -> x <> p -> x <> p + 4 ->
                       heap_mem st' x = heap_mem st x).
Proof.
  intros Hr Hc Hsum Hskip Hlim Hfuel Huse.
  pose proof (free_list_of_lrep Hcfg st l fuel Hr Hc Hfuel) as Efl.
  destruct (block_in_use_facts fuel st p size l Efl Huse)
    as (Hsize & Hp8 & Hp0 & Hpend & Hdisj).
  rewrite Forall_forall in Hdisj.
  assert (Hsz32 : 2 ^ 32 <= 2 ^ ptr_bits) by apply pow_ptr_bits_ge.
  assert (Easz : align_size size = (size + 7) / 8 * 8).
  { apply (align_size_val Hcfg); [lia |]. layout Hcfg. lia. }
  set (asz := align_size size) in *.
  assert (Hasz : 8 <= asz /\ asz mod 8 = 0) by lia.
  destruct Hasz as [Hasz Hasz8].
  assert (Hfp : fst (first_p, 0) < p) by (unfold first_p; cbn [fst]; lia).
  assert (Hpeol : p < JMEM_HEAP_END_OF_LIST) by (layout Hcfg; lia).
  destruct (find_split l (first_p, 0) p Hfp Hpeol)
    as (pre & [pa ps] & post & E & Hbelow & Hpost).
  destruct (split_facts Hcfg _ _ _ _ _ Hc E) as (Hpre & Hcpost & Hcase).
  pose proof Hr as Hr'. rewrite E in Hr'. apply lrep_app in Hr'.
  destruct Hr' as [_ Hrq].
  (* the prev node *)
  assert (Hpa : heap_base <= pa /\ pa + 8 <= p /\ pa + ps <= p
                /\ (pa = first_p -> ps = 0) /\ (pa <> first_p -> node_ok (pa, ps))).
  { pose proof (Hbelow (pa, ps) ltac:(apply in_or_app; right; left; reflexivity)) as Hlt.
    cbn [fst] in Hlt.
    destruct Hcase as [(_ & -> & -> & _) | (l1 & _ & El & Hok & _)].
    - unfold first_p. layout Hcfg.
      split; [lia | split; [lia | split; [lia | split; [reflexivity | congruence]]]].
    - pose proof (node_ok_facts Hcfg _ Hok) as Hf. cbn [fst snd] in Hf.
      assert (Hin : In (pa, ps) l) by (rewrite El; apply in_or_app; right; left; reflexivity).
      specialize (Hdisj _ Hin). cbn [fst snd] in Hdisj.
      unfold first_p. split; [lia | split; [lia | split; [lia | split; [lia | intros _; exact Hok]]]]. }
  destruct Hpa as (Hpa0 & Hpa8 & Hpae & Hsent & Hnode).
  (* the next node *)
  assert (Hnext : p + asz <= head_addr post JMEM_HEAP_END_OF_LIST).
  { destruct post as [| [na ns] post']; cbn [head_addr fst] in *.
    - layout Hcfg. lia.
    - assert (Hin : In (na, ns) l).
      { destruct Hcase as [(_ & _ & _ & <-) | (l1 & _ & -> & _)].
        - left. reflexivity.
        - apply in_or_app. right. right. left. reflexivity. }
      specialize (Hdisj _ Hin). cbn [fst snd] in Hdisj.
      destruct Hcpost as (_ & Hok & _). apply (node_ok_facts Hcfg) in Hok.
      cbn [fst snd] in Hok. lia. }
  (* where the walk starts *)
  set (start := if jmem_heap_list_skip_p st <? p
                then jmem_heap_list_skip_p st else first_p).
  assert (Hstart : In start (map fst (pre ++ [(pa, ps)]))).
  { assert (Hs : In start (map fst ((first_p, 0) :: l)) /\ start < p).
    { unfold start. destruct (Z.ltb_spec (jmem_heap_list_skip_p st) p) as [Hlt | Hge].
      - split; [| exact Hlt].
        destruct (skip_ok_full_inv _ _ Hskip) as [H | [H _]]; [exact H |].
        rewrite H in Hlt. lia.
      - split; [left; reflexivity | exact Hfp]. }
    destruct Hs as [Hs Hlt]. rewrite E in Hs.
    change (pre ++ (pa, ps) :: post) with (pre ++ [(pa, ps)] ++ post) in Hs.
    rewrite app_assoc, map_app in Hs. apply in_app_or in Hs.
    destruct Hs as [Hs | Hs]; [exact Hs |].
    apply in_map_iff in Hs. destruct Hs as (n & En & Hn).
    pose proof (chain_head_le Hcfg _ _ _ Hcpost Hn). lia. }
  apply in_map_iff in Hstart. destruct Hstart as (n & En & Hn).
  apply in_split in Hn. destruct Hn as (l1 & l2 & Esplit).
  assert (Elast : last l2 n = (pa, ps)).
  { rewrite <- (last_app_cons l1 n l2 n), <- Esplit. apply last_last. }
  assert (E2 : (first_p, 0) :: l = l1 ++ n :: (l2 ++ post)).
  { rewrite E. change (pre ++ (pa, ps) :: post) with (pre ++ [(pa, ps)] ++ post).
    rewrite app_assoc, Esplit, <- app_assoc. reflexivity. }
  destruct n as [na0 ns0].
  destruct (split_facts Hcfg _ _ _ _ _ Hc E2) as (_ & Hcmid & _).
  assert (Hwalk : free_find_prev fuel (heap_mem st) start
                    (JMEM_HEAP_GET_OFFSET_FROM_ADDR p) = Some pa).
  { rewrite <- En.
    rewrite (free_walk Hcfg (heap_mem st) p post l2 (na0, ns0) (na0 + ns0) fuel).
    - rewrite Elast. reflexivity.
    - rewrite E2 in Hr. apply lrep_app in Hr. destruct Hr as [_ Hr]. exact Hr.
    - exact Hcmid.
    - intros n' Hn'. apply Hbelow. rewrite Esplit. apply in_or_app. right. right. exact Hn'.
    - layout Hcfg. lia.
    - exact Hpost.
    - pose proof (fuel_enough Hcfg first_p l fuel Hc ltac:(layout Hcfg; lia) Hfuel) as Hlen.
      assert (Hl : length ((first_p, 0) :: l) = length (l1 ++ (na0, ns0) :: l2 ++ post))
        by (rewrite E2; reflexivity).
      rewrite length_app in Hl. cbn [length] in Hl. rewrite length_app in Hl. lia. }
  (* the updates *)
  pose proof Hrq as Hrq'. cbn [lrep fst snd] in Hrq'. destruct Hrq' as (Hpn & _ & _).
  unfold jmem_heap_free_block. fold start. rewrite Hwalk. fold asz.
  rewrite Hpn, (addr_of_offset Hcfg) by (apply (chain_head_range Hcfg _ _ Hcpost)).
  pose proof (free_link_full Hcfg (heap_mem st) (jmem_heap_list_skip_p st) pa ps p asz post
                Hrq Hcpost Hpa0 Hpa8 Hpae Hsent Hnode Hp0 Hp8 Hasz Hasz8 Hpend Hnext)
    as Hlink.
  cbv zeta in Hlink.
  destruct (free_link (heap_mem st) (jmem_heap_list_skip_p st) pa p
              (head_addr post JMEM_HEAP_END_OF_LIST) asz
              (JMEM_HEAP_GET_OFFSET_FROM_ADDR p)) as [m2 skip1].
  cbn [fst] in Hlink.
  destruct Hlink as (ps' & post' & Hr2 & Hag & Hsent' & Hnode' & Hc2 & Hsum2 & Hcont
                     & Hshape & Hframe).
  destruct (rebuild Hcfg l pre pa ps post ps' post' (heap_mem st) m2 Hc E Hr Hag Hr2
              Hsent' Hnode' Hc2) as (l' & R1 & R2 & R3 & R4).
  assert (Hsum' : sum_sizes l' = sum_sizes l + asz) by lia.
  pose proof (chain_sum_area Hcfg _ _ R2) as Hb'.
  pose proof (chain_sum_area Hcfg _ _ Hc) as Hb.
  layout Hcfg.
  assert (Hal : to_size_t (jmem_heap_allocated_size st - asz)
                = jmem_heap_allocated_size st - asz).
  { apply to_size_t_small32. lia. }
  rewrite Hal.
  destruct (limit_shrink_spec Hcfg fuel (jmem_heap_allocated_size st - asz)
              (jmem_heap_limit st)) as (lim & Es & H1 & H2 & H3); try lia.
  { pose proof (fuel_mul_shrink fuel asz Hfuel). lia. }
  rewrite Es. eexists. exists l'. split; [reflexivity |].
  cbn [heap_mem jmem_heap_allocated_size jmem_heap_limit jmem_heap_list_skip_p].
  split; [exact R1 |]. split; [exact R2 |]. split; [exact Hsum' |].
  split; [reflexivity |]. split.
  { unfold first_p in R4. rewrite R4, map_app. apply in_or_app. right. left. reflexivity. }
  split; [lia |]. split; [lia |]. split; [| split].
  - destruct Hcont as (n & Hn & Hn1 & Hn2).
    exists n. split; [| split; [exact Hn1 | exact Hn2]].
    assert (Hin : In n ((heap_base, 0) :: l')).
    { unfold first_p in R4. rewrite R4. apply in_or_app. right. exact Hn. }
    destruct Hin as [<- | Hin]; [cbn [fst snd] in *; lia | exact Hin].
  - rewrite Hshape in R4.
    destruct Hcase as [(-> & -> & -> & ->) | (lb & -> & -> & _)].
    + rewrite (free_insert_above p asz l Hpost).
      destruct (join_next_head (p, asz) l) as (s' & r' & Ej).
      rewrite Ej in R4 |- *. cbn [app join_next fst snd] in R4.
      destruct (Z.eqb_spec (heap_base + 0) p) as [Ep | _]; [lia |].
      injection R4 as ->. reflexivity.
    + cbn [app] in R4. injection R4 as ->.
      symmetry. apply (free_insert_split heap_base); auto.
      intros n Hn. apply Hbelow. right. exact Hn.
  - exists pre, pa, ps, post.
    split; [exact E |]. split; [exact Hbelow |]. split; [exact Hpost |].
    split; [reflexivity | exact Hframe].
Qed.

(** Freeing a block in use on a well-formed heap. *)
Lemma free_block_spec fuel p size st l :
  lrep (heap_mem st) ((first_p, 0) :: l) JMEM_HEAP_END_OF_LIST ->
  chain first_p l ->
  jmem_heap_allocated_size st + sum_sizes l = JMEM_HEAP_AREA_SIZE ->
  skip_ok (jmem_heap_list_skip_p st) l ->
  jmem_heap_allocated_size st <= jmem_heap_limit st
    <= jmem_heap_allocated_size st + CONFIG_MEM_HEAP_DESIRED_LIMIT ->
  fuel_ok fuel ->
  block_in_use fuel st p size = true ->
  exists st' l',
    jmem_heap_free_block fuel p size st = Some st'
    /\ lrep (heap_mem st') ((first_p, 0) :: l') JMEM_HEAP_END_OF_LIST
    /\ chain first_p l'
    /\ sum_sizes l' = sum_sizes l + align_size size
    /\ jmem_heap_allocated_size st' = jmem_heap_allocated_size st - align_size size
    /\ In (jmem_heap_list_skip_p st') (map fst ((first_p, 0) :: l'))
    /\ jmem_heap_allocated_size st' <= jmem_heap_limit st'
       <= jmem_heap_allocated_size st' + CONFIG_MEM_HEAP_DESIRED_LIMIT
    /\ jmem_heap_limit st' <= jmem_heap_limit st
    /\ (exists n, In n l' /\ fst n <= p /\ p + align_size size <= fst n + snd n).
Proof.
  intros Hr Hc Hsum Hskip Hlim Hfuel Huse.
  destruct (free_block_full fuel p size st l Hr Hc Hsum Hskip Hlim Hfuel Huse)
    as (st' & l' & H1 & H2 & H3 & H4 & H5 & H6 & H7 & H8 & H9 & _).
  exists st', l'. auto 12.
Qed.

End FreeSpec.

Section Preservation.
Context {cfg : Config}.
Hypothesis Hcfg : config_ok.

Lemma heap_wf_free_list fuel st :
  heap_wf st -> fuel_ok fuel ->
  exists l,
    free_list fuel st = Some l
    /\ lrep (heap_mem st) ((first_p, 0) :: l) JMEM_HEAP_END_OF_LIST
    /\ chain first_p l
    /\ jmem_heap_allocated_size st + sum_sizes l = JMEM_HEAP_AREA_SIZE
    /\ skip_ok (jmem_heap_list_skip_p st) l
    /\ jmem_heap_allocated_size st <= jmem_heap_limit st
       <= jmem_heap_allocated_size st + CONFIG_MEM_HEAP_DESIRED_LIMIT.
Proof.
  intros (l & Hr & Hc & Hs & Hk & Hl) Hf. exists l.
  split; [apply (free_list_of_lrep Hcfg); auto |]. auto.
Qed.

(** The block carved out of a region overlaps no region that is left. *)
Lemma carved_block_free l1 a s l2 req :
  chain first_p (l1 ++ (a, s) :: l2) -> 0 <= req <= s ->
  Forall (fun n => fst n + snd n <= a \/ a + req <= fst n)
         (l1 ++ carve_nodes a s req ++ l2).
Proof.
  intros Hc Hreq. apply chain_app in Hc. destruct Hc as [Hc1 Hc2].
  cbn [chain fst snd] in Hc2. destruct Hc2 as (Hlt & Hok & Hc2).
  apply Forall_forall. intros n Hn.
  apply in_app_or in Hn. destruct Hn as [Hn | Hn].
  - left. pose proof (chain_In_end Hcfg _ _ _ Hc1 Hn). lia.
  - right. apply in_app_or in Hn. destruct Hn as [Hn | Hn].
    + unfold carve_nodes in Hn. destruct (req <? s); [| contradiction].
      destruct Hn as [<- | []]. cbn [fst]. lia.
    + destruct (chain_In Hcfg _ _ _ Hc2 Hn). lia.
Qed.

(** The outcome of the internal allocation on a well-formed heap. *)
Lemma alloc_internal_wf fuel size st :
  heap_wf st -> fuel_ok fuel ->
  exists p st',
    jmem_heap_alloc_block_internal fuel size st = Some (p, st')
    /\ heap_wf st'
    /\ ((p = NULL /\ st' = set_limit st (jmem_heap_limit st')
         /\ jmem_heap_limit st <= jmem_heap_limit st'
         /\ exists l, free_list fuel st = Some l
                      /\ Forall (fun n => snd n < align_size size) l)
        \/ (p <> NULL
            /\ jmem_heap_allocated_size st'
               = jmem_heap_allocated_size st + align_size size
            /\ jmem_heap_allocated_size st' < jmem_heap_limit st'
            /\ jmem_heap_limit st <= jmem_heap_limit st'
            /\ heap_base + 8 <= p /\ p mod 8 = 0
            /\ p + align_size size <= heap_base + JMEM_HEAP_SIZE
            /\ exists l', free_list fuel st' = Some l'
                          /\ Forall (fun n => fst n + snd n <= p
                                              \/ p + align_size size <= fst n) l')).
Proof.
  intros Hwf Hf.
  destruct (heap_wf_free_list fuel st Hwf Hf) as (l & Efl & Hr & Hc & Hs & Hk & Hl).
  destruct (align_size_facts Hcfg size) as [Hreq0 Hreq8].
  destruct (alloc_internal_spec Hcfg fuel size st l Hr Hc Hs Hk Hl Hf)
    as [(Hall & lim & E & Hl1 & Hl2)
       | (l1 & a & s & l2 & st' & El & Hall & Hsz & E & Hcv & R1 & R2 & Hal & Hsk & Hl1 & Hl2 & _)].
  - exists NULL, (set_limit st lim). split; [exact E |]. split.
    + exists l. cbn [set_limit heap_mem jmem_heap_allocated_size jmem_heap_limit
                       jmem_heap_list_skip_p]. auto.
    + left. cbn [set_limit jmem_heap_limit]. split; [reflexivity |].
      split; [reflexivity |]. split; [exact Hl1 |]. exists l. auto.
  - exists a, st'. split; [exact E |].
    pose proof (chain_sum_area Hcfg _ _ R2) as Hb'.
    assert (Hsum' : sum_sizes (l1 ++ carve_nodes a s (align_size size) ++ l2)
                    = sum_sizes l - align_size size).
    { rewrite El, !sum_sizes_app, sum_sizes_cons. cbn [snd].
      unfold carve_nodes. destruct (Z.ltb_spec (align_size size) s).
      - rewrite sum_sizes_cons. cbn [snd sum_sizes fold_right]. lia.
      - cbn [sum_sizes fold_right]. lia. }
    rewrite El in Hc.
    pose proof (carved_block_free l1 a s l2 (align_size size) Hc ltac:(lia)) as Hfree.
    apply chain_app in Hc. destruct Hc as [_ Hc2].
    cbn [chain fst snd] in Hc2. destruct Hc2 as (_ & Hok & _).
    apply (node_ok_facts Hcfg) in Hok. cbn [fst snd] in Hok.
    split.
    + exists (l1 ++ carve_nodes a s (align_size size) ++ l2).
      split; [exact R1 |]. split; [exact R2 |]. split; [lia |]. split; [exact Hsk |]. lia.
    + right. layout Hcfg. unfold NULL.
      split; [lia |]. split; [exact Hal |]. split; [lia |]. split; [exact Hl2 |].
      split; [lia |]. split; [lia |]. split; [lia |].
      exists (l1 ++ carve_nodes a s (align_size size) ++ l2).
      split; [apply (free_list_of_lrep Hcfg); auto | exact Hfree].
Qed.

Lemma free_block_wf fuel p size st :
  heap_wf st -> fuel_ok fuel -> block_in_use fuel st p size = true ->
  exists st',
    jmem_heap_free_block fuel p size st = Some st'
    /\ heap_wf st'
    /\ jmem_heap_allocated_size st' = jmem_heap_allocated_size st - align_size size
    /\ jmem_heap_limit st' <= jmem_heap_limit st
    /\ exists l', free_list fuel st' = Some l'
                  /\ exists n, In n l' /\ fst n <= p
                               /\ p + align_size size <= fst n + snd n.
Proof.
  intros Hwf Hf Huse.
  destruct (heap_wf_free_list fuel st Hwf Hf) as (l & Efl & Hr & Hc & Hs & Hk & Hl).
  destruct (free_block_spec Hcfg fuel p size st l Hr Hc Hs Hk Hl Hf Huse)
    as (st' & l' & E & R1 & R2 & R3 & R4 & R5 & R6 & R7 & R8).
  exists st'. split; [exact E |]. split.
  - exists l'. split; [exact R1 |]. split; [exact R2 |]. split; [lia |].
    split; [apply skip_ok_full; exact R5 | exact R6].
  - split; [exact R4 |]. split; [exact R7 |]. exists l'.
    split; [apply (free_list_of_lrep Hcfg); auto | exact R8].
Qed.

(** A store outside the sentinel and the free regions is invisible to
    the allocator. *)
Lemma store_wf st x v :
  heap_wf st -> heap_base + 8 <= x ->
  (forall l, lrep (heap_mem st) ((first_p, 0) :: l) JMEM_HEAP_END_OF_LIST ->
             chain first_p l ->
             Forall (fun n => fst n + snd n <= x \/ x + 4 <= fst n) l) ->
  heap_wf (set_mem st (store (heap_mem st) x v)).
Proof.
  intros (l & Hr & Hc & Hs & Hk & Hl) Hx Hfree.
  specialize (Hfree l Hr Hc). rewrite Forall_forall in Hfree.
  exists l. cbn [set_mem heap_mem jmem_heap_allocated_size jmem_heap_limit
                   jmem_heap_list_skip_p].
  split; [| auto].
  apply (lrep_frame (heap_mem st)); [| exact Hr].
  intros n [<- | Hn]; cbn [fst].
  - unfold first_p. rewrite !store_other by lia. auto.
  - destruct (chain_In Hcfg _ _ _ Hc Hn) as [_ Hok].
    apply (node_ok_facts Hcfg) in Hok. specialize (Hfree n Hn).
    rewrite !store_other by lia. auto.
Qed.

Lemma client_store_wf fuel st x v :
  heap_wf st -> fuel_ok fuel -> word_in_use fuel st x = true ->
  heap_wf (set_mem st (store (heap_mem st) x v)).
Proof.
  intros Hwf Hf Huse.
  destruct (heap_wf_free_list fuel st Hwf Hf) as (l & Efl & Hr & Hc & _).
  unfold word_in_use in Huse. rewrite Efl in Huse.
  apply andb_true_iff in Huse. destruct Huse as [Huse Hall].
  apply andb_true_iff in Huse. destruct Huse as [Huse Hend].
  apply andb_true_iff in Huse. destruct Huse as [Hmod Hge].
  apply Z.leb_le in Hge. layout Hcfg.
  apply (store_wf st x v Hwf); [lia |].
  intros l0 Hr0 Hc0.
  assert (l0 = l).
  { pose proof (free_list_of_lrep Hcfg st l0 fuel Hr0 Hc0 Hf). congruence. }
  subst l0. apply Forall_forall. intros n Hn.
  rewrite forallb_forall in Hall. specialize (Hall n Hn).
  apply orb_true_iff in Hall. rewrite !Z.leb_le in Hall. exact Hall.
Qed.

End Preservation.

Section Pressure.
Context {cfg : Config} {reg : Registry}.
Hypothesis Hcfg : config_ok.
Hypothesis Hcb : callbacks_ok.

Lemma run_callbacks_spec s st log :
  heap_wf st ->
  exists st', jmem_run_free_unused_memory_callbacks s st = Some st'
              /\ run_callbacks s st log = Some (st', log ++ [EvCallbacks s])
              /\ heap_wf st'.
Proof.
  intros Hwf. destruct (Hcb s st Hwf) as (st' & E & Hwf').
  exists st'. unfold run_callbacks. rewrite E. auto.
Qed.

Lemma attempt_spec fuel size st log :
  heap_wf st -> fuel_ok fuel ->
  exists p st',
    jmem_heap_alloc_block_internal fuel size st = Some (p, st')
    /\ attempt fuel size st log
       = Some (p, st', log ++ [EvAttempt (negb (p =? NULL))])
    /\ heap_wf st'
    /\ (p = NULL -> exists lim, st' = set_limit st lim).
Proof.
  intros Hwf Hf.
  destruct (alloc_internal_wf Hcfg fuel size st Hwf Hf) as (p & st' & E & Hwf' & Hcase).
  exists p, st'. unfold attempt. rewrite E.
  split; [reflexivity |]. split; [reflexivity |]. split; [exact Hwf' |].
  intros Hp. destruct Hcase as [(_ & Est & _) | (Hne & _)]; [eauto | contradiction].
Qed.

Lemma gc_retry_spec fuel size sevs :
  fuel_ok fuel ->
  forall st log, heap_wf st ->
  exists p st' tail,
    gc_retry fuel size sevs st log = Some (p, st', log ++ tail)
    /\ heap_wf st'
    /\ retry_tail sevs p tail
    /\ forall R, R st -> survives R ->
         (p = NULL -> R st')
         /\ (p <> NULL ->
             exists st_mid, R st_mid /\ heap_wf st_mid
               /\ jmem_heap_alloc_block_internal fuel size st_mid = Some (p, st')).
Proof.
  intros Hf. induction sevs as [| s sevs IH]; intros st log Hwf.
  - exists NULL, st, []. cbn [gc_retry retry_tail]. rewrite app_nil_r.
    split; [reflexivity |]. split; [exact Hwf |]. split; [split; reflexivity |].
    intros R HR HS. split; [intros; exact HR | intros Hn; exfalso; apply Hn; reflexivity].
  - destruct (run_callbacks_spec s st log Hwf) as (st1 & Ecb & Erun & Hwf1).
    destruct (attempt_spec fuel size st1 (log ++ [EvCallbacks s]) Hwf1 Hf)
      as (p & st2 & Ea & Eatt & Hwf2 & Hnull).
    cbn [gc_retry]. rewrite Erun, Eatt.
    destruct (Z.eqb_spec p NULL) as [Ep | Np]; cbn [negb].
    + destruct (IH st2 ((log ++ [EvCallbacks s]) ++ [EvAttempt false]) Hwf2)
        as (p' & st' & tail & E & Hwf' & Htail & Hsurv).
      exists p', st', ([EvCallbacks s; EvAttempt false] ++ tail).
      rewrite E. split; [f_equal; f_equal; rewrite <- !app_assoc; reflexivity |].
      split; [exact Hwf' |]. split.
      * cbn [retry_tail]. right. exists tail. auto.
      * intros R HR HS. apply Hsurv; [| exact HS].
        destruct (Hnull Ep) as (lim & ->). destruct HS as [HS1 HS2].
        apply HS2. apply (HS1 s st st1); auto.
    + exists p, st2, [EvCallbacks s; EvAttempt true].
      split; [f_equal; f_equal; rewrite <- !app_assoc; reflexivity |].
      split; [exact Hwf2 |]. split.
      * cbn [retry_tail]. left. auto.
      * intros R HR HS. split; [intros; contradiction |]. intros _.
        exists st1. destruct HS as [HS1 _]. split; [apply (HS1 s st st1); auto | auto].
Qed.

Lemma retry_tail_range p tail t0 :
  retry_tail severity_range p tail ->
  protocol_tail p (EvAttempt false :: tail) /\ (p = NULL <-> exhausted (t0 ++ EvAttempt false :: tail)).
Proof.
  unfold severity_range, protocol_tail, exhausted. cbn [retry_tail].
  intros [(Hp & ->) | (t1 & -> & [(Hp & ->) | (t2 & -> & (Hp & ->))])]; cbn [app].
  - split; [auto |]. split; [contradiction |].
    intros (pre & E). apply (f_equal (@rev event)) in E.
    rewrite !rev_app_distr in E. cbn in E. discriminate.
  - split; [auto |]. split; [contradiction |].
    intros (pre & E). apply (f_equal (@rev event)) in E.
    rewrite !rev_app_distr in E. cbn in E. discriminate.
  - split; [auto 6 |]. split; [| auto]. intros _.
    exists (t0 ++ [EvAttempt false; EvCallbacks JMEM_FREE_UNUSED_MEMORY_SEVERITY_LOW;
                   EvAttempt false]).
    rewrite <- app_assoc. reflexivity.
Qed.

(** The whole request on a well-formed heap. *)
Lemma gc_and_alloc_spec fuel size st :
  heap_wf st -> fuel_ok fuel ->
  exists p st' log,
    jmem_heap_gc_and_alloc_block fuel size st = Some (p, st', log)
    /\ heap_wf st'
    /\ (exists st0 pre0,
          ((JMEM_GC_BEFORE_EACH_ALLOC = true
            /\ jmem_run_free_unused_memory_callbacks
                 JMEM_FREE_UNUSED_MEMORY_SEVERITY_HIGH st = Some st0
            /\ pre0 = [EvCallbacks JMEM_FREE_UNUSED_MEMORY_SEVERITY_HIGH])
           \/ (JMEM_GC_BEFORE_EACH_ALLOC = false /\ st0 = st /\ pre0 = []))
          /\ exists tail,
               log = (pre0 ++ (if jmem_heap_limit st0
                                  <=? to_size_t (jmem_heap_allocated_size st0 + size)
                               then [EvCallbacks JMEM_FREE_UNUSED_MEMORY_SEVERITY_LOW]
                               else [])) ++ tail
               /\ protocol_tail p tail)
    /\ (p = NULL <-> exhausted log)
    /\ forall R, R st -> survives R ->
         (p = NULL -> R st')
         /\ (p <> NULL ->
             exists st_mid, R st_mid /\ heap_wf st_mid
               /\ jmem_heap_alloc_block_internal fuel size st_mid = Some (p, st')).
Proof.
  intros Hwf Hf. unfold jmem_heap_gc_and_alloc_block.
  assert (Hpre : exists st0 pre0,
    (if JMEM_GC_BEFORE_EACH_ALLOC
     then run_callbacks JMEM_FREE_UNUSED_MEMORY_SEVERITY_HIGH st []
     else Some (st, [])) = Some (st0, pre0)
    /\ heap_wf st0
    /\ ((JMEM_GC_BEFORE_EACH_ALLOC = true
         /\ jmem_run_free_unused_memory_callbacks
              JMEM_FREE_UNUSED_MEMORY_SEVERITY_HIGH st = Some st0
         /\ pre0 = [EvCallbacks JMEM_FREE_UNUSED_MEMORY_SEVERITY_HIGH])
        \/ (JMEM_GC_BEFORE_EACH_ALLOC = false /\ st0 = st /\ pre0 = []))
    /\ forall R, R st -> survives R -> R st0).
  { destruct JMEM_GC_BEFORE_EACH_ALLOC.
    - destruct (run_callbacks_spec JMEM_FREE_UNUSED_MEMORY_SEVERITY_HIGH st [] Hwf)
        as (st0 & Ecb & Erun & Hwf0).
      exists st0, [EvCallbacks JMEM_FREE_UNUSED_MEMORY_SEVERITY_HIGH].
      rewrite Erun. repeat split; auto.
      intros R HR [HS1 _].
      apply (HS1 JMEM_FREE_UNUSED_MEMORY_SEVERITY_HIGH st st0); auto.
    - exists st, []. repeat split; auto. }
  destruct Hpre as (st0 & pre0 & Epre & Hwf0 & Hcase0 & Hsurv0). rewrite Epre.
  set (pre1 := if jmem_heap_limit st0 <=? to_size_t (jmem_heap_allocated_size st0 + size)
               then [EvCallbacks JMEM_FREE_UNUSED_MEMORY_SEVERITY_LOW] else []).
  assert (Hlow : exists st1,
    (if jmem_heap_limit st0 <=? to_size_t (jmem_heap_allocated_size st0 + size)
     then run_callbacks JMEM_FREE_UNUSED_MEMORY_SEVERITY_LOW st0 pre0
     else Some (st0, pre0)) = Some (st1, pre0 ++ pre1)
    /\ heap_wf st1 /\ forall R, R st -> survives R -> R st1).
  { unfold pre1.
    destruct (jmem_heap_limit st0 <=? to_size_t (jmem_heap_allocated_size st0 + size)).
    - destruct (run_callbacks_spec JMEM_FREE_UNUSED_MEMORY_SEVERITY_LOW st0 pre0 Hwf0)
        as (st1 & Ecb & Erun & Hwf1).
      exists st1. rewrite Erun. repeat split; auto.
      intros R HR HS. pose proof (Hsurv0 R HR HS) as HR0.
      destruct HS as [HS1 _].
      apply (HS1 JMEM_FREE_UNUSED_MEMORY_SEVERITY_LOW st0 st1); auto.
    - exists st0. rewrite app_nil_r. repeat split; auto. }
  destruct Hlow as (st1 & Elow & Hwf1 & Hsurv1). rewrite Elow.
  destruct (attempt_spec fuel size st1 (pre0 ++ pre1) Hwf1 Hf)
    as (p & st2 & Ea & Eatt & Hwf2 & Hnull).
  rewrite Eatt.
  destruct (Z.eqb_spec p NULL) as [Ep | Np]; cbn [negb].
  - destruct (gc_retry_spec fuel size severity_range Hf st2
                ((pre0 ++ pre1) ++ [EvAttempt false]) Hwf2)
      as (p' & st' & tail & E & Hwf' & Htail & Hsurv).
    destruct (retry_tail_range p' tail (pre0 ++ pre1) Htail) as [Hpt Hex].
    exists p', st', (((pre0 ++ pre1) ++ [EvAttempt false]) ++ tail).
    split; [exact E |]. split; [exact Hwf' |].
    rewrite <- app_assoc. cbn [app]. split; [| split].
    + exists st0, pre0. split; [exact Hcase0 |].
      exists (EvAttempt false :: tail). split; [reflexivity | exact Hpt].
    + exact Hex.
    + intros R HR HS. apply Hsurv; [| exact HS].
      destruct (Hnull Ep) as (lim & ->). pose proof (Hsurv1 R HR HS).
      destruct HS as [_ HS2]. apply HS2. assumption.
  - exists p, st2, ((pre0 ++ pre1) ++ [EvAttempt true]).
    split; [reflexivity |]. split; [exact Hwf2 |]. split; [| split].
    + exists st0, pre0. split; [exact Hcase0 |].
      exists [EvAttempt true]. split; [reflexivity |]. left. auto.
    + split; [contradiction |].
      intros (pre & E). apply (f_equal (@rev event)) in E.
      rewrite !rev_app_distr in E. cbn in E. discriminate.
    + intros R HR HS. split; [intros; contradiction |]. intros _.
      exists st1. split; [apply Hsurv1; auto | auto].
Qed.

End Pressure.

Section Reachable.
Context {cfg : Config} {reg : Registry}.
Hypothesis Hcfg : config_ok.
Hypothesis Hcb : callbacks_ok.

(** A successful request returns a block that no free region overlaps. *)
Lemma gc_and_alloc_block_facts fuel size st p st' log :
  heap_wf st -> fuel_ok fuel ->
  jmem_heap_gc_and_alloc_block fuel size st = Some (p, st', log) ->
  heap_wf st'
  /\ (p <> NULL ->
      heap_base + 8 <= p /\ p mod 8 = 0
      /\ p + align_size size <= heap_base + JMEM_HEAP_SIZE
      /\ jmem_heap_allocated_size st' < jmem_heap_limit st'
      /\ exists l', free_list fuel st' = Some l'
                    /\ Forall (fun n => fst n + snd n <= p
                                        \/ p + align_size size <= fst n) l').
Proof.
  intros Hwf Hf E.
  destruct (gc_and_alloc_spec Hcfg Hcb fuel size st Hwf Hf)
    as (p0 & st0 & log0 & E0 & Hwf' & _ & _ & Hsurv).
  rewrite E0 in E. injection E as -> -> ->.
  split; [exact Hwf' |]. intros Hp.
  destruct (Hsurv (fun _ => True) I) as [_ Hmid].
  { split; auto. }
  destruct (Hmid Hp) as (st_mid & _ & Hwfm & Em).
  destruct (alloc_internal_wf Hcfg fuel size st_mid Hwfm Hf)
    as (p1 & st1 & E1 & _ & [(Hn & _) | (_ & _ & Hlim & _ & H1 & H2 & H3 & H4)]);
    rewrite E1 in Em; injection Em as -> ->; [contradiction | auto 6].
Qed.

Theorem reachable_wf st : reachable st -> heap_wf st.
Proof.
  induction 1 as [m
                 | fuel size st p st' log Hreach IH Hf Hsize E
                 | fuel size st p st' log Hreach IH Hf Hsize E
                 | fuel size st p st' log Hreach IH Hf Hsize Hsize' E
                 | fuel ptr size st st' Hreach IH Hf Huse E
                 | fuel ptr st st' Hreach IH Hf Huse E
                 | fuel x v st Hreach IH Hf Huse].
  - apply (init_wf Hcfg).
  - unfold jmem_heap_alloc_block in E.
    destruct (size =? 0); [injection E as _ <- _; exact IH |].
    destruct (jmem_heap_gc_and_alloc_block fuel size st) as [[[p0 st0] log0] |] eqn:Eg;
      [| discriminate].
    destruct (negb (p0 =? NULL)); [| discriminate]. injection E as _ <- _.
    apply (gc_and_alloc_block_facts fuel size st p0 st0 log0 IH Hf Eg).
  - unfold jmem_heap_alloc_block_null_on_error in E.
    destruct (size =? 0); [injection E as _ <- _; exact IH |].
    apply (gc_and_alloc_block_facts fuel size st p st' log IH Hf E).
  - unfold jmem_heap_alloc_block_store_size in E.
    destruct (size =? 0); [injection E as _ <- _; exact IH |].
    unfold jmem_heap_alloc_block in E.
    set (size' := to_size_t (size + sizeof_jmem_heap_free_t)) in *.
    assert (Es : size' = size + 8).
    { unfold size', sizeof_jmem_heap_free_t in *. apply to_size_t_small.
      rewrite (alignment_8 Hcfg) in Hsize'. lia. }
    destruct (Z.eqb_spec size' 0) as [E0 | _]; [lia |].
    destruct (jmem_heap_gc_and_alloc_block fuel size' st) as [[[p0 st0] log0] |] eqn:Eg;
      [| discriminate].
    destruct (Z.eqb_spec p0 NULL) as [| Hp0]; cbn [negb] in E; [discriminate |].
    cbv beta iota in E. destruct (Z.eqb_spec p0 NULL) as [| _]; [contradiction |].
    injection E as _ <- _.
    destruct (gc_and_alloc_block_facts fuel size' st p0 st0 log0 IH Hf Eg) as [Hwf0 Hfacts].
    destruct (Hfacts Hp0) as (H1 & H2 & H3 & _ & l' & El' & Hdis).
    assert (Ea : align_size size' = (size' + 7) / 8 * 8).
    { apply (align_size_val Hcfg); [lia |].
      unfold sizeof_jmem_heap_free_t in Hsize'. rewrite (alignment_8 Hcfg) in Hsize'. lia. }
    unfold set_size. apply (store_wf Hcfg st0 (p0 + 4) size' Hwf0); [lia |].
    intros l0 Hr0 Hc0.
    assert (l0 = l').
    { pose proof (free_list_of_lrep Hcfg st0 l0 fuel Hr0 Hc0 Hf). congruence. }
    subst l0. rewrite Forall_forall in Hdis. apply Forall_forall. intros n Hn.
    specialize (Hdis n Hn). lia.
  - destruct (free_block_wf Hcfg fuel ptr size st IH Hf Huse) as (st0 & E0 & Hwf0 & _).
    congruence.
  - unfold jmem_heap_free_block_size_stored in E.
    destruct (free_block_wf Hcfg fuel _ _ st IH Hf Huse) as (st0 & E0 & Hwf0 & _).
    congruence.
  - apply (client_store_wf Hcfg fuel); auto.
Qed.

Lemma chain_no_touch e l : chain e l -> no_touch l.
Proof.
  revert e. induction l as [| [a s] l IH]; intros e Hc; [exact I |].
  destruct l as [| [b t] l]; [exact I |].
  cbn [chain fst snd] in Hc. destruct Hc as (_ & _ & Hb & Hok & Hc).
  cbn [no_touch]. split; [exact Hb |].
  apply (IH (a + s)). cbn [chain fst snd]. auto.
Qed.

End Reachable.

Lemma first_fit_unique (l1 l1' l2 l2' : list (Z * Z)) a s a' s' req :
  l1 ++ (a, s) :: l2 = l1' ++ (a', s') :: l2' ->
  Forall (fun n => snd n < req) l1 -> req <= s ->
  Forall (fun n => snd n < req) l1' -> req <= s' ->
  l1 = l1' /\ a = a' /\ s = s' /\ l2 = l2'.
Proof.
  revert l1'. induction l1 as [| x l1 IH]; intros l1' E H1 Hs H1' Hs'.
  - destruct l1' as [| y l1']; cbn [app] in E.
    + injection E as -> -> ->. auto.
    + injection E as <- _. apply Forall_cons_iff in H1'. cbn [snd] in H1'. lia.
  - destruct l1' as [| y l1']; cbn [app] in E.
    + injection E as -> _. apply Forall_cons_iff in H1. cbn [snd] in H1. lia.
    + injection E as -> E. apply Forall_cons_iff in H1, H1'.
      destruct (IH l1' E (proj2 H1) Hs (proj2 H1') Hs') as (-> & -> & -> & ->). auto.
Qed.

Section Claims.
Context {cfg : Config} {reg : Registry}.

(** C7, amended (skip-hint validity).  At every entry and exit of the
    public functions [jmem_heap_list_skip_p] is the sentinel, a node of
    the free list, or the end-of-list pointer while the free list is
    empty; after a free it is the sentinel or a node of the free list. *)
Theorem skip_hint_valid (fuel : nat) (st : heap_state) :
  config_ok -> callbacks_ok -> fuel_ok fuel -> reachable st ->
  (exists l, free_list fuel st = Some l
             /\ (jmem_heap_list_skip_p st = first_p
                 \/ In (jmem_heap_list_skip_p st) (map fst l)
                 \/ (jmem_heap_list_skip_p st = JMEM_HEAP_END_OF_LIST /\ l = [])))
  /\ (forall p size, block_in_use fuel st p size = true ->
        exists st' l',
          jmem_heap_free_block fuel p size st = Some st'
          /\ free_list fuel st' = Some l'
          /\ (jmem_heap_list_skip_p st' = first_p
              \/ In (jmem_heap_list_skip_p st') (map fst l'))).
Proof.
  intros Hcfg Hcb Hf Hreach.
  pose proof (reachable_wf Hcfg Hcb st Hreach) as Hwf.
  destruct (heap_wf_free_list Hcfg fuel st Hwf Hf) as (l & E & Hr & Hc & Hs & Hk & Hl).
  split; [exists l; split; [exact E | exact Hk] |].
  intros p size Huse.
  destruct (free_block_spec Hcfg fuel p size st l Hr Hc Hs Hk Hl Hf Huse)
    as (st' & l' & E' & R1 & R2 & _ & _ & R5 & _).
  exists st', l'. split; [exact E' |].
  split; [apply (free_list_of_lrep Hcfg); auto |].
  cbn [map fst] in R5. destruct R5 as [<- | H]; auto.
Qed.

(** C4 (slow-path first fit).  For a request whose rounded size is not
    [JMEM_ALIGNMENT], the internal allocation fails when no free region
    is large enough and otherwise serves the request from the first
    region [(a, s)] of the list that is: it returns [a]; on an exact fit
    the predecessor's [next_offset] takes the region's; on a larger
    region a node of size [s - required] with the region's
    [next_offset] is built at [a + required] and the predecessor is
    linked to it; the skip pointer becomes the predecessor. *)
Theorem slow_path_first_fit (fuel : nat) (size : Z) (st : heap_state) (l : list (Z * Z)) :
  config_ok -> callbacks_ok -> fuel_ok fuel -> reachable st ->
  free_list fuel st = Some l ->
  align_size size <> JMEM_ALIGNMENT ->
  (Forall (fun n => snd n < align_size size) l ->
   exists st', jmem_heap_alloc_block_internal fuel size st = Some (NULL, st')
               /\ free_list fuel st' = Some l)
  /\ (forall l1 a s l2,
        l = l1 ++ (a, s) :: l2 ->
        Forall (fun n => snd n < align_size size) l1 -> align_size size <= s ->
        let prev_p := last (map fst l1) first_p in
        let required := align_size size in
        exists st',
          jmem_heap_alloc_block_internal fuel size st = Some (a, st')
          /\ jmem_heap_list_skip_p st' = prev_p
          /\ (s = required ->
              get_next_offset (heap_mem st') prev_p = get_next_offset (heap_mem st) a
              /\ free_list fuel st' = Some (l1 ++ l2))
          /\ (required < s ->
              get_size (heap_mem st') (a + required) = s - required
              /\ get_next_offset (heap_mem st') (a + required)
                 = get_next_offset (heap_mem st) a
              /\ get_next_offset (heap_mem st') prev_p
                 = JMEM_HEAP_GET_OFFSET_FROM_ADDR (a + required)
              /\ free_list fuel st' = Some (l1 ++ (a + required, s - required) :: l2))).
Proof.
  intros Hcfg Hcb Hf Hreach El Hslow.
  pose proof (reachable_wf Hcfg Hcb st Hreach) as Hwf.
  destruct (heap_wf_free_list Hcfg fuel st Hwf Hf) as (l0 & E0 & Hr & Hc & Hs & Hk & Hl).
  assert (l0 = l) by congruence. subst l0.
  pose proof (alloc_internal_spec Hcfg fuel size st l Hr Hc Hs Hk Hl Hf) as Hspec.
  split.
  - intros Hall.
    destruct Hspec as [(_ & lim & E & _) | (l1 & a & s & l2 & _ & -> & _ & Hsz & _)].
    + exists (set_limit st lim). split; [exact E |]. exact El.
    + apply Forall_app in Hall. destruct Hall as [_ Hall].
      apply Forall_cons_iff in Hall. cbn [snd] in Hall. lia.
  - intros l1 a s l2 El1 Hall Hsz prev_p required.
    destruct Hspec as [(Hno & _)
                      | (l1' & a' & s' & l2' & st' & El' & Hall' & Hsz' & E & Hcv
                         & R1 & R2 & _ & _ & _ & _ & Hskip)].
    + rewrite El1 in Hno. apply Forall_app in Hno. destruct Hno as [_ Hno].
      apply Forall_cons_iff in Hno. cbn [snd] in Hno. lia.
    + rewrite El1 in El'.
      destruct (first_fit_unique _ _ _ _ _ _ _ _ _ El' Hall Hsz Hall' Hsz')
        as (<- & <- & <- & <-).
      exists st'. split; [exact E |]. split; [exact (Hskip Hslow) |].
      fold prev_p required in Hcv, R1, R2.
      pose proof (free_list_of_lrep Hcfg st' _ fuel R1 R2 Hf) as Efl'.
      unfold carved, carve_nodes in *. unfold get_next_offset, get_size.
      split.
      * intros ->. destruct (Z.ltb_spec required required) as [? | _]; [lia |].
        destruct Hcv as [Hp _]. auto.
      * intros Hlt. destruct (Z.ltb_spec required s) as [_ | ?]; [| lia].
        destruct Hcv as (H1 & H2 & H3 & _).
        repeat split; auto.
Qed.

(** C5 (failure behaviour).  Both variants return [NULL] for a request
    of size zero.  For any other size [jmem_heap_alloc_block_null_on_error]
    returns [NULL] exactly when the pressure loop is exhausted, and
    [jmem_heap_alloc_block] then ends the process with
    [ERR_OUT_OF_MEMORY]; it returns the same non-null pointer otherwise. *)
Theorem alloc_failure_behaviour (fuel : nat) (size : Z) (st : heap_state) :
  config_ok -> callbacks_ok -> fuel_ok fuel -> reachable st ->
  jmem_heap_alloc_block fuel 0 st = Some (Returned NULL st, [])
  /\ jmem_heap_alloc_block_null_on_error fuel 0 st = Some (NULL, st, [])
  /\ (size <> 0 ->
      exists p st' log,
        jmem_heap_alloc_block_null_on_error fuel size st = Some (p, st', log)
        /\ (p = NULL <-> exhausted log)
        /\ ((p = NULL
             /\ jmem_heap_alloc_block fuel size st = Some (Fatal ERR_OUT_OF_MEMORY, log))
            \/ (p <> NULL
                /\ jmem_heap_alloc_block fuel size st = Some (Returned p st', log)))).
Proof.
  intros Hcfg Hcb Hf Hreach.
  pose proof (reachable_wf Hcfg Hcb st Hreach) as Hwf.
  split; [reflexivity |]. split; [reflexivity |].
  intros Hsize.
  destruct (gc_and_alloc_spec Hcfg Hcb fuel size st Hwf Hf)
    as (p & st' & log & E & _ & _ & Hex & _).
  exists p, st', log.
  unfold jmem_heap_alloc_block_null_on_error, jmem_heap_alloc_block.
  destruct (Z.eqb_spec size 0) as [? | _]; [contradiction |].
  rewrite E. split; [reflexivity |]. split; [exact Hex |].
  destruct (Z.eqb_spec p NULL) as [Ep | Np]; cbn [negb]; auto.
Qed.

(** C6, amended (pressure-loop protocol).  In a build without
    [JMEM_GC_BEFORE_EACH_ALLOC] a request first runs the callbacks at LOW
    severity when [allocated_size + size], computed in [size_t], is at
    least the limit; it then attempts the internal allocation on the
    heap as it is then.  After a failure it runs the callbacks at LOW on
    the heap the attempt left and retries on the heap they leave, then
    does the same at HIGH; it returns the pointer and the heap of the
    first successful attempt, and [NULL] only after the retry that
    follows the HIGH run has failed. *)
Theorem pressure_loop_protocol (fuel : nat) (size : Z) (st : heap_state) :
  config_ok -> callbacks_ok -> fuel_ok fuel -> reachable st ->
  JMEM_GC_BEFORE_EACH_ALLOC = false ->
  exists st1 p1 st2,
    (if jmem_heap_limit st <=? to_size_t (jmem_heap_allocated_size st + size)
     then jmem_run_free_unused_memory_callbacks JMEM_FREE_UNUSED_MEMORY_SEVERITY_LOW st
          = Some st1
     else st1 = st)
    /\ jmem_heap_alloc_block_internal fuel size st1 = Some (p1, st2)
    /\ exists pre,
         pre = (if jmem_heap_limit st <=? to_size_t (jmem_heap_allocated_size st + size)
                then [EvCallbacks JMEM_FREE_UNUSED_MEMORY_SEVERITY_LOW] else [])
         /\ ((p1 <> NULL
              /\ jmem_heap_gc_and_alloc_block fuel size st
                 = Some (p1, st2, pre ++ [EvAttempt true]))
             \/ (p1 = NULL
                 /\ exists st3 p2 st4,
                      jmem_run_free_unused_memory_callbacks
                        JMEM_FREE_UNUSED_MEMORY_SEVERITY_LOW st2 = Some st3
                      /\ jmem_heap_alloc_block_internal fuel size st3 = Some (p2, st4)
                      /\ ((p2 <> NULL
                           /\ jmem_heap_gc_and_alloc_block fuel size st
                              = Some (p2, st4,
                                      pre ++ [EvAttempt false;
                                              EvCallbacks JMEM_FREE_UNUSED_MEMORY_SEVERITY_LOW;
                                              EvAttempt true]))
                          \/ (p2 = NULL
                              /\ exists st5 p3 st6,
                                   jmem_run_free_unused_memory_callbacks
                                     JMEM_FREE_UNUSED_MEMORY_SEVERITY_HIGH st4 = Some st5
                                   /\ jmem_heap_alloc_block_internal fuel size st5
                                      = Some (p3, st6)
                                   /\ jmem_heap_gc_and_alloc_block fuel size st
                                      = Some (p3, st6,
                                              pre ++ [EvAttempt false;
                                                      EvCallbacks
                                                        JMEM_FREE_UNUSED_MEMORY_SEVERITY_LOW;
                                                      EvAttempt false;
                                                      EvCallbacks
                                                        JMEM_FREE_UNUSED_MEMORY_SEVERITY_HIGH;
                                                      EvAttempt (negb (p3 =? NULL))]))))).
Proof.
  intros Hcfg Hcb Hf Hreach Htoggle.
  pose proof (reachable_wf Hcfg Hcb st Hreach) as Hwf.
  unfold jmem_heap_gc_and_alloc_block. rewrite Htoggle.
  set (pre := if jmem_heap_limit st <=? to_size_t (jmem_heap_allocated_size st + size)
              then [EvCallbacks JMEM_FREE_UNUSED_MEMORY_SEVERITY_LOW] else []).
  assert (Hlow : exists st1,
    (if jmem_heap_limit st <=? to_size_t (jmem_heap_allocated_size st + size)
     then jmem_run_free_unused_memory_callbacks JMEM_FREE_UNUSED_MEMORY_SEVERITY_LOW st
          = Some st1
     else st1 = st)
    /\ (if jmem_heap_limit st <=? to_size_t (jmem_heap_allocated_size st + size)
        then run_callbacks JMEM_FREE_UNUSED_MEMORY_SEVERITY_LOW st []
        else Some (st, [])) = Some (st1, pre)
    /\ heap_wf st1).
  { unfold pre.
    destruct (jmem_heap_limit st <=? to_size_t (jmem_heap_allocated_size st + size)).
    - destruct (run_callbacks_spec Hcb JMEM_FREE_UNUSED_MEMORY_SEVERITY_LOW st [] Hwf)
        as (st1 & E1 & E2 & Hwf1).
      exists st1. auto.
    - exists st. auto. }
  destruct Hlow as (st1 & Hl1 & Hl2 & Hwf1). rewrite Hl2.
  destruct (attempt_spec Hcfg fuel size st1 pre Hwf1 Hf)
    as (p1 & st2 & Ea1 & Eatt1 & Hwf2 & _).
  exists st1, p1, st2. split; [exact Hl1 |]. split; [exact Ea1 |].
  exists pre. split; [reflexivity |]. rewrite Eatt1.
  destruct (Z.eqb_spec p1 NULL) as [Ep1 | Np1]; cbn [negb]; [right | left; auto].
  split; [exact Ep1 |]. unfold severity_range. cbn [gc_retry].
  destruct (run_callbacks_spec Hcb JMEM_FREE_UNUSED_MEMORY_SEVERITY_LOW st2
              (pre ++ [EvAttempt false]) Hwf2) as (st3 & E3 & Er3 & Hwf3).
  rewrite Er3.
  destruct (attempt_spec Hcfg fuel size st3
              ((pre ++ [EvAttempt false])
               ++ [EvCallbacks JMEM_FREE_UNUSED_MEMORY_SEVERITY_LOW]) Hwf3 Hf)
    as (p2 & st4 & Ea2 & Eatt2 & Hwf4 & _).
  rewrite Eatt2. exists st3, p2, st4. split; [exact E3 |]. split; [exact Ea2 |].
  destruct (Z.eqb_spec p2 NULL) as [Ep2 | Np2]; cbn [negb]; [right | left].
  - split; [exact Ep2 |].
    destruct (run_callbacks_spec Hcb JMEM_FREE_UNUSED_MEMORY_SEVERITY_HIGH st4
                (((pre ++ [EvAttempt false])
                  ++ [EvCallbacks JMEM_FREE_UNUSED_MEMORY_SEVERITY_LOW])
                 ++ [EvAttempt false]) Hwf4) as (st5 & E5 & Er5 & Hwf5).
    rewrite Er5.
    destruct (attempt_spec Hcfg fuel size st5
                ((((pre ++ [EvAttempt false])
                   ++ [EvCallbacks JMEM_FREE_UNUSED_MEMORY_SEVERITY_LOW])
                  ++ [EvAttempt false])
                 ++ [EvCallbacks JMEM_FREE_UNUSED_MEMORY_SEVERITY_HIGH]) Hwf5 Hf)
      as (p3 & st6 & Ea3 & Eatt3 & _).
    rewrite Eatt3. exists st5, p3, st6. split; [exact E5 |]. split; [exact Ea3 |].
    destruct (Z.eqb_spec p3 NULL) as [Ep3 | Np3]; cbn [negb gc_retry];
      rewrite <- !app_assoc; [rewrite Ep3 |]; reflexivity.
  - split; [exact Np2 |]. rewrite <- !app_assoc. reflexivity.
Qed.

End Claims.

Section Stored.
Context {cfg : Config}.


Lemma staged_registry_ok fuel sev b bsize :
  config_ok -> fuel_ok fuel ->
  @callbacks_ok cfg (staged_registry fuel sev b bsize).
Proof.
  intros Hcfg Hf s st Hwf. cbn.
  destruct (severity_eqb s sev && block_in_use fuel st b bsize) eqn:E.
  - apply andb_true_iff in E. destruct E as [_ Huse].
    destruct (free_block_wf Hcfg fuel b bsize st Hwf Hf Huse) as (st' & E' & Hwf' & _).
    exists st'. auto.
  - exists st. auto.
Qed.

End Stored.

Section Claims2.
Context {cfg : Config} {reg : Registry}.


End Claims2.

Section Scenario.
Context {cfg : Config}.

Lemma alloc_internal_null fuel size st l :
  config_ok -> heap_wf st -> fuel_ok fuel ->
  free_list fuel st = Some l ->
  Forall (fun n => snd n < align_size size) l ->
  exists lim,
    jmem_heap_alloc_block_internal fuel size st = Some (NULL, set_limit st lim)
    /\ heap_wf (set_limit st lim).
Proof.
  intros Hcfg Hwf Hf El Hall.
  destruct (heap_wf_free_list Hcfg fuel st Hwf Hf) as (l0 & E0 & Hr & Hc & Hs & Hk & Hl).
  assert (l0 = l) by congruence. subst l0.
  destruct (alloc_internal_spec Hcfg fuel size st l Hr Hc Hs Hk Hl Hf)
    as [(_ & lim & E & Hl1 & Hl2) | (l1 & a & s & l2 & _ & -> & _ & Hsz & _)].
  - exists lim. split; [exact E |]. exists l.
    cbn [set_limit heap_mem jmem_heap_allocated_size jmem_heap_limit jmem_heap_list_skip_p].
    auto.
  - apply Forall_app in Hall. destruct Hall as [_ Hall].
    apply Forall_cons_iff in Hall. cbn [snd] in Hall. lia.
Qed.

Lemma alloc_internal_null_inv fuel size st stf :
  config_ok -> heap_wf st -> fuel_ok fuel ->
  jmem_heap_alloc_block_internal fuel size st = Some (NULL, stf) ->
  exists l, free_list fuel st = Some l
            /\ Forall (fun n => snd n < align_size size) l.
Proof.
  intros Hcfg Hwf Hf E.
  destruct (alloc_internal_wf Hcfg fuel size st Hwf Hf)
    as (p & st' & E' & _ & [(_ & _ & _ & Hl) | (Hp & _)]).
  - exact Hl.
  - rewrite E in E'. injection E' as <- _. contradiction.
Qed.

Lemma alloc_internal_fit fuel size st l n :
  config_ok -> heap_wf st -> fuel_ok fuel ->
  free_list fuel st = Some l -> In n l -> align_size size <= snd n ->
  exists p st',
    jmem_heap_alloc_block_internal fuel size st = Some (p, st')
    /\ p <> NULL
    /\ jmem_heap_allocated_size st' < jmem_heap_limit st'
       <= jmem_heap_allocated_size st' + CONFIG_MEM_HEAP_DESIRED_LIMIT.
Proof.
  intros Hcfg Hwf Hf El Hn Hsz.
  destruct (alloc_internal_wf Hcfg fuel size st Hwf Hf)
    as (p & st' & E' & Hwf' & [(_ & _ & _ & l0 & E0 & Hall) | (Hp & _ & Hlim & _)]).
  - assert (l0 = l) by congruence. subst l0.
    rewrite Forall_forall in Hall. specialize (Hall n Hn). lia.
  - exists p, st'. split; [exact E' |]. split; [exact Hp |].
    destruct Hwf' as (l' & _ & _ & _ & _ & Hl'). lia.
Qed.

(** C8, amended (scenario S4).  The registry holds one callback, at
    HIGH severity, that frees a pre-staged block large enough for the
    request; the heap is filled to within [CONFIG_MEM_HEAP_DESIRED_LIMIT]
    of its capacity and the internal allocation fails on it.  Then the
    request succeeds; the callbacks run at LOW (twice when
    [allocated_size + size >= limit], once otherwise) and then once at
    HIGH; afterwards the limit lies above [jmem_heap_allocated_size], by
    at most one step. *)
Theorem scenario_S4 (fuel : nat) (size b bsize : Z) (st : heap_state) :
  config_ok -> fuel_ok fuel -> JMEM_GC_BEFORE_EACH_ALLOC = false ->
  @reachable cfg (staged_registry fuel JMEM_FREE_UNUSED_MEMORY_SEVERITY_HIGH b bsize) st ->
  block_in_use fuel st b bsize = true ->
  JMEM_HEAP_AREA_SIZE - jmem_heap_allocated_size st <= CONFIG_MEM_HEAP_DESIRED_LIMIT ->
  0 < size -> jmem_heap_allocated_size st + size < 2 ^ ptr_bits ->
  align_size size <= align_size bsize ->
  (exists stf, jmem_heap_alloc_block_internal fuel size st = Some (NULL, stf)) ->
  exists p st' log,
    @jmem_heap_gc_and_alloc_block cfg
      (staged_registry fuel JMEM_FREE_UNUSED_MEMORY_SEVERITY_HIGH b bsize) fuel size st
    = Some (p, st', log)
    /\ p <> NULL
    /\ log = (if jmem_heap_limit st <=? jmem_heap_allocated_size st + size
              then [EvCallbacks JMEM_FREE_UNUSED_MEMORY_SEVERITY_LOW] else [])
             ++ [EvAttempt false;
                 EvCallbacks JMEM_FREE_UNUSED_MEMORY_SEVERITY_LOW; EvAttempt false;
                 EvCallbacks JMEM_FREE_UNUSED_MEMORY_SEVERITY_HIGH; EvAttempt true]
    /\ jmem_heap_allocated_size st' < jmem_heap_limit st'
       <= jmem_heap_allocated_size st' + CONFIG_MEM_HEAP_DESIRED_LIMIT.
Proof.
  intros Hcfg Hf Htoggle Hreach Huse Hfull Hsize Hnowrap Hfits (stf & Efail).
  pose proof (staged_registry_ok fuel JMEM_FREE_UNUSED_MEMORY_SEVERITY_HIGH b bsize Hcfg Hf)
    as Hcb.
  pose proof (reachable_wf Hcfg Hcb st Hreach) as Hwf.
  destruct (alloc_internal_null_inv fuel size st stf Hcfg Hwf Hf Efail) as (l & El & Hall).
  (* the first attempt and the retry after LOW fail, the list is the same *)
  destruct (alloc_internal_null fuel size st l Hcfg Hwf Hf El Hall) as (lim1 & E1 & Hwf1).
  assert (El1 : free_list fuel (set_limit st lim1) = Some l) by exact El.
  destruct (alloc_internal_null fuel size _ l Hcfg Hwf1 Hf El1 Hall) as (lim2 & E2 & Hwf2).
  set (st2 := set_limit (set_limit st lim1) lim2) in *.
  (* the HIGH callback frees the block *)
  assert (Huse2 : block_in_use fuel st2 b bsize = true) by exact Huse.
  destruct (free_block_wf Hcfg fuel b bsize st2 Hwf2 Hf Huse2)
    as (st3 & E3 & Hwf3 & _ & _ & l3 & El3 & n & Hn & Hn1 & Hn2).
  assert (Hbig : align_size size <= snd n) by lia.
  destruct (alloc_internal_fit fuel size st3 l3 n Hcfg Hwf3 Hf El3 Hn Hbig)
    as (p & st4 & E4 & Hp & Hlim).
  exists p, st4,
    ((if jmem_heap_limit st <=? jmem_heap_allocated_size st + size
      then [EvCallbacks JMEM_FREE_UNUSED_MEMORY_SEVERITY_LOW] else [])
     ++ [EvAttempt false;
         EvCallbacks JMEM_FREE_UNUSED_MEMORY_SEVERITY_LOW; EvAttempt false;
         EvCallbacks JMEM_FREE_UNUSED_MEMORY_SEVERITY_HIGH; EvAttempt true]).
  unfold jmem_heap_gc_and_alloc_block. rewrite Htoggle.
  assert (Hal0 : 0 <= jmem_heap_allocated_size st).
  { destruct (heap_wf_free_list Hcfg fuel st Hwf Hf) as (l0 & _ & _ & Hc & Hs & _).
    pose proof (chain_sum_area Hcfg _ _ Hc). layout Hcfg. lia. }
  rewrite (to_size_t_small (jmem_heap_allocated_size st + size)) by lia.
  assert (Hstep : forall log0,
    match attempt fuel size st log0 with
    | Some (data_space_p, st2', log2) =>
        if negb (data_space_p =? NULL)
        then Some (data_space_p, st2', log2)
        else @gc_retry cfg
               (staged_registry fuel JMEM_FREE_UNUSED_MEMORY_SEVERITY_HIGH b bsize)
               fuel size severity_range st2' log2
    | None => None
    end
    = Some (p, st4,
            log0 ++ [EvAttempt false;
                     EvCallbacks JMEM_FREE_UNUSED_MEMORY_SEVERITY_LOW; EvAttempt false;
                     EvCallbacks JMEM_FREE_UNUSED_MEMORY_SEVERITY_HIGH; EvAttempt true])).
  { intros log0. unfold attempt at 1. rewrite E1. cbn [Z.eqb NULL negb].
    unfold severity_range. cbn [gc_retry].
    unfold run_callbacks at 1. cbn [jmem_run_free_unused_memory_callbacks staged_registry
                                      severity_eqb andb].
    unfold attempt at 1. rewrite E2. cbn [Z.eqb NULL negb].
    unfold run_callbacks at 1. cbn [jmem_run_free_unused_memory_callbacks staged_registry
                                      severity_eqb andb].
    fold st2. rewrite Huse2, E3.
    unfold attempt at 1. rewrite E4.
    destruct (Z.eqb_spec p NULL) as [? | _]; [contradiction |]. cbn [negb].
    rewrite <- !app_assoc. reflexivity. }
  destruct (jmem_heap_limit st <=? jmem_heap_allocated_size st + size).
  - unfold run_callbacks at 1. cbn [jmem_run_free_unused_memory_callbacks staged_registry
                                      severity_eqb andb].
    rewrite Hstep. split; [reflexivity |]. split; [exact Hp |]. split; [reflexivity | exact Hlim].
  - rewrite Hstep. split; [reflexivity |]. split; [exact Hp |]. split; [reflexivity | exact Hlim].
Qed.

End Scenario.

(** ** Further properties of the allocator *)

Section InitFinal.
Context {cfg : Config} {reg : Registry}.

(** A chain that fills the room it has consists of one region. *)
Lemma chain_cover e l :
  config_ok -> chain e l -> l <> [] ->
  head_addr l JMEM_HEAP_END_OF_LIST + sum_sizes l <= last_end e l
  /\ (head_addr l JMEM_HEAP_END_OF_LIST + sum_sizes l = last_end e l ->
      exists n, l = [n]).
Proof.
  intros Hcfg Hc Hne. destruct l as [| [a s] r]; [congruence |].
  cbn [chain fst snd] in Hc. destruct Hc as (_ & _ & Hr).
  cbn [head_addr fst last_end snd]. rewrite sum_sizes_cons. cbn [snd].
  pose proof (chain_sum Hcfg _ _ Hr) as [_ Hs].
  split; [lia |]. intros E.
  destruct r as [| [b t] r']; [eauto |].
  cbn [chain fst snd] in Hr. destruct Hr as (Hlt & _ & Hr').
  pose proof (chain_sum Hcfg _ _ Hr') as [_ Hs'].
  cbn [last_end fst snd] in E. rewrite sum_sizes_cons in E. cbn [snd] in E. lia.
Qed.

(** The free list [jmem_heap_init] builds. *)
Lemma init_free_list (fuel : nat) (m : mem) :
  config_ok -> fuel_ok fuel ->
  free_list fuel (jmem_heap_init m) = Some [(area, JMEM_HEAP_AREA_SIZE)].
Proof.
  intros Hcfg Hf.
  assert (Ho : JMEM_HEAP_GET_OFFSET_FROM_ADDR area = area - offset_base)
    by (layout Hcfg; apply (offset_val Hcfg); lia).
  assert (Ho2 : 0 <= JMEM_HEAP_GET_OFFSET_FROM_ADDR JMEM_HEAP_END_OF_LIST < 2 ^ 32)
    by (layout Hcfg; apply (offset_range Hcfg); lia).
  apply (free_list_of_lrep Hcfg); [| | exact Hf].
  - layout Hcfg. unfold jmem_heap_init. cbn [heap_mem lrep fst snd head_addr].
    repeat split; mem_simpl; rewrite ?Ho; try reflexivity; apply to_uint32_small; lia.
  - layout Hcfg. cbn [chain fst snd]. unfold node_ok. cbn [fst snd].
    rewrite L_A8, L_area, L_asz, L_aend. repeat split; lia.
Qed.

(** X1.  [jmem_heap_init] leaves one free region, the whole area, linked
    after the sentinel; nothing is allocated, the limit is one step, the
    skip pointer is the sentinel, and apart from the two headers the
    memory is as it was. *)
Theorem init_single_region (fuel : nat) (m : mem) :
  config_ok -> fuel_ok fuel ->
  free_list fuel (jmem_heap_init m) = Some [(area, JMEM_HEAP_AREA_SIZE)]
  /\ jmem_heap_allocated_size (jmem_heap_init m) = 0
  /\ jmem_heap_limit (jmem_heap_init m) = CONFIG_MEM_HEAP_DESIRED_LIMIT
  /\ jmem_heap_list_skip_p (jmem_heap_init m) = first_p
  /\ get_size (heap_mem (jmem_heap_init m)) first_p = 0
  /\ (forall x, x <> first_p -> x <> first_p + 4 -> x <> area -> x <> area + 4 ->
        heap_mem (jmem_heap_init m) x = m x).
Proof.
  intros Hcfg Hf.
  split; [exact (init_free_list fuel m Hcfg Hf) |].
  split; [reflexivity |]. split; [reflexivity |]. split; [reflexivity |]. split.
  - layout Hcfg. unfold jmem_heap_init. cbn [heap_mem]. mem_simpl. reflexivity.
  - intros x H1 H2 H3 H4. unfold jmem_heap_init. cbn [heap_mem].
    unfold set_next_offset, set_size. rewrite !store_other by lia. reflexivity.
Qed.

(** X2.  In every state reached within the contract, that is from
    [jmem_heap_init] by allocation requests, stored-size requests whose
    padded and rounded size does not wrap in [size_t], frees of blocks
    in use and client writes to words in use, the assertion
    of [jmem_heap_finalize] holds exactly when the free list is back to
    the single region spanning the area: once every block is freed,
    coalescing has undone all fragmentation. *)
Theorem finalize_iff_whole_area (fuel : nat) (st : heap_state) :
  config_ok -> callbacks_ok -> fuel_ok fuel -> reachable st ->
  (jmem_heap_finalize st = true
   <-> free_list fuel st = Some [(area, JMEM_HEAP_AREA_SIZE)]).
Proof.
  intros Hcfg Hcb Hf Hreach.
  pose proof (reachable_wf Hcfg Hcb st Hreach) as Hwf.
  destruct (heap_wf_free_list Hcfg fuel st Hwf Hf) as (l & El & Hr & Hc & Hs & _).
  unfold jmem_heap_finalize. rewrite El, Z.eqb_eq. split.
  - intros E0. f_equal.
    destruct l as [| n r] eqn:Hl.
    { cbn in Hs. layout Hcfg. lia. }
    rewrite <- Hl in *.
    assert (Hne : l <> []) by (rewrite Hl; discriminate).
    destruct (chain_cover first_p l Hcfg Hc Hne) as [Hle Hone].
    pose proof (chain_last_end_bound Hcfg _ _ Hc) as Hb.
    pose proof (chain_head_range Hcfg _ _ Hc) as Hh.
    assert (Hhd : area <= head_addr l JMEM_HEAP_END_OF_LIST).
    { rewrite Hl. cbn [head_addr]. rewrite Hl in Hc. destruct Hc as (_ & Hok & _).
      apply Hok. }
    layout Hcfg.
    destruct Hone as [[a s] E1]; [lia |].
    rewrite E1 in *. cbn [head_addr fst] in *. rewrite sum_sizes_cons in *.
    cbn [snd sum_sizes fold_right] in *.
    f_equal. f_equal; lia.
  - intros E. injection E as ->. rewrite sum_sizes_cons in Hs.
    cbn [snd sum_sizes fold_right] in Hs. lia.
Qed.

(** X3.  In every state reached within the contract, that is from
    [jmem_heap_init] by allocation requests, stored-size requests whose
    padded and rounded size does not wrap in [size_t], frees of blocks
    in use and client writes to words in use, every free
    region starts at an aligned address of the area, has a size that is
    a positive multiple of the alignment, so there is room for its
    header, and ends inside the area; the sentinel keeps size zero. *)
Theorem free_regions_shape (fuel : nat) (st : heap_state) :
  config_ok -> callbacks_ok -> fuel_ok fuel -> reachable st ->
  get_size (heap_mem st) first_p = 0
  /\ exists l, free_list fuel st = Some l
       /\ Forall (fun n => area <= fst n /\ fst n mod JMEM_ALIGNMENT = 0
                           /\ sizeof_jmem_heap_free_t <= snd n
                           /\ snd n mod JMEM_ALIGNMENT = 0
                           /\ fst n + snd n <= area_end) l.
Proof.
  intros Hcfg Hcb Hf Hreach.
  pose proof (reachable_wf Hcfg Hcb st Hreach) as Hwf.
  destruct (heap_wf_free_list Hcfg fuel st Hwf Hf) as (l & El & Hr & Hc & _).
  split; [apply Hr |].
  exists l. split; [exact El |].
  apply Forall_forall. intros n Hn.
  destruct (chain_In Hcfg _ _ _ Hc Hn) as [_ Hok].
  pose proof (node_ok_facts Hcfg _ Hok) as Hfacts.
  layout Hcfg. rewrite L_area, L_aend. lia.
Qed.

End InitFinal.

Lemma last_In {A} (l : list A) d : last l d = d \/ In (last l d) l.
Proof.
  revert d. induction l as [| x l IH]; intros d; [left; reflexivity |].
  rewrite last_cons. right. destruct (IH x) as [-> | H]; [left; reflexivity | right; exact H].
Qed.

Section Keep.
Context {cfg : Config}.
Hypothesis Hcfg : config_ok.

(** What [word_in_use] says, in [Prop]. *)
Lemma word_in_use_iff fuel st x l :
  free_list fuel st = Some l ->
  (word_in_use fuel st x = true
   <-> x mod 4 = 0 /\ heap_base + 8 <= x /\ x + 4 <= heap_base + JMEM_HEAP_SIZE
       /\ Forall (fun n => fst n + snd n <= x \/ x + 4 <= fst n) l).
Proof.
  intros El. unfold word_in_use. rewrite El. layout Hcfg. rewrite L_area, L_aend.
  rewrite !andb_true_iff, Z.eqb_eq, !Z.leb_le, forallb_forall, Forall_forall.
  split.
  - intros [[[H1 H2] H3] H4]. repeat split; auto.
    intros n Hn. specialize (H4 n Hn). apply orb_true_iff in H4.
    rewrite !Z.leb_le in H4. exact H4.
  - intros (H1 & H2 & H3 & H4). repeat split; auto.
    intros n Hn. specialize (H4 n Hn). apply orb_true_iff.
    rewrite !Z.leb_le. exact H4.
Qed.

(** Regions that stay clear of an interval still do so once merged. *)
Lemma join_next_clear q aq n l :
  0 < aq ->
  (fst n + snd n <= q \/ q + aq <= fst n) ->
  Forall (fun n => fst n + snd n <= q \/ q + aq <= fst n) l ->
  Forall (fun n => fst n + snd n <= q \/ q + aq <= fst n) (join_next n l).
Proof.
  intros Haq Hn Hl. destruct l as [| x r]; cbn [join_next].
  - constructor; [exact Hn | constructor].
  - apply Forall_cons_iff in Hl. destruct Hl as [Hx Hr].
    destruct (Z.eqb_spec (fst n + snd n) (fst x)) as [E | _].
    + constructor; [cbn [fst snd]; lia | exact Hr].
    + constructor; [exact Hn |]. constructor; [exact Hx | exact Hr].
Qed.

Lemma free_insert_clear q aq p asz l :
  0 < aq ->
  (p + asz <= q \/ q + aq <= p) ->
  Forall (fun n => fst n + snd n <= q \/ q + aq <= fst n) l ->
  Forall (fun n => fst n + snd n <= q \/ q + aq <= fst n) (free_insert p asz l).
Proof.
  intros Haq Hp. induction l as [| n l IH]; intros Hl; cbn [free_insert].
  - constructor; [exact Hp | constructor].
  - destruct (fst n <? p).
    + apply Forall_cons_iff in Hl. destruct Hl as [Hn Hl].
      apply join_next_clear; auto.
    + apply join_next_clear; auto.
Qed.

(** Putting back what was carved from a region gives the region back. *)
Lemma free_insert_carve e l1 a s l2 req :
  chain e (l1 ++ (a, s) :: l2) -> 0 < req <= s ->
  free_insert a req (l1 ++ carve_nodes a s req ++ l2) = l1 ++ (a, s) :: l2.
Proof.
  intros Hc Hreq. revert e Hc. induction l1 as [| n l1 IH]; intros e Hc; cbn [app].
  - cbn [app chain fst snd] in Hc. destruct Hc as (_ & Hok & Hc2).
    pose proof (node_ok_facts Hcfg _ Hok) as Hf. cbn [fst snd] in Hf.
    unfold carve_nodes. destruct (Z.ltb_spec req s) as [Hlt | Hge]; cbn [app free_insert fst].
    + destruct (Z.ltb_spec (a + req) a); [lia |].
      cbn [join_next fst snd]. rewrite Z.eqb_refl. f_equal. f_equal. lia.
    + assert (req = s) by lia. subst req.
      rewrite free_insert_above.
      * apply join_next_far. intros x r ->. cbn [fst snd].
        cbn [chain] in Hc2. lia.
      * destruct l2 as [| x r]; cbn [head_addr].
        -- layout Hcfg. lia.
        -- cbn [chain] in Hc2. lia.
  - cbn [app chain] in Hc. destruct Hc as (_ & Hnok & Hc).
    pose proof (node_ok_facts Hcfg _ Hnok) as Hnf.
    assert (Ha : In (a, s) (l1 ++ (a, s) :: l2)) by (apply in_or_app; right; left; reflexivity).
    destruct (chain_In Hcfg _ _ _ Hc Ha) as [Hlt _]. cbn [fst] in Hlt.
    cbn [free_insert]. destruct (Z.ltb_spec (fst n) a); [| lia].
    rewrite (IH _ Hc). apply join_next_far. intros x r Ex.
    pose proof (chain_head_le Hcfg _ _ x Hc) as Hh.
    rewrite Ex in Hc. cbn [chain] in Hc. lia.
Qed.

End Keep.

Section KeepAlloc.
Context {cfg : Config}.
Hypothesis Hcfg : config_ok.

(** The internal allocation leaves the blocks and the words in use as
    they are, and what it returns is clear of them. *)
Lemma alloc_internal_keeps fuel size st p st' :
  heap_wf st -> fuel_ok fuel ->
  jmem_heap_alloc_block_internal fuel size st = Some (p, st') ->
  (forall q qsize, block_in_use fuel st q qsize = true ->
      block_in_use fuel st' q qsize = true
      /\ (p <> NULL -> q + align_size qsize <= p \/ p + align_size size <= q))
  /\ (forall x, word_in_use fuel st x = true ->
      word_in_use fuel st' x = true /\ heap_mem st' x = heap_mem st x).
Proof.
  intros Hwf Hf E.
  destruct (heap_wf_free_list Hcfg fuel st Hwf Hf) as (l & El & Hr & Hc & Hs & Hk & Hl).
  destruct (alloc_internal_spec Hcfg fuel size st l Hr Hc Hs Hk Hl Hf)
    as [(Hall & lim & E1 & _)
       | (l1 & a & s & l2 & st1 & Esplit & Hall & Hfit & E1 & Hcv & Hr1 & Hc1 & Ha
          & Hk1 & Hl1 & _)];
    rewrite E1 in E; injection E as <- <-.
  - split.
    + intros q qsize Hq. split; [exact Hq | intros H; contradiction].
    + intros x Hx. split; [exact Hx | reflexivity].
  - pose proof (free_list_of_lrep Hcfg st1 _ fuel Hr1 Hc1 Hf) as El1.
    destruct (align_size_facts Hcfg size) as [Hreq0 Hreq8].
    set (req := align_size size) in *.
    destruct (prev_split l1) as (pre & pa & ps & Epre & Epa).
    assert (E : (first_p, 0) :: l = pre ++ (pa, ps) :: (a, s) :: l2).
    { rewrite Esplit. change ((first_p, 0) :: l1 ++ (a, s) :: l2)
        with (((first_p, 0) :: l1) ++ (a, s) :: l2).
      rewrite Epre, <- app_assoc. reflexivity. }
    destruct (suffix_facts Hcfg _ _ _ _ _ _ _ _ Hc Hr E)
      as (_ & _ & _ & _ & _ & Hp1 & Hp2 & Hp3 & Ha1 & Ha2 & Hs1 & Hs2 & Ha3).
    assert (Hin : In (a, s) l) by (rewrite Esplit; apply in_or_app; right; left; reflexivity).
    (* regions clear of an interval stay so *)
    assert (Hclear : forall q aq, 0 < aq ->
              Forall (fun n => fst n + snd n <= q \/ q + aq <= fst n) l ->
              Forall (fun n => fst n + snd n <= q \/ q + aq <= fst n)
                     (l1 ++ carve_nodes a s req ++ l2)
              /\ (q + aq <= a \/ a + req <= q)).
    { intros q aq Haq Hd. rewrite Forall_forall in Hd.
      pose proof (Hd _ Hin) as Hda. cbn [fst snd] in Hda.
      split; [| lia].
      apply Forall_forall. intros n Hn.
      apply in_app_or in Hn. destruct Hn as [Hn | Hn].
      - apply Hd. rewrite Esplit. apply in_or_app. left. exact Hn.
      - apply in_app_or in Hn. destruct Hn as [Hn | Hn].
        + unfold carve_nodes in Hn. destruct (req <? s); [| destruct Hn].
          destruct Hn as [<- | []]. cbn [fst snd]. lia.
        + apply Hd. rewrite Esplit. apply in_or_app. right. right. exact Hn. }
    split.
    + intros q qsize Hq.
      destruct (block_in_use_facts Hcfg fuel st q qsize l El Hq)
        as (Hsize & Hq8 & Hq0 & Hqend & Hdisj).
      assert (Haq : 0 < align_size qsize).
      { rewrite (align_size_val Hcfg) by (pose proof pow_ptr_bits_ge; layout Hcfg; lia).
        lia. }
      destruct (Hclear q (align_size qsize) Haq Hdisj) as [Hnew Hsep].
      split; [| intros _; lia].
      apply (block_in_use_intro Hcfg fuel st1 q qsize _ El1); auto.
    + intros x Hx.
      apply (word_in_use_iff Hcfg fuel st x l El) in Hx.
      destruct Hx as (Hx4 & Hx0 & Hxe & Hd).
      destruct (Hclear x 4 ltac:(lia) Hd) as [Hnew Hsep].
      split.
      * apply (word_in_use_iff Hcfg fuel st1 x _ El1). auto.
      * (* the words the allocation writes are headers of free regions *)
        assert (Hxpa : x <> pa).
        { assert (Hpin : In (pa, ps) ((first_p, 0) :: l)).
          { rewrite E. apply in_or_app. right. left. reflexivity. }
          destruct Hpin as [Hp | Hp].
          - injection Hp as <- _. unfold first_p. lia.
          - destruct (chain_In Hcfg _ _ _ Hc Hp) as [_ Hok].
            apply (node_ok_facts Hcfg) in Hok. cbn [fst snd] in Hok.
            rewrite Forall_forall in Hd. specialize (Hd _ Hp). cbn [fst snd] in Hd. lia. }
        rewrite Epa in Hxpa.
        pose proof (proj1 (Forall_forall _ _) Hd _ Hin) as Hda. cbn [fst snd] in Hda.
        unfold carved in Hcv. fold req in Hcv.
        destruct (Z.ltb_spec req s) as [Hlt | Hge].
        -- destruct Hcv as (_ & _ & _ & Hfr). apply Hfr; lia.
        -- destruct Hcv as (_ & Hfr). apply Hfr. exact Hxpa.
Qed.

End KeepAlloc.

Section PublicAlloc.
Context {cfg : Config} {reg : Registry}.

(** X4.  A successful allocation returns an aligned heap pointer to a
    block that lies in the area and, in the state it leaves, is in use:
    no free region overlaps it. *)
Theorem alloc_block_geometry (fuel : nat) (size : Z) (st : heap_state)
        (p : Z) (st' : heap_state) (log : list event) :
  config_ok -> callbacks_ok -> fuel_ok fuel -> reachable st ->
  0 < size -> size + JMEM_ALIGNMENT - 1 < 2 ^ ptr_bits ->
  jmem_heap_alloc_block_null_on_error fuel size st = Some (p, st', log) ->
  p <> NULL ->
  p mod JMEM_ALIGNMENT = 0
  /\ jmem_is_heap_pointer p = true
  /\ area <= p /\ p + size <= area_end
  /\ block_in_use fuel st' p size = true.
Proof.
  intros Hcfg Hcb Hf Hreach Hsize Hwrap E Hp.
  pose proof (reachable_wf Hcfg Hcb st Hreach) as Hwf.
  unfold jmem_heap_alloc_block_null_on_error in E.
  destruct (Z.eqb_spec size 0) as [| _]; [lia |].
  destruct (gc_and_alloc_block_facts Hcfg Hcb fuel size st p st' log Hwf Hf E)
    as (Hwf' & Hfacts).
  destruct (Hfacts Hp) as (Hp0 & Hp8 & Hpe & _ & l' & El' & Hd).
  layout Hcfg.
  assert (Easz : align_size size = (size + 7) / 8 * 8)
    by (apply (align_size_val Hcfg); lia).
  rewrite L_area, L_aend. unfold jmem_is_heap_pointer. rewrite L_area, L_asz.
  split; [lia |]. split; [apply andb_true_iff; rewrite !Z.leb_le; lia |].
  split; [lia |]. split; [lia |].
  apply (block_in_use_intro Hcfg fuel st' p size l' El'); auto; lia.
Qed.


(** X6.  An allocation writes no word that is in use: the word stays in
    use and keeps its value, provided the reclamation callbacks run by
    the request leave it so. *)
Theorem alloc_keeps_contents (fuel : nat) (size : Z) (st : heap_state)
        (p : Z) (st' : heap_state) (log : list event) (x : Z) :
  config_ok -> callbacks_ok -> fuel_ok fuel -> reachable st ->
  (forall s y z, heap_wf y -> word_in_use fuel y x = true ->
                 jmem_run_free_unused_memory_callbacks s y = Some z ->
                 word_in_use fuel z x = true /\ heap_mem z x = heap_mem y x) ->
  word_in_use fuel st x = true ->
  jmem_heap_alloc_block_null_on_error fuel size st = Some (p, st', log) ->
  word_in_use fuel st' x = true /\ heap_mem st' x = heap_mem st x.
Proof.
  intros Hcfg Hcb Hf Hreach Hkeep Hx E.
  pose proof (reachable_wf Hcfg Hcb st Hreach) as Hwf.
  unfold jmem_heap_alloc_block_null_on_error in E.
  destruct (Z.eqb_spec size 0) as [_ | _].
  { injection E as <- <- _. split; [exact Hx | reflexivity]. }
  destruct (gc_and_alloc_spec Hcfg Hcb fuel size st Hwf Hf)
    as (p0 & st0 & log0 & E0 & _ & _ & _ & HR).
  rewrite E0 in E. injection E as -> -> _.
  destruct (HR (fun y => word_in_use fuel y x = true /\ heap_mem y x = heap_mem st x)
              (conj Hx eq_refl)) as [HN HS].
  { split.
    - intros s y z Hwy [Hy Ey] Ec. destruct (Hkeep s y z Hwy Hy Ec) as [Hz Ez].
      split; [exact Hz | congruence].
    - intros y lim H. exact H. }
  destruct (Z.eq_dec p NULL) as [Ep | Np].
  - exact (HN Ep).
  - destruct (HS Np) as (st_mid & [Hmid Emid] & Hwfm & Ei).
    destruct (alloc_internal_keeps Hcfg fuel size st_mid p st' Hwfm Hf Ei) as [_ Hw].
    destruct (Hw x Hmid) as [H1 H2]. split; [exact H1 | congruence].
Qed.

End PublicAlloc.

Section FreeFacts.
Context {cfg : Config}.
Hypothesis Hcfg : config_ok.

(** The loop that lowers the limit stops below one step over the
    allocated size. *)
Lemma limit_shrink_stop fuel a lim lim' :
  limit_shrink fuel a lim = Some lim' ->
  lim' < to_size_t (a + CONFIG_MEM_HEAP_DESIRED_LIMIT).
Proof.
  revert lim. induction fuel as [| fuel IH]; intros lim E; [discriminate |].
  cbn [limit_shrink] in E.
  destruct (Z.leb_spec (to_size_t (a + CONFIG_MEM_HEAP_DESIRED_LIMIT)) lim) as [Hle | Hgt].
  - exact (IH _ E).
  - injection E as <-. exact Hgt.
Qed.

(** Freeing a block in use on a well-formed heap, for the clients of
    the heap. *)
Lemma free_block_effect fuel p size st l :
  heap_wf st -> fuel_ok fuel -> free_list fuel st = Some l ->
  block_in_use fuel st p size = true ->
  exists st',
    jmem_heap_free_block fuel p size st = Some st'
    /\ heap_wf st'
    /\ free_list fuel st' = Some (free_insert p (align_size size) l)
    /\ jmem_heap_allocated_size st' = jmem_heap_allocated_size st - align_size size
    /\ jmem_heap_limit st' <= jmem_heap_limit st
    /\ jmem_heap_limit st' < jmem_heap_allocated_size st' + CONFIG_MEM_HEAP_DESIRED_LIMIT
    /\ In (jmem_heap_list_skip_p st') (map fst ((first_p, 0) :: l))
    /\ jmem_heap_list_skip_p st' < p
    /\ (forall n, In n l -> fst n < p -> fst n <= jmem_heap_list_skip_p st')
    /\ (forall x, word_in_use fuel st x = true -> x <> p -> x <> p + 4 ->
                  heap_mem st' x = heap_mem st x).
Proof.
  intros Hwf Hf El Huse.
  destruct (heap_wf_free_list Hcfg fuel st Hwf Hf) as (l0 & El0 & Hr & Hc & Hs & Hk & Hl).
  assert (l0 = l) by congruence. subst l0.
  destruct (free_block_full Hcfg fuel p size st l Hr Hc Hs Hk Hl Hf Huse)
    as (st' & l' & E & Hr' & Hc' & Hs' & Ha' & Hk' & Hl' & Hle & _ & Eins
        & pre & pa & ps & post & Esplit & Hbelow & Hpost & Eskip & Hframe).
  exists st'. split; [exact E |].
  pose proof (free_list_of_lrep Hcfg st' l' fuel Hr' Hc' Hf) as El'.
  assert (Hwf' : heap_wf st').
  { exists l'. split; [exact Hr' |]. split; [exact Hc' |]. split; [lia |].
    split; [apply skip_ok_full; exact Hk' | exact Hl']. }
  split; [exact Hwf' |]. split; [rewrite El', Eins; reflexivity |].
  split; [exact Ha' |]. split; [exact Hle |].
  destruct (split_facts Hcfg _ _ _ _ _ Hc Esplit) as (Hpre & Hcpost & _).
  assert (Hpin : In (pa, ps) ((first_p, 0) :: l)).
  { rewrite Esplit. apply in_or_app. right. left. reflexivity. }
  assert (Hpalt : pa < p).
  { apply (Hbelow (pa, ps)). apply in_or_app. right. left. reflexivity. }
  split.
  { (* the limit *)
    unfold jmem_heap_free_block in E.
    destruct (free_find_prev fuel (heap_mem st) _ _) as [prev_p |]; [| discriminate].
    destruct (free_link _ _ _ _ _ _ _) as [m2 skip1].
    destruct (limit_shrink fuel _ (jmem_heap_limit st)) as [lim |] eqn:Esh; [| discriminate].
    injection E as <-. cbn [jmem_heap_limit jmem_heap_allocated_size] in *.
    apply limit_shrink_stop in Esh.
    pose proof (chain_sum_area Hcfg _ _ Hc) as Hb.
    pose proof (chain_sum_area Hcfg _ _ Hc') as Hb'.
    layout Hcfg.
    rewrite (to_size_t_small32 (jmem_heap_allocated_size st - align_size size)) in Esh by lia.
    rewrite to_size_t_small32 in Esh by lia. lia. }
  split.
  { rewrite Eskip. change pa with (fst (pa, ps)). apply in_map. exact Hpin. }
  split; [rewrite Eskip; exact Hpalt |].
  split.
  { intros n Hn Hlt. rewrite Eskip.
    assert (Hn' : In n (pre ++ (pa, ps) :: post)) by (rewrite <- Esplit; right; exact Hn).
    apply in_app_or in Hn'. destruct Hn' as [Hn' | [<- | Hn']].
    - specialize (Hpre n Hn'). lia.
    - cbn [fst]. lia.
    - pose proof (chain_head_le Hcfg _ _ _ Hcpost Hn'). lia. }
  intros x Hx Hxp Hxp4.
  apply (word_in_use_iff Hcfg fuel st x l El) in Hx.
  destruct Hx as (Hx4 & Hx0 & Hxe & Hd).
  apply Hframe; try lia.
  - destruct Hpin as [Hp | Hp].
    + injection Hp as <- _. unfold first_p. lia.
    + destruct (chain_In Hcfg _ _ _ Hc Hp) as [_ Hok].
      apply (node_ok_facts Hcfg) in Hok. cbn [fst snd] in Hok.
      rewrite Forall_forall in Hd. specialize (Hd _ Hp). cbn [fst snd] in Hd. lia.
  - destruct Hpin as [Hp | Hp].
    + injection Hp as <- _. unfold first_p. lia.
    + destruct (chain_In Hcfg _ _ _ Hc Hp) as [_ Hok].
      apply (node_ok_facts Hcfg) in Hok. cbn [fst snd] in Hok.
      rewrite Forall_forall in Hd. specialize (Hd _ Hp). cbn [fst snd] in Hd. lia.
Qed.

(** Blocks and words in use outside the freed block stay in use. *)
Lemma free_block_keeps fuel p size st st' :
  heap_wf st -> fuel_ok fuel -> block_in_use fuel st p size = true ->
  jmem_heap_free_block fuel p size st = Some st' ->
  (forall q qsize, block_in_use fuel st q qsize = true ->
      q + align_size qsize <= p \/ p + align_size size <= q ->
      block_in_use fuel st' q qsize = true)
  /\ (forall x, word_in_use fuel st x = true ->
      x + 4 <= p \/ p + align_size size <= x ->
      word_in_use fuel st' x = true).
Proof.
  intros Hwf Hf Huse E.
  destruct (heap_wf_free_list Hcfg fuel st Hwf Hf) as (l & El & _).
  destruct (free_block_effect fuel p size st l Hwf Hf El Huse)
    as (st1 & E1 & _ & El1 & _).
  rewrite E1 in E. injection E as <-.
  split.
  - intros q qsize Hq Hsep.
    destruct (block_in_use_facts Hcfg fuel st q qsize l El Hq)
      as (Hsize & Hq8 & Hq0 & Hqend & Hdisj).
    assert (Haq : 0 < align_size qsize).
    { rewrite (align_size_val Hcfg) by (pose proof pow_ptr_bits_ge; layout Hcfg; lia).
      lia. }
    apply (block_in_use_intro Hcfg fuel st1 q qsize _ El1); auto.
    apply free_insert_clear; auto. lia.
  - intros x Hx Hsep.
    apply (word_in_use_iff Hcfg fuel st x l El) in Hx.
    destruct Hx as (Hx4 & Hx0 & Hxe & Hd).
    apply (word_in_use_iff Hcfg fuel st1 x _ El1).
    split; [exact Hx4 |]. split; [exact Hx0 |]. split; [exact Hxe |].
    apply free_insert_clear; auto; lia.
Qed.

(** An allocation undone by the free of its block. *)
Lemma alloc_free_internal fuel size st p st1 :
  heap_wf st -> fuel_ok fuel ->
  0 < size -> size + 7 < 2 ^ ptr_bits ->
  jmem_heap_alloc_block_internal fuel size st = Some (p, st1) -> p <> NULL ->
  exists st2,
    jmem_heap_free_block fuel p size st1 = Some st2
    /\ free_list fuel st2 = free_list fuel st
    /\ jmem_heap_allocated_size st2 = jmem_heap_allocated_size st.
Proof.
  intros Hwf Hf Hsize Hwrap E Hp.
  destruct (heap_wf_free_list Hcfg fuel st Hwf Hf) as (l & El & Hr & Hc & Hs & Hk & Hl).
  destruct (alloc_internal_spec Hcfg fuel size st l Hr Hc Hs Hk Hl Hf)
    as [(Hall & lim & E1 & _)
       | (l1 & a & s & l2 & st' & Esplit & Hall & Hfit & E1 & Hcv & Hr1 & Hc1 & Ha
          & Hk1 & Hl1 & _)];
    rewrite E1 in E; injection E as <- <-; [contradiction |].
  pose proof (free_list_of_lrep Hcfg st' _ fuel Hr1 Hc1 Hf) as El1.
  assert (Easz : align_size size = (size + 7) / 8 * 8)
    by (apply (align_size_val Hcfg); lia).
  assert (Hwf1 : heap_wf st').
  { exists (l1 ++ carve_nodes a s (align_size size) ++ l2).
    split; [exact Hr1 |]. split; [exact Hc1 |]. split; [| split; [exact Hk1 | lia]].
    rewrite Ha, Esplit in *. rewrite !sum_sizes_app, sum_sizes_cons in *.
    cbn [snd] in *. unfold carve_nodes.
    destruct (Z.ltb_spec (align_size size) s);
      cbn [sum_sizes fold_right snd]; lia. }
  assert (Hin : In (a, s) l) by (rewrite Esplit; apply in_or_app; right; left; reflexivity).
  destruct (chain_In Hcfg _ _ _ Hc Hin) as [_ Hok].
  apply (node_ok_facts Hcfg) in Hok. cbn [fst snd] in Hok.
  assert (Huse : block_in_use fuel st' a size = true).
  { apply (block_in_use_intro Hcfg fuel st' a size _ El1); try lia.
    rewrite Esplit in Hc.
    apply (carved_block_free Hcfg l1 a s l2 (align_size size) Hc). lia. }
  destruct (free_block_effect fuel a size st' _ Hwf1 Hf El1 Huse)
    as (st2 & E2 & _ & El2 & Ha2 & _).
  exists st2. split; [exact E2 |]. split; [| lia].
  rewrite El2, El, Esplit. f_equal.
  rewrite Esplit in Hc.
  apply (free_insert_carve Hcfg first_p); [exact Hc | lia].
Qed.

End FreeFacts.

Section PublicFree.
Context {cfg : Config} {reg : Registry}.

(** X7.  [jmem_heap_free_block] puts the block back into the free list
    at its place by address, merged with the region before it when that
    one ends at the block and with the region after it when the block
    ends at its start: the new list is [free_insert] of the old one. *)
Theorem free_block_coalesces (fuel : nat) (p size : Z) (st : heap_state)
        (l : list (Z * Z)) :
  config_ok -> callbacks_ok -> fuel_ok fuel -> reachable st ->
  free_list fuel st = Some l ->
  block_in_use fuel st p size = true ->
  exists st',
    jmem_heap_free_block fuel p size st = Some st'
    /\ free_list fuel st' = Some (free_insert p (align_size size) l)
    /\ jmem_heap_allocated_size st' = jmem_heap_allocated_size st - align_size size.
Proof.
  intros Hcfg Hcb Hf Hreach El Huse.
  pose proof (reachable_wf Hcfg Hcb st Hreach) as Hwf.
  destruct (free_block_effect Hcfg fuel p size st l Hwf Hf El Huse)
    as (st' & E & _ & El' & Ha & _).
  exists st'. auto.
Qed.

(** X8.  After a free the skip pointer is the node the block was linked
    behind: the sentinel or the free region with the highest address
    below the block. *)
Theorem free_skip_is_predecessor (fuel : nat) (p size : Z) (st st' : heap_state)
        (l : list (Z * Z)) :
  config_ok -> callbacks_ok -> fuel_ok fuel -> reachable st ->
  free_list fuel st = Some l ->
  block_in_use fuel st p size = true ->
  jmem_heap_free_block fuel p size st = Some st' ->
  (jmem_heap_list_skip_p st' = first_p \/ In (jmem_heap_list_skip_p st') (map fst l))
  /\ jmem_heap_list_skip_p st' < p
  /\ (forall n, In n l -> fst n < p -> fst n <= jmem_heap_list_skip_p st').
Proof.
  intros Hcfg Hcb Hf Hreach El Huse E.
  pose proof (reachable_wf Hcfg Hcb st Hreach) as Hwf.
  destruct (free_block_effect Hcfg fuel p size st l Hwf Hf El Huse)
    as (st1 & E1 & _ & _ & _ & _ & _ & Hin & Hlt & Hmax & _).
  rewrite E1 in E. injection E as <-.
  split; [| split; [exact Hlt | exact Hmax]].
  cbn [map fst] in Hin. destruct Hin as [H | H]; [left; symmetry; exact H | right; exact H].
Qed.

(** X9.  A free touches nothing else that is in use: a block in use
    that does not overlap the freed one stays in use, and every word in
    use keeps its value, except the two header words at the start of the
    freed block. *)
Theorem free_keeps_others (fuel : nat) (p size : Z) (st st' : heap_state) :
  config_ok -> callbacks_ok -> fuel_ok fuel -> reachable st ->
  block_in_use fuel st p size = true ->
  jmem_heap_free_block fuel p size st = Some st' ->
  (forall q qsize, block_in_use fuel st q qsize = true ->
      q + align_size qsize <= p \/ p + align_size size <= q ->
      block_in_use fuel st' q qsize = true)
  /\ (forall x, word_in_use fuel st x = true -> x <> p -> x <> p + 4 ->
      heap_mem st' x = heap_mem st x)
  /\ (forall x, word_in_use fuel st x = true ->
      x + 4 <= p \/ p + align_size size <= x ->
      word_in_use fuel st' x = true).
Proof.
  intros Hcfg Hcb Hf Hreach Huse E.
  pose proof (reachable_wf Hcfg Hcb st Hreach) as Hwf.
  destruct (free_block_keeps Hcfg fuel p size st st' Hwf Hf Huse E) as [Hb Hw].
  destruct (heap_wf_free_list Hcfg fuel st Hwf Hf) as (l & El & _).
  destruct (free_block_effect Hcfg fuel p size st l Hwf Hf El Huse)
    as (st1 & E1 & _ & _ & _ & _ & _ & _ & _ & _ & Hm).
  rewrite E1 in E. injection E as <-.
  split; [exact Hb |]. split; [exact Hm | exact Hw].
Qed.

(** X10.  The limit follows the allocated size within one step: it is
    never below it and never more than [CONFIG_MEM_HEAP_DESIRED_LIMIT]
    above it; a successful allocation leaves it strictly above, a free
    leaves it less than one step above and never raises it. *)
Theorem limit_window (fuel : nat) (st : heap_state) :
  config_ok -> callbacks_ok -> fuel_ok fuel -> reachable st ->
  jmem_heap_allocated_size st <= jmem_heap_limit st
    <= jmem_heap_allocated_size st + CONFIG_MEM_HEAP_DESIRED_LIMIT
  /\ (forall size p st' log,
        jmem_heap_alloc_block_null_on_error fuel size st = Some (p, st', log) ->
        p <> NULL -> jmem_heap_allocated_size st' < jmem_heap_limit st')
  /\ (forall p size st',
        block_in_use fuel st p size = true ->
        jmem_heap_free_block fuel p size st = Some st' ->
        jmem_heap_limit st' < jmem_heap_allocated_size st' + CONFIG_MEM_HEAP_DESIRED_LIMIT
        /\ jmem_heap_limit st' <= jmem_heap_limit st).
Proof.
  intros Hcfg Hcb Hf Hreach.
  pose proof (reachable_wf Hcfg Hcb st Hreach) as Hwf.
  destruct (heap_wf_free_list Hcfg fuel st Hwf Hf) as (l & El & _ & _ & _ & _ & Hl).
  split; [exact Hl |]. split.
  - intros size p st' log E Hp.
    unfold jmem_heap_alloc_block_null_on_error in E.
    destruct (Z.eqb_spec size 0) as [_ | _].
    { injection E as <- _ _. contradiction. }
    destruct (gc_and_alloc_block_facts Hcfg Hcb fuel size st p st' log Hwf Hf E)
      as (_ & Hfacts).
    apply (Hfacts Hp).
  - intros p size st' Huse E.
    destruct (free_block_effect Hcfg fuel p size st l Hwf Hf El Huse)
      as (st1 & E1 & _ & _ & _ & Hle & Hlt & _).
    rewrite E1 in E. injection E as <-. split; [exact Hlt | exact Hle].
Qed.

(** X11.  For a size above zero whose rounding to the alignment does
    not wrap in [size_t], a successful allocation followed by the free
    of the block it returned, with the same size, gives back the free
    list and the allocated size there were before, when the reclamation
    callbacks run by the request change neither. *)
Theorem alloc_free_roundtrip (fuel : nat) (size : Z) (st : heap_state)
        (p : Z) (st1 : heap_state) (log : list event) :
  config_ok -> callbacks_ok -> fuel_ok fuel -> reachable st ->
  (forall s x y, jmem_run_free_unused_memory_callbacks s x = Some y ->
                 free_list fuel y = free_list fuel x
                 /\ jmem_heap_allocated_size y = jmem_heap_allocated_size x) ->
  0 < size -> size + JMEM_ALIGNMENT - 1 < 2 ^ ptr_bits ->
  jmem_heap_alloc_block_null_on_error fuel size st = Some (p, st1, log) ->
  p <> NULL ->
  exists st2,
    jmem_heap_free_block fuel p size st1 = Some st2
    /\ free_list fuel st2 = free_list fuel st
    /\ jmem_heap_allocated_size st2 = jmem_heap_allocated_size st.
Proof.
  intros Hcfg Hcb Hf Hreach Hquiet Hsize Hwrap E Hp.
  pose proof (reachable_wf Hcfg Hcb st Hreach) as Hwf.
  unfold jmem_heap_alloc_block_null_on_error in E.
  destruct (Z.eqb_spec size 0) as [| _]; [lia |].
  destruct (gc_and_alloc_spec Hcfg Hcb fuel size st Hwf Hf)
    as (p0 & st0 & log0 & E0 & _ & _ & _ & HR).
  rewrite E0 in E. injection E as -> -> _.
  destruct (HR (fun x => free_list fuel x = free_list fuel st
                         /\ jmem_heap_allocated_size x = jmem_heap_allocated_size st)
              (conj eq_refl eq_refl)) as [_ HS].
  { split.
    - intros s x y _ [H1 H2] Ec. destruct (Hquiet s x y Ec) as [H3 H4].
      split; congruence.
    - intros x lim H. exact H. }
  destruct (HS Hp) as (st_mid & [Hm1 Hm2] & Hwfm & Ei).
  layout Hcfg.
  destruct (alloc_free_internal Hcfg fuel size st_mid p st1 Hwfm Hf Hsize ltac:(lia) Ei Hp)
    as (st2 & E2 & H1 & H2).
  exists st2. split; [exact E2 |]. split; congruence.
Qed.

End PublicFree.

Section Contract.
Context {cfg : Config} {reg : Registry}.

(** X28.  Conservation within the contract.  In every state reached
    from [jmem_heap_init] by allocation requests, stored-size requests
    whose padded and rounded size does not wrap in [size_t], frees of
    blocks in use and client writes to words in use,
    [jmem_heap_allocated_size] equals [JMEM_HEAP_AREA_SIZE] minus the
    sizes of the free-list nodes.  From such a state every allocation
    request returns and leaves the equality true; the internal
    allocation adds the rounded size to [jmem_heap_allocated_size] when
    it succeeds and nothing when it fails; the free of a block in use
    returns, takes the rounded size off [jmem_heap_allocated_size] and
    adds it to the free sizes. *)
Theorem conservation (fuel : nat) (st : heap_state) :
  config_ok -> callbacks_ok -> fuel_ok fuel -> reachable st ->
  exists l,
    free_list fuel st = Some l
    /\ jmem_heap_allocated_size st = JMEM_HEAP_AREA_SIZE - sum_sizes l
    /\ (forall size, 0 <= size < 2 ^ ptr_bits ->
          exists p st' log l',
            jmem_heap_alloc_block_null_on_error fuel size st = Some (p, st', log)
            /\ free_list fuel st' = Some l'
            /\ jmem_heap_allocated_size st' = JMEM_HEAP_AREA_SIZE - sum_sizes l')
    /\ (forall size,
          exists p st' l',
            jmem_heap_alloc_block_internal fuel size st = Some (p, st')
            /\ free_list fuel st' = Some l'
            /\ jmem_heap_allocated_size st' = JMEM_HEAP_AREA_SIZE - sum_sizes l'
            /\ jmem_heap_allocated_size st'
               = jmem_heap_allocated_size st + (if p =? NULL then 0 else align_size size))
    /\ (forall p size, block_in_use fuel st p size = true ->
          exists st' l',
            jmem_heap_free_block fuel p size st = Some st'
            /\ free_list fuel st' = Some l'
            /\ jmem_heap_allocated_size st' = JMEM_HEAP_AREA_SIZE - sum_sizes l'
            /\ jmem_heap_allocated_size st' = jmem_heap_allocated_size st - align_size size
            /\ sum_sizes l' = sum_sizes l + align_size size).
Proof.
  intros Hcfg Hcb Hf Hreach.
  assert (Hcons : forall s, heap_wf s ->
            exists l, free_list fuel s = Some l
                      /\ jmem_heap_allocated_size s = JMEM_HEAP_AREA_SIZE - sum_sizes l).
  { intros s Hwf. destruct (heap_wf_free_list Hcfg fuel s Hwf Hf) as (l & E & _ & _ & H & _).
    exists l. split; [exact E | lia]. }
  pose proof (reachable_wf Hcfg Hcb st Hreach) as Hwf.
  destruct (Hcons st Hwf) as (l & El & Hl).
  exists l. split; [exact El |]. split; [exact Hl |]. split; [| split].
  - intros size Hsize. unfold jmem_heap_alloc_block_null_on_error.
    destruct (size =? 0).
    + exists NULL, st, [], l. auto.
    + destruct (gc_and_alloc_spec Hcfg Hcb fuel size st Hwf Hf)
        as (p & st' & log & E & Hwf' & _).
      destruct (Hcons st' Hwf') as (l' & E' & H'). exists p, st', log, l'. auto.
  - intros size.
    destruct (alloc_internal_wf Hcfg fuel size st Hwf Hf)
      as (p & st' & E & Hwf' & Hcase).
    destruct (Hcons st' Hwf') as (l' & E' & H'). exists p, st', l'.
    split; [exact E |]. split; [exact E' |]. split; [exact H' |].
    destruct Hcase as [(-> & Est & _) | (Hp & Ha & _)].
    + rewrite Est. cbn. change (NULL =? NULL) with true. cbv iota. lia.
    + destruct (Z.eqb_spec p NULL) as [? | _]; [contradiction | exact Ha].
  - intros p size Huse.
    destruct (free_block_effect Hcfg fuel p size st l Hwf Hf El Huse)
      as (st' & E & Hwf' & El' & Ha & _).
    destruct (Hcons st' Hwf') as (l' & E' & H').
    exists st', l'. split; [exact E |]. split; [exact E' |]. split; [exact H' |].
    split; [exact Ha | lia].
Qed.

(** X29.  No touching frees within the contract.  In every state
    reached from [jmem_heap_init] by allocation requests, stored-size
    requests whose padded and rounded size does not wrap in [size_t],
    frees of blocks in use and client writes to words in use, each
    free-list node ends strictly below the start of its successor.
    Freeing a block in use returns and keeps this true: the new list is
    the old one with the block inserted by address and merged with the
    neighbours it touches, and the whole block lies inside one of its
    nodes. *)
Theorem no_touching_frees (fuel : nat) (st : heap_state) :
  config_ok -> callbacks_ok -> fuel_ok fuel -> reachable st ->
  exists l,
    free_list fuel st = Some l /\ no_touch l
    /\ (forall p size, block_in_use fuel st p size = true ->
          exists st',
            jmem_heap_free_block fuel p size st = Some st'
            /\ free_list fuel st' = Some (free_insert p (align_size size) l)
            /\ no_touch (free_insert p (align_size size) l)
            /\ exists n, In n (free_insert p (align_size size) l)
                         /\ fst n <= p /\ p + align_size size <= fst n + snd n).
Proof.
  intros Hcfg Hcb Hf Hreach.
  assert (Hnt : forall s, heap_wf s ->
            exists l, free_list fuel s = Some l /\ no_touch l).
  { intros s Hwf. destruct (heap_wf_free_list Hcfg fuel s Hwf Hf) as (l & E & _ & Hc & _).
    exists l. split; [exact E | apply (chain_no_touch _ _ Hc)]. }
  pose proof (reachable_wf Hcfg Hcb st Hreach) as Hwf.
  destruct (Hnt st Hwf) as (l & El & Hl).
  exists l. split; [exact El |]. split; [exact Hl |].
  intros p size Huse.
  destruct (free_block_effect Hcfg fuel p size st l Hwf Hf El Huse)
    as (st' & E & Hwf' & El' & _).
  destruct (free_block_wf Hcfg fuel p size st Hwf Hf Huse)
    as (st1 & E1 & _ & _ & _ & l1 & El1 & Hn).
  assert (st1 = st') by congruence. subst st1.
  assert (l1 = free_insert p (align_size size) l) by congruence. subst l1.
  destruct (Hnt st' Hwf') as (l0 & E0 & Hnt0).
  assert (l0 = free_insert p (align_size size) l) by congruence. subst l0.
  exists st'. auto.
Qed.

End Contract.

Section InternalAlloc.
Context {cfg : Config} {reg : Registry}.

(** X12.  The internal allocation fails exactly when no free region is
    as large as the rounded size, whatever the total of the free space;
    a failed attempt leaves the memory, the allocated size and the skip
    pointer as they were and can only raise the limit. *)
Theorem alloc_internal_fails_iff (fuel : nat) (size : Z) (st : heap_state)
        (l : list (Z * Z)) :
  config_ok -> callbacks_ok -> fuel_ok fuel -> reachable st ->
  free_list fuel st = Some l ->
  exists p st',
    jmem_heap_alloc_block_internal fuel size st = Some (p, st')
    /\ (p = NULL <-> Forall (fun n => snd n < align_size size) l)
    /\ (p = NULL ->
        heap_mem st' = heap_mem st
        /\ jmem_heap_allocated_size st' = jmem_heap_allocated_size st
        /\ jmem_heap_list_skip_p st' = jmem_heap_list_skip_p st
        /\ jmem_heap_limit st <= jmem_heap_limit st'
           <= jmem_heap_allocated_size st + CONFIG_MEM_HEAP_DESIRED_LIMIT).
Proof.
  intros Hcfg Hcb Hf Hreach El.
  pose proof (reachable_wf Hcfg Hcb st Hreach) as Hwf.
  destruct (heap_wf_free_list Hcfg fuel st Hwf Hf) as (l0 & El0 & Hr & Hc & Hs & Hk & Hl).
  assert (l0 = l) by congruence. subst l0.
  destruct (alloc_internal_spec Hcfg fuel size st l Hr Hc Hs Hk Hl Hf)
    as [(Hall & lim & E1 & Hlim1 & Hlim2)
       | (l1 & a & s & l2 & st1 & Esplit & Hall & Hfit & E1 & _)].
  - exists NULL, (set_limit st lim). split; [exact E1 |].
    split; [split; auto |]. intros _. cbn. repeat split; lia.
  - exists a, st1. split; [exact E1 |].
    assert (Hin : In (a, s) l) by (rewrite Esplit; apply in_or_app; right; left; reflexivity).
    destruct (chain_In Hcfg _ _ _ Hc Hin) as [_ Hok].
    apply (node_ok_facts Hcfg) in Hok. cbn [fst snd] in Hok.
    assert (Ha : a <> NULL) by (unfold NULL; layout Hcfg; lia).
    split; [| intros H; contradiction].
    split; [intros H; contradiction |].
    intros Hno. rewrite Forall_forall in Hno. specialize (Hno _ Hin). cbn [snd] in Hno. lia.
Qed.

(** X13.  The fast path: a request that rounds to [JMEM_ALIGNMENT] takes
    the first free region whatever its size, carving the block from its
    front; the skip pointer moves only if it pointed at that region, to
    the region now first in the list or to the end-of-list pointer. *)
Theorem fast_path_first_region (fuel : nat) (size : Z) (st : heap_state)
        (a s : Z) (l2 : list (Z * Z)) :
  config_ok -> callbacks_ok -> fuel_ok fuel -> reachable st ->
  free_list fuel st = Some ((a, s) :: l2) ->
  align_size size = JMEM_ALIGNMENT ->
  exists st',
    jmem_heap_alloc_block_internal fuel size st = Some (a, st')
    /\ free_list fuel st' = Some (carve_nodes a s JMEM_ALIGNMENT ++ l2)
    /\ jmem_heap_allocated_size st' = jmem_heap_allocated_size st + JMEM_ALIGNMENT
    /\ jmem_heap_list_skip_p st'
       = (if a =? jmem_heap_list_skip_p st
          then head_addr (carve_nodes a s JMEM_ALIGNMENT ++ l2) JMEM_HEAP_END_OF_LIST
          else jmem_heap_list_skip_p st).
Proof.
  intros Hcfg Hcb Hf Hreach El Hreq.
  pose proof (reachable_wf Hcfg Hcb st Hreach) as Hwf.
  destruct (heap_wf_free_list Hcfg fuel st Hwf Hf) as (l0 & El0 & Hr & Hc & Hs & Hk & Hl).
  assert (l0 = (a, s) :: l2) by congruence. subst l0.
  pose proof Hc as Hc0. cbn [chain] in Hc0. destruct Hc0 as (_ & Hok & _).
  apply (node_ok_facts Hcfg) in Hok. cbn [fst snd] in Hok.
  destruct (alloc_internal_full Hcfg fuel size st _ Hr Hc Hs Hk Hl Hf)
    as [(Hall & _)
       | (l1 & a' & s' & l2' & st1 & Esplit & Hall & Hfit & E1 & _ & Hr1 & Hc1 & Ha
          & _ & _ & _ & _ & Hfast)].
  - apply Forall_cons_iff in Hall. destruct Hall as [Hlt _]. cbn [snd] in Hlt.
    layout Hcfg. lia.
  - destruct (Hfast Hreq) as [-> Eskip]. cbn [app] in *.
    injection Esplit as <- <- <-. rewrite Hreq in *.
    exists st1. split; [exact E1 |].
    split; [apply (free_list_of_lrep Hcfg); auto |].
    split; [exact Ha | exact Eskip].
Qed.



End InternalAlloc.

Section Compressed.
Context {cfg : Config}.

(** The compressed pointer of an aligned heap pointer is its distance
    from [jmem_heap], counted in units of the alignment. *)
Lemma compress_val p :
  0 <= JMEM_ALIGNMENT_LOG ->
  0 <= heap_base -> heap_base mod JMEM_ALIGNMENT = 0 ->
  area_end < 2 ^ ptr_bits ->
  jmem_is_heap_pointer p = true ->
  p mod JMEM_ALIGNMENT = 0 ->
  jmem_heap_compress_pointer p * JMEM_ALIGNMENT = p - heap_base.
Proof.
  intros HL Hb Hba Hend Hp Hpa.
  pose proof (alignment_pos HL) as HA.
  destruct (area_offset_bounds HL) as [Hoff Hoffm].
  unfold jmem_is_heap_pointer in Hp. apply andb_true_iff in Hp.
  destruct Hp as [Hp1 Hp2]. apply Z.leb_le in Hp1, Hp2.
  fold area_end in Hp2.
  assert (Hpm : (p - heap_base) mod JMEM_ALIGNMENT = 0).
  { rewrite Zminus_mod, Hpa, Hba. reflexivity. }
  unfold jmem_heap_compress_pointer.
  rewrite (to_size_t_small p) by lia.
  rewrite (to_size_t_small heap_base) by lia.
  rewrite (to_size_t_small (p - heap_base)) by lia.
  rewrite Z.shiftr_div_pow2 by lia. fold JMEM_ALIGNMENT.
  pose proof (Z.div_mod (p - heap_base) JMEM_ALIGNMENT). lia.
Qed.

(** X15.  Decompression is the inverse of compression on the codes of
    the heap: a code whose distance from [jmem_heap] falls in the area
    decompresses to an aligned heap pointer that compresses back to the
    code. *)
Theorem decompress_roundtrip (c : Z) :
  0 <= JMEM_ALIGNMENT_LOG ->
  0 <= heap_base -> heap_base mod JMEM_ALIGNMENT = 0 ->
  area_end < 2 ^ ptr_bits ->
  area - heap_base <= c * JMEM_ALIGNMENT <= area_end - heap_base ->
  jmem_is_heap_pointer (jmem_heap_decompress_pointer c) = true
  /\ jmem_heap_decompress_pointer c mod JMEM_ALIGNMENT = 0
  /\ jmem_heap_compress_pointer (jmem_heap_decompress_pointer c) = c.
Proof.
  intros HL Hb Hba Hend Hc.
  pose proof (alignment_pos HL) as HA.
  destruct (area_offset_bounds HL) as [Hoff Hoffm].
  assert (Hd : jmem_heap_decompress_pointer c = c * JMEM_ALIGNMENT + heap_base).
  { unfold jmem_heap_decompress_pointer.
    rewrite Z.shiftl_mul_pow2 by lia. fold JMEM_ALIGNMENT.
    rewrite (to_size_t_small heap_base) by lia.
    rewrite (to_size_t_small (c * JMEM_ALIGNMENT)) by lia.
    apply to_size_t_small. lia. }
  rewrite Hd. split; [| split].
  - unfold jmem_is_heap_pointer. fold area_end.
    apply andb_true_iff. rewrite !Z.leb_le. lia.
  - rewrite Z.add_comm, Z.mod_add by lia. exact Hba.
  - unfold jmem_heap_compress_pointer.
    rewrite (to_size_t_small (c * JMEM_ALIGNMENT + heap_base)) by lia.
    rewrite (to_size_t_small heap_base) by lia.
    replace (c * JMEM_ALIGNMENT + heap_base - heap_base) with (c * JMEM_ALIGNMENT) by lia.
    rewrite (to_size_t_small (c * JMEM_ALIGNMENT)) by lia.
    rewrite Z.shiftr_div_pow2 by lia. fold JMEM_ALIGNMENT.
    apply Z.div_mul. lia.
Qed.

(** X16.  Compressed pointers keep the order of the pointers they
    encode, so distinct aligned heap pointers have distinct codes, and
    with an alignment of at least 8 bytes a code fits in any number of
    bits [k] for which [JMEM_HEAP_SIZE <= 2 ^ k]. *)
Theorem compress_order_and_range (p q k : Z) :
  3 <= JMEM_ALIGNMENT_LOG ->
  0 <= heap_base -> heap_base mod JMEM_ALIGNMENT = 0 ->
  area_end < 2 ^ ptr_bits ->
  jmem_is_heap_pointer p = true -> p mod JMEM_ALIGNMENT = 0 ->
  jmem_is_heap_pointer q = true -> q mod JMEM_ALIGNMENT = 0 ->
  0 <= k -> JMEM_HEAP_SIZE <= 2 ^ k ->
  (p < q <-> jmem_heap_compress_pointer p < jmem_heap_compress_pointer q)
  /\ (jmem_heap_compress_pointer p = jmem_heap_compress_pointer q -> p = q)
  /\ 0 < jmem_heap_compress_pointer p < 2 ^ k.
Proof.
  intros HL Hb Hba Hend Hp Hpa Hq Hqa Hk Hsize.
  assert (HL0 : 0 <= JMEM_ALIGNMENT_LOG) by lia.
  pose proof (alignment_pos HL0) as HA.
  pose proof (compress_val p HL0 Hb Hba Hend Hp Hpa) as Ep.
  pose proof (compress_val q HL0 Hb Hba Hend Hq Hqa) as Eq.
  assert (HA8 : 8 <= JMEM_ALIGNMENT).
  { unfold JMEM_ALIGNMENT. change 8 with (2 ^ 3). apply Z.pow_le_mono_r; lia. }
  assert (Harea : area - heap_base = JMEM_ALIGNMENT).
  { unfold area, sizeof_jmem_heap_free_t.
    replace ((8 + JMEM_ALIGNMENT - 1) / JMEM_ALIGNMENT) with 1; [lia |].
    apply (Z.div_unique_pos _ _ 1 7); lia. }
  unfold jmem_is_heap_pointer in Hp. apply andb_true_iff in Hp.
  destruct Hp as [Hp1 Hp2]. apply Z.leb_le in Hp1, Hp2.
  unfold JMEM_HEAP_AREA_SIZE in Hp2.
  assert (Hk1 : 0 < 2 ^ k) by (apply Z.pow_pos_nonneg; lia).
  split; [nia |]. split; [nia |]. split; [nia |].
  assert (jmem_heap_compress_pointer p * JMEM_ALIGNMENT <= 2 ^ k) by lia.
  nia.
Qed.

End Compressed.

Section Canonical.
Context {cfg : Config}.
Hypothesis Hcfg : config_ok.

Lemma join_next_sizes n l :
  0 <= snd n -> Forall (fun n => 0 <= snd n) l ->
  Forall (fun n => 0 <= snd n) (join_next n l).
Proof.
  intros Hn Hl. destruct l as [| x r]; cbn [join_next].
  - constructor; [exact Hn | constructor].
  - apply Forall_cons_iff in Hl. destruct Hl as [Hx Hr].
    destruct (fst n + snd n =? fst x).
    + constructor; [cbn [snd]; lia | exact Hr].
    + constructor; [exact Hn |]. constructor; [exact Hx | exact Hr].
Qed.

Lemma free_insert_sizes p asz l :
  0 <= asz -> Forall (fun n => 0 <= snd n) l ->
  Forall (fun n => 0 <= snd n) (free_insert p asz l).
Proof.
  intros Ha. induction l as [| n l IH]; intros Hl; cbn [free_insert].
  - constructor; [exact Ha | constructor].
  - destruct (fst n <? p).
    + apply Forall_cons_iff in Hl. destruct Hl as [Hn Hl].
      apply join_next_sizes; auto.
    + apply join_next_sizes; auto.
Qed.

(** Merging keeps the addresses covered. *)
Lemma join_next_covers n l y :
  0 <= snd n -> Forall (fun n => 0 <= snd n) l ->
  (covers (join_next n l) y <-> fst n <= y < fst n + snd n \/ covers l y).
Proof.
  unfold covers. intros Hn Hl. destruct l as [| x r]; cbn [join_next].
  - rewrite Exists_cons, Exists_nil. tauto.
  - apply Forall_cons_iff in Hl. destruct Hl as [Hx Hr].
    destruct (Z.eqb_spec (fst n + snd n) (fst x)) as [E | _].
    + rewrite !Exists_cons. cbn [fst snd]. split.
      * intros [H | H]; [| tauto].
        destruct (Z.lt_ge_cases y (fst x)); [left | right; left]; lia.
      * intros [H | [H | H]]; [left | left | right; exact H]; lia.
    + rewrite !Exists_cons. tauto.
Qed.

Lemma free_insert_covers p asz l y :
  0 <= asz -> Forall (fun n => 0 <= snd n) l ->
  (covers (free_insert p asz l) y <-> p <= y < p + asz \/ covers l y).
Proof.
  unfold covers. intros Ha. induction l as [| n l IH]; intros Hl; cbn [free_insert].
  - rewrite Exists_cons, Exists_nil. cbn [fst snd]. tauto.
  - destruct (fst n <? p).
    + apply Forall_cons_iff in Hl. destruct Hl as [Hn Hl].
      fold (covers (join_next n (free_insert p asz l)) y).
      rewrite join_next_covers by (auto using free_insert_sizes).
      unfold covers. rewrite (IH Hl), Exists_cons. tauto.
    + fold (covers (join_next (p, asz) (n :: l)) y).
      rewrite join_next_covers by auto. unfold covers. cbn [fst snd]. tauto.
Qed.

Lemma chain_sizes e l : chain e l -> Forall (fun n => 0 <= snd n) l.
Proof.
  intros Hc. apply Forall_forall. intros n Hn.
  destruct (chain_In Hcfg _ _ _ Hc Hn) as [_ Hok].
  apply (node_ok_facts Hcfg) in Hok. lia.
Qed.

Lemma chain_covers_above e l y : chain e l -> covers l y -> e < y.
Proof.
  unfold covers. intros Hc Hy. apply Exists_exists in Hy. destruct Hy as (n & Hn & Hy).
  destruct (chain_In Hcfg _ _ _ Hc Hn) as [Hlt _]. lia.
Qed.

(** A list of regions that do not touch is determined by the addresses
    it covers. *)
Lemma chain_canonical l : forall e e' l',
  chain e l -> chain e' l' ->
  (forall y, covers l y <-> covers l' y) -> l = l'.
Proof.
  unfold covers.
  induction l as [| [a s] r IH]; intros e e' l' Hc Hc' Hcov.
  - destruct l' as [| [a' s'] r']; [reflexivity |].
    cbn [chain] in Hc'. destruct Hc' as (_ & Hok & _).
    apply (node_ok_facts Hcfg) in Hok. cbn [fst snd] in Hok.
    assert (H : covers [] a') by (apply Hcov; left; cbn [fst snd]; lia).
    inversion H.
  - cbn [chain] in Hc. destruct Hc as (_ & Hok & Hr).
    apply (node_ok_facts Hcfg) in Hok. cbn [fst snd] in Hok, Hr.
    destruct l' as [| [a' s'] r'].
    { assert (H : covers [] a) by (apply Hcov; left; cbn [fst snd]; lia).
      inversion H. }
    cbn [chain] in Hc'. destruct Hc' as (_ & Hok' & Hr').
    apply (node_ok_facts Hcfg) in Hok'. cbn [fst snd] in Hok', Hr'.
    assert (Ha : a = a').
    { assert (H1 : covers ((a', s') :: r') a) by (apply Hcov; left; cbn [fst snd]; lia).
      assert (H2 : covers ((a, s) :: r) a') by (apply Hcov; left; cbn [fst snd]; lia).
      apply Exists_cons in H1, H2. cbn [fst snd] in H1, H2.
      destruct H1 as [H1 | H1]; [| apply (chain_covers_above _ _ _ Hr') in H1];
        destruct H2 as [H2 | H2]; [| apply (chain_covers_above _ _ _ Hr) in H2 | |
                                   apply (chain_covers_above _ _ _ Hr) in H2]; lia. }
    subst a'.
    assert (Hs : s = s').
    { destruct (Z.lt_trichotomy s s') as [Hlt | [E | Hgt]]; [| exact E |].
      - assert (H : covers ((a, s) :: r) (a + s)) by (apply Hcov; left; cbn [fst snd]; lia).
        apply Exists_cons in H. cbn [fst snd] in H.
        destruct H as [H | H]; [lia | apply (chain_covers_above _ _ _ Hr) in H; lia].
      - assert (H : covers ((a, s') :: r') (a + s')) by (apply Hcov; left; cbn [fst snd]; lia).
        apply Exists_cons in H. cbn [fst snd] in H.
        destruct H as [H | H]; [lia | apply (chain_covers_above _ _ _ Hr') in H; lia]. }
    subst s'. f_equal.
    apply (IH (a + s) (a + s) r' Hr Hr').
    intros y. split; intros H.
    + pose proof (chain_covers_above _ _ _ Hr H) as Hy.
      assert (H' : covers ((a, s) :: r') y) by (apply Hcov; right; exact H).
      apply Exists_cons in H'. cbn [fst snd] in H'. destruct H' as [H' | H']; [lia | exact H'].
    + pose proof (chain_covers_above _ _ _ Hr' H) as Hy.
      assert (H' : covers ((a, s) :: r) y) by (apply Hcov; right; exact H).
      apply Exists_cons in H'. cbn [fst snd] in H'. destruct H' as [H' | H']; [lia | exact H'].
Qed.

End Canonical.

Section FreeOrder.
Context {cfg : Config} {reg : Registry}.

(** X17.  The order of two frees does not matter: freeing two blocks in
    use that do not overlap, in either order, leaves the same free list
    and the same allocated size. *)
Theorem free_order_irrelevant (fuel : nat) (st : heap_state) (p1 size1 p2 size2 : Z) :
  config_ok -> callbacks_ok -> fuel_ok fuel -> reachable st ->
  block_in_use fuel st p1 size1 = true ->
  block_in_use fuel st p2 size2 = true ->
  p1 + align_size size1 <= p2 \/ p2 + align_size size2 <= p1 ->
  exists st1 st12 st2 st21,
    jmem_heap_free_block fuel p1 size1 st = Some st1
    /\ jmem_heap_free_block fuel p2 size2 st1 = Some st12
    /\ jmem_heap_free_block fuel p2 size2 st = Some st2
    /\ jmem_heap_free_block fuel p1 size1 st2 = Some st21
    /\ free_list fuel st12 = free_list fuel st21
    /\ jmem_heap_allocated_size st12 = jmem_heap_allocated_size st21.
Proof.
  intros Hcfg Hcb Hf Hreach Hu1 Hu2 Hsep.
  pose proof (reachable_wf Hcfg Hcb st Hreach) as Hwf.
  destruct (heap_wf_free_list Hcfg fuel st Hwf Hf) as (l & El & _ & Hc & _).
  destruct (free_block_effect Hcfg fuel p1 size1 st l Hwf Hf El Hu1)
    as (st1 & E1 & Hwf1 & El1 & Ha1 & _).
  destruct (free_block_effect Hcfg fuel p2 size2 st l Hwf Hf El Hu2)
    as (st2 & E2 & Hwf2 & El2 & Ha2 & _).
  destruct (free_block_keeps Hcfg fuel p1 size1 st st1 Hwf Hf Hu1 E1) as [Hk1 _].
  destruct (free_block_keeps Hcfg fuel p2 size2 st st2 Hwf Hf Hu2 E2) as [Hk2 _].
  pose proof (Hk1 p2 size2 Hu2 ltac:(lia)) as Hu2'.
  pose proof (Hk2 p1 size1 Hu1 ltac:(lia)) as Hu1'.
  destruct (free_block_effect Hcfg fuel p2 size2 st1 _ Hwf1 Hf El1 Hu2')
    as (st12 & E12 & Hwf12 & El12 & Ha12 & _).
  destruct (free_block_effect Hcfg fuel p1 size1 st2 _ Hwf2 Hf El2 Hu1')
    as (st21 & E21 & Hwf21 & El21 & Ha21 & _).
  exists st1, st12, st2, st21.
  split; [exact E1 |]. split; [exact E12 |]. split; [exact E2 |]. split; [exact E21 |].
  split; [| lia].
  rewrite El12, El21. f_equal.
  destruct (heap_wf_free_list Hcfg fuel st12 Hwf12 Hf) as (l12 & F12 & _ & Hc12 & _).
  destruct (heap_wf_free_list Hcfg fuel st21 Hwf21 Hf) as (l21 & F21 & _ & Hc21 & _).
  rewrite El12 in F12. injection F12 as <-.
  rewrite El21 in F21. injection F21 as <-.
  apply (chain_canonical Hcfg _ first_p first_p _ Hc12 Hc21).
  pose proof (chain_sizes Hcfg _ _ Hc) as Hsz.
  destruct (align_size_facts Hcfg size1) as [[H1 _] _].
  destruct (align_size_facts Hcfg size2) as [[H2 _] _].
  intros y.
  rewrite !free_insert_covers by (auto using free_insert_sizes).
  tauto.
Qed.

End FreeOrder.

Section Toggle.
Context {cfg : Config} {reg : Registry}.


(** X19.  The capacity of the heap, for sizes above zero whose rounding
    to the alignment does not wrap in [size_t]: a request whose size
    exceeds [JMEM_HEAP_AREA_SIZE] never succeeds, whatever the callbacks
    free; on the heap as [jmem_heap_init] leaves it every request of at
    most that size succeeds at the first attempt and gets the start of
    the area. *)
Theorem alloc_capacity (fuel : nat) (size : Z) (st : heap_state) :
  config_ok -> callbacks_ok -> fuel_ok fuel -> reachable st ->
  0 < size -> size + JMEM_ALIGNMENT - 1 < 2 ^ ptr_bits ->
  (JMEM_HEAP_AREA_SIZE < size ->
   exists st' log, jmem_heap_alloc_block_null_on_error fuel size st = Some (NULL, st', log))
  /\ (size <= JMEM_HEAP_AREA_SIZE ->
      forall m, exists st',
        jmem_heap_alloc_block_internal fuel size (jmem_heap_init m) = Some (area, st')
        /\ jmem_heap_allocated_size st' = align_size size).
Proof.
  intros Hcfg Hcb Hf Hreach Hsize Hwrap.
  pose proof (reachable_wf Hcfg Hcb st Hreach) as Hwf.
  assert (Easz : align_size size = (size + 7) / 8 * 8).
  { layout Hcfg. apply (align_size_val Hcfg); lia. }
  split.
  - intros Hbig. unfold jmem_heap_alloc_block_null_on_error.
    destruct (Z.eqb_spec size 0) as [| _]; [lia |].
    destruct (gc_and_alloc_spec Hcfg Hcb fuel size st Hwf Hf)
      as (p & st' & log & E & _).
    destruct (gc_and_alloc_block_facts Hcfg Hcb fuel size st p st' log Hwf Hf E)
      as (_ & Hfacts).
    destruct (Z.eq_dec p NULL) as [-> | Hp]; [eauto |].
    destruct (Hfacts Hp) as (Hp0 & _ & Hpe & _). layout Hcfg. lia.
  - intros Hfit m.
    pose proof (init_wf Hcfg m) as Hwfi.
    pose proof (init_free_list fuel m Hcfg Hf) as Eli.
    destruct (heap_wf_free_list Hcfg fuel _ Hwfi Hf) as (l & El & Hr & Hc & Hs & Hk & Hl).
    rewrite Eli in El. injection El as <-.
    destruct (alloc_internal_spec Hcfg fuel size _ _ Hr Hc Hs Hk Hl Hf)
      as [(Hall & _)
         | (l1 & a & s & l2 & st1 & Esplit & _ & _ & E1 & _ & _ & _ & Ha & _)].
    + apply Forall_cons_iff in Hall. destruct Hall as [Hlt _]. cbn [snd] in Hlt.
      layout Hcfg. lia.
    + destruct l1 as [| n l1]; cbn [app] in Esplit.
      * injection Esplit as <- <- <-. exists st1. split; [exact E1 |].
        unfold jmem_heap_init in Ha. cbn [jmem_heap_allocated_size] in Ha. lia.
      * injection Esplit as _ Esplit. destruct l1; discriminate.
Qed.

End Toggle.

Section StoredSize.
Context {cfg : Config} {reg : Registry}.




(** X27.  What is freed can be allocated again: right after the free of
    a block the internal allocation of the same size succeeds, at the
    block's address or a lower one. *)
Theorem freed_block_is_reusable (fuel : nat) (p size : Z) (st st' : heap_state) :
  config_ok -> callbacks_ok -> fuel_ok fuel -> reachable st ->
  block_in_use fuel st p size = true ->
  jmem_heap_free_block fuel p size st = Some st' ->
  exists q st'',
    jmem_heap_alloc_block_internal fuel size st' = Some (q, st'')
    /\ q <> NULL /\ q <= p.
Proof.
  intros Hcfg Hcb Hf Hreach Huse E.
  pose proof (reachable_wf Hcfg Hcb st Hreach) as Hwf.
  destruct (free_block_wf Hcfg fuel p size st Hwf Hf Huse)
    as (st1 & E1 & Hwf1 & _ & _ & l' & El' & n & Hn & Hlo & Hhi).
  rewrite E1 in E. injection E as <-.
  destruct (heap_wf_free_list Hcfg fuel st1 Hwf1 Hf) as (l0 & El0 & Hr & Hc & Hs & Hk & Hl).
  assert (l0 = l') by congruence. subst l0.
  destruct (alloc_internal_spec Hcfg fuel size st1 l' Hr Hc Hs Hk Hl Hf)
    as [(Hall & _)
       | (l1 & a & s & l2 & st2 & Esplit & Hall & Hfit & E2 & _)].
  - rewrite Forall_forall in Hall. specialize (Hall n Hn). lia.
  - exists a, st2. split; [exact E2 |].
    assert (Hin : In (a, s) l') by (rewrite Esplit; apply in_or_app; right; left; reflexivity).
    destruct (chain_In Hcfg _ _ _ Hc Hin) as [_ Hok].
    apply (node_ok_facts Hcfg) in Hok. cbn [fst snd] in Hok.
    split; [unfold NULL; layout Hcfg; lia |].
    rewrite Esplit in Hn, Hc. apply in_app_or in Hn.
    destruct Hn as [Hn | [<- | Hn]].
    + rewrite Forall_forall in Hall. specialize (Hall n Hn). lia.
    + cbn [fst] in Hlo. exact Hlo.
    + apply chain_app in Hc. destruct Hc as [_ Hc2]. cbn [chain] in Hc2.
      destruct Hc2 as (_ & _ & Hc2).
      destruct (chain_In Hcfg _ _ _ Hc2 Hn) as [Hlt _]. cbn [fst snd] in Hlt. lia.
Qed.

End StoredSize.

(** ** Properties of the statistics *)

Section StatsProps.
Context {cfg : Config}.

(** X20.  The statistics of an allocation are undone by those of the
    free of the same size: the allocated and the wasted bytes are back
    to what they were, whatever wrapped in between, and the peaks never
    go down. *)
Theorem stat_alloc_free_restores (size : Z) (s : jmem_heap_stats_t) :
  0 <= allocated_bytes s < 2 ^ ptr_bits ->
  0 <= waste_bytes s < 2 ^ ptr_bits ->
  let s' := jmem_heap_stat_free size (jmem_heap_stat_alloc size s) in
  allocated_bytes s' = allocated_bytes s
  /\ waste_bytes s' = waste_bytes s
  /\ peak_allocated_bytes s <= peak_allocated_bytes s'
  /\ peak_waste_bytes s <= peak_waste_bytes s'.
Proof.
  intros Ha Hw. cbn.
  assert (Hpos : 0 < 2 ^ ptr_bits) by (pose proof pow_ptr_bits_ge; lia).
  unfold to_size_t.
  split; [| split; [| split]].
  - rewrite Zminus_mod_idemp_l.
    replace (allocated_bytes s + align_size size - align_size size)
      with (allocated_bytes s) by lia.
    apply Z.mod_small. exact Ha.
  - rewrite Zminus_mod_idemp_l.
    replace (waste_bytes s + (align_size size - size) mod 2 ^ ptr_bits
             - (align_size size - size) mod 2 ^ ptr_bits)
      with (waste_bytes s) by lia.
    apply Z.mod_small. exact Hw.
  - destruct (Z.ltb_spec (peak_allocated_bytes s)
                ((allocated_bytes s + align_size size) mod 2 ^ ptr_bits)); lia.
  - destruct (Z.ltb_spec (peak_waste_bytes s)
                ((waste_bytes s + (align_size size - size) mod 2 ^ ptr_bits)
                 mod 2 ^ ptr_bits)); lia.
Qed.

(** X21.  The peaks bound the current values: [jmem_heap_stat_init]
    starts with the current values within the peaks and the peaks within
    the global peaks, and [jmem_heap_stat_alloc] and
    [jmem_heap_stats_reset_peak] keep it so, as does
    [jmem_heap_stat_free] when it does not take off more than is
    recorded. *)
Theorem stats_peaks_kept (size : Z) (s : jmem_heap_stats_t) :
  stats_peaks_ok s ->
  stats_peaks_ok jmem_heap_stat_init
  /\ stats_peaks_ok (jmem_heap_stat_alloc size s)
  /\ stats_peaks_ok (jmem_heap_stats_reset_peak s)
  /\ (align_size size <= allocated_bytes s ->
      to_size_t (align_size size - size) <= waste_bytes s ->
      stats_peaks_ok (jmem_heap_stat_free size s)).
Proof.
  intros [Ha Hw]. unfold stats_peaks_ok.
  split; [cbn; lia |]. split; [| split].
  - cbn.
    set (a := to_size_t (allocated_bytes s + align_size size)).
    set (w := to_size_t (waste_bytes s + to_size_t (align_size size - size))).
    destruct (Z.ltb_spec (peak_allocated_bytes s) a),
             (Z.ltb_spec (global_peak_allocated_bytes s) a),
             (Z.ltb_spec (peak_waste_bytes s) w),
             (Z.ltb_spec (global_peak_waste_bytes s) w); lia.
  - cbn. lia.
  - intros H1 H2. cbn.
    pose proof (to_size_t_range (align_size size - size)) as Hr.
    pose proof (to_size_t_range (to_size_t (size + JMEM_ALIGNMENT - 1)
                                 / JMEM_ALIGNMENT * JMEM_ALIGNMENT)) as Hq.
    fold (align_size size) in Hq.
    assert (Hpos : 0 < 2 ^ ptr_bits) by (pose proof pow_ptr_bits_ge; lia).
    unfold to_size_t in *.
    assert (E1 : (allocated_bytes s - align_size size) mod 2 ^ ptr_bits
                 <= allocated_bytes s - align_size size).
    { apply Z.mod_le; lia. }
    assert (E2 : (waste_bytes s - (align_size size - size) mod 2 ^ ptr_bits) mod 2 ^ ptr_bits
                 <= waste_bytes s - (align_size size - size) mod 2 ^ ptr_bits).
    { apply Z.mod_le; lia. }
    lia.
Qed.

End StatsProps.

(** ** Properties of the character helpers *)

Lemma last_pred {A : Type} (l : list A) d d' :
  l <> [] -> last l d = nth (pred (length l)) l d'.
Proof.
  induction l as [| x l IH]; [congruence |]. intros _.
  destruct l as [| y l']; [reflexivity |].
  change (last (x :: y :: l') d) with (last (y :: l') d).
  rewrite IH by discriminate. reflexivity.
Qed.

Section Search.

Variable array : list (Z * Z).
Variable past : Z * Z.
Variable c : Z.
Hypothesis Hasc : intervals_ascending array.

Let n := Z.of_nat (length array).
Let get (i : Z) : Z * Z := nth (Z.to_nat i) array past.

Lemma array_read_in i : 0 <= i < n -> array_read array past i = get i.
Proof.
  intros Hi. unfold array_read, get. apply app_nth1. unfold n in Hi. lia.
Qed.

Lemma array_read_past : array_read array past n = past.
Proof.
  unfold array_read, n. rewrite Nat2Z.id, nth_middle. reflexivity.
Qed.

Lemma ascending_get_aux (l : list (Z * Z)) :
  intervals_ascending l ->
  (forall i, (i < length l)%nat -> fst (nth i l past) <= snd (nth i l past))
  /\ (forall i j, (i < j < length l)%nat -> snd (nth i l past) < fst (nth j l past)).
Proof.
  induction l as [| x l IH]; intros H.
  - split; intros; simpl in *; lia.
  - cbn [intervals_ascending] in H. destruct H as (Hx & Hnext & Hl).
    destruct (IH Hl) as [IH1 IH2]. split.
    + intros [| i] Hi; cbn [nth]; [exact Hx |]. apply IH1. simpl in Hi. lia.
    + intros [| i] [| j] Hij; cbn [nth]; simpl in Hij; try lia.
      * destruct l as [| y l']; [simpl in Hij; lia |].
        destruct j as [| j]; cbn [nth]; [exact Hnext |].
        pose proof (IH1 0%nat ltac:(simpl; lia)) as H0. cbn [nth] in H0.
        pose proof (IH2 0%nat (S j) ltac:(simpl in *; lia)) as H1. cbn [nth] in H1. lia.
      * apply IH2. lia.
Qed.

Lemma get_wf i : 0 <= i < n -> fst (get i) <= snd (get i).
Proof.
  intros Hi. unfold get. apply (proj1 (ascending_get_aux array Hasc)). unfold n in Hi. lia.
Qed.

Lemma get_lt i j : 0 <= i -> i < j -> j < n -> snd (get i) < fst (get j).
Proof.
  intros H0 Hij Hj. unfold get. apply (proj2 (ascending_get_aux array Hasc)).
  unfold n in Hj. lia.
Qed.

Let member : Prop := exists i, 0 <= i < n /\ in_interval c (get i) = true.

Lemma in_interval_iff x : in_interval c x = true <-> fst x <= c <= snd x.
Proof. unfold in_interval. rewrite andb_true_iff, !Z.leb_le. tauto. Qed.

Lemma quot_mid b t : b <= t -> b <= b + Z.quot (t - b) 2 <= t.
Proof.
  intros H. pose proof (Z.quot_pos (t - b) 2 ltac:(lia) ltac:(lia)).
  assert (Z.quot (t - b) 2 <= t - b).
  { rewrite Z.quot_div_nonneg by lia. apply Z.div_le_upper_bound; lia. }
  lia.
Qed.

Lemma quot_mid_empty b : b + Z.quot (b - 1 - b) 2 = b.
Proof. replace (b - 1 - b) with (-1) by lia. change (Z.quot (-1) 2) with 0. lia. Qed.

(** The loop, as long as it cannot step past the last element. *)
Lemma search_inside fuel : forall b mid t,
  0 <= b -> t <= n - 1 -> b <= t + 1 ->
  (b <= t -> b <= mid <= t) ->
  (forall i, 0 <= i < n -> in_interval c (get i) = true -> b <= i <= t) ->
  (t < n - 1 \/ (0 < n /\ c <= snd (get (n - 1)))) ->
  t - b + 2 <= Z.of_nat fuel ->
  (b <= t -> in_interval c (get mid) = true -> t - b + 3 <= Z.of_nat fuel) ->
  (search_interval_loop fuel c array past b mid t = Some true /\ member)
  \/ (search_interval_loop fuel c array past b mid t = Some false /\ ~ member).
Proof.
  induction fuel as [| fuel IH]; intros b mid t Hb Ht Hbt Hmid Hmem Hin Hfuel Hbonus;
    [lia |].
  cbn [search_interval_loop].
  destruct (Z.leb_spec b t) as [Hle | Hgt].
  2: { right. split; [reflexivity |]. intros (i & Hi & Hc). specialize (Hmem i Hi Hc). lia. }
  specialize (Hmid Hle). specialize (Hbonus Hle).
  rewrite (array_read_in mid) by lia.
  pose proof (get_wf mid ltac:(lia)) as Hwf.
  destruct (Z.ltb_spec c (fst (get mid))) as [Hlo | Hnlo].
  - (* the part below [middle] *)
    set (mid1 := b + Z.quot (mid - 1 - b) 2).
    assert (Hmid1 : b <= mid1 <= mid).
    { unfold mid1. destruct (Z.eq_dec b mid) as [-> | Hne].
      - rewrite quot_mid_empty. lia.
      - pose proof (quot_mid b (mid - 1) ltac:(lia)). lia. }
    rewrite (array_read_in mid1) by lia.
    fold (in_interval c (get mid1)).
    destruct (in_interval c (get mid1)) eqn:E1.
    + left. split; [reflexivity |]. exists mid1. split; [lia | exact E1].
    + apply IH; try lia.
      * intros Hle1. unfold mid1. apply quot_mid. lia.
      * intros i Hi Hc. specialize (Hmem i Hi Hc).
        apply in_interval_iff in Hc.
        destruct (Z.lt_ge_cases i mid) as [Hlt | Hge]; [lia |].
        destruct (Z.eq_dec i mid) as [-> | Hne]; [lia |].
        pose proof (get_lt mid i ltac:(lia) ltac:(lia) ltac:(lia)). lia.
      * intros _ E. congruence.
  - destruct (Z.ltb_spec (snd (get mid)) c) as [Hhi | Hnhi].
    + (* the part above [middle] *)
      assert (Hlast : mid + 1 <= n - 1).
      { destruct Hin as [Hin | [Hn Hin]]; [lia |].
        destruct (Z.eq_dec mid (n - 1)) as [E | Hne]; [rewrite E in Hhi; lia | lia]. }
      set (mid1 := mid + 1 + Z.quot (t - (mid + 1)) 2).
      assert (Hmid1 : mid + 1 <= mid1 <= n - 1).
      { unfold mid1. destruct (Z.eq_dec mid t) as [-> | Hne].
        - replace (t - (t + 1)) with (-1) by lia. change (Z.quot (-1) 2) with 0. lia.
        - pose proof (quot_mid (mid + 1) t ltac:(lia)). lia. }
      rewrite (array_read_in mid1) by lia.
      fold (in_interval c (get mid1)).
      destruct (in_interval c (get mid1)) eqn:E1.
      * left. split; [reflexivity |]. exists mid1. split; [lia | exact E1].
      * apply IH; try lia.
        -- intros Hle1. unfold mid1. apply quot_mid. lia.
        -- intros i Hi Hc. specialize (Hmem i Hi Hc).
           apply in_interval_iff in Hc.
           destruct (Z.lt_ge_cases mid i) as [Hlt | Hge]; [lia |].
           destruct (Z.eq_dec i mid) as [-> | Hne]; [lia |].
           pose proof (get_lt i mid ltac:(lia) ltac:(lia) ltac:(lia)).
           pose proof (get_wf i ltac:(lia)). lia.
        -- intros _ E. congruence.
    + (* [middle] holds [c]: only the new [middle] is looked at *)
      assert (Hc : in_interval c (get mid) = true) by (apply in_interval_iff; lia).
      specialize (Hbonus Hc).
      set (mid1 := b + Z.quot (t - b) 2).
      assert (Hmid1 : b <= mid1 <= t) by (apply quot_mid; lia).
      rewrite (array_read_in mid1) by lia.
      fold (in_interval c (get mid1)).
      destruct (in_interval c (get mid1)) eqn:E1.
      * left. split; [reflexivity |]. exists mid1. split; [lia | exact E1].
      * apply IH; try lia; [exact Hmem |].
        intros _ E. congruence.
Qed.

(** The loop for a character above every interval: it ends with a
    look at the element past the array. *)
Lemma search_above fuel : forall b mid,
  0 <= b <= n -> 0 < n ->
  (b <= n - 1 -> b <= mid <= n - 1) ->
  (forall i, 0 <= i < n -> snd (get i) < c) ->
  (b = n -> in_interval c past = false) ->
  n - b + 1 <= Z.of_nat fuel ->
  search_interval_loop fuel c array past b mid (n - 1) = Some (in_interval c past).
Proof.
  induction fuel as [| fuel IH]; intros b mid Hb Hn Hmid Hall Hpast Hfuel; [lia |].
  cbn [search_interval_loop].
  destruct (Z.leb_spec b (n - 1)) as [Hle | Hgt].
  2: { rewrite Hpast by lia. reflexivity. }
  specialize (Hmid Hle).
  rewrite (array_read_in mid) by lia.
  pose proof (get_wf mid ltac:(lia)) as Hwf.
  pose proof (Hall mid ltac:(lia)) as Hm.
  destruct (Z.ltb_spec c (fst (get mid))) as [Hlo | _]; [lia |].
  destruct (Z.ltb_spec (snd (get mid)) c) as [_ | Hnhi]; [| lia].
  set (mid1 := mid + 1 + Z.quot (n - 1 - (mid + 1)) 2).
  destruct (Z.eq_dec mid (n - 1)) as [E | Hne].
  - assert (Emid1 : mid1 = n).
    { unfold mid1. rewrite E. replace (n - 1 - (n - 1 + 1)) with (-1) by lia.
      change (Z.quot (-1) 2) with 0. lia. }
    rewrite Emid1, array_read_past. fold (in_interval c past).
    destruct (in_interval c past) eqn:Ep; [reflexivity |].
    rewrite E. apply IH; auto; lia.
  - assert (Hmid1 : mid + 1 <= mid1 <= n - 1).
    { unfold mid1. apply quot_mid. lia. }
    rewrite (array_read_in mid1) by lia.
    fold (in_interval c (get mid1)).
    assert (E1 : in_interval c (get mid1) = false).
    { destruct (in_interval c (get mid1)) eqn:E1; [| reflexivity].
      apply in_interval_iff in E1. pose proof (Hall mid1 ltac:(lia)). lia. }
    rewrite E1. apply IH; auto; lia.
Qed.

Lemma member_existsb : member <-> existsb (in_interval c) array = true.
Proof.
  unfold member. rewrite existsb_exists. split.
  - intros (i & Hi & Hc). exists (get i). split; [| exact Hc].
    unfold get. apply nth_In. unfold n in Hi. lia.
  - intros (x & Hx & Hc). destruct (In_nth array x past Hx) as (k & Hk & Ek).
    exists (Z.of_nat k). unfold get, n. rewrite Nat2Z.id, Ek. split; [lia | exact Hc].
Qed.

Lemma last_get : array <> [] -> last array (0, 0) = get (n - 1).
Proof.
  intros Hne. unfold get, n.
  replace (Z.to_nat (Z.of_nat (length array) - 1)) with (pred (length array)) by lia.
  apply last_pred; exact Hne.
Qed.

Lemma search_interval_spec :
  (array = [] \/ c <= snd (last array (0, 0)) ->
   search_char_in_interval_array c array past = Some (existsb (in_interval c) array))
  /\ (array <> [] -> snd (last array (0, 0)) < c ->
      search_char_in_interval_array c array past = Some (in_interval c past)).
Proof.
  unfold search_char_in_interval_array. fold n.
  assert (Hn0 : 0 <= n) by (unfold n; lia).
  split.
  - intros Hin.
    assert (Hin' : n - 1 < n - 1 \/ (0 < n /\ c <= snd (get (n - 1))) \/ n = 0).
    { destruct Hin as [-> | Hin]; [right; right; reflexivity |].
      destruct (Z.eq_dec n 0) as [E | Hne]; [auto |].
      right. left. split; [lia |]. rewrite <- last_get; [exact Hin |].
      intros ->. unfold n in Hne. simpl in Hne. lia. }
    destruct (Z.eq_dec n 0) as [E0 | Hne].
    { assert (array = []) by (destruct array; [reflexivity | unfold n in E0; simpl in E0; lia]).
      subst array. reflexivity. }
    destruct (search_inside (S (S (length array))) 0 (n / 2) (n - 1))
      as [[E Hm] | [E Hm]]; try lia.
    + rewrite E. f_equal. symmetry. apply member_existsb. exact Hm.
    + rewrite E. f_equal. symmetry.
      destruct (existsb (in_interval c) array) eqn:Ee; [| reflexivity].
      exfalso. apply Hm. apply member_existsb. exact Ee.
  - intros Hne Hc.
    assert (Hn : 0 < n).
    { unfold n. destruct array; [congruence | simpl; lia]. }
    rewrite (last_get Hne) in Hc.
    apply search_above; try lia.
    intros i Hi. destruct (Z.eq_dec i (n - 1)) as [-> | Hd]; [exact Hc |].
    pose proof (get_lt i (n - 1) ltac:(lia) ltac:(lia) ltac:(lia)).
    pose proof (get_wf (n - 1) ltac:(lia)). lia.
Qed.

End Search.

Lemma array_read_map {A B : Type} (f : A -> B) (array : list A) (past : A) i :
  array_read (map f array) (f past) i = f (array_read array past i).
Proof.
  unfold array_read.
  change [f past] with (map f [past]). rewrite <- map_app. apply map_nth.
Qed.

Lemma eqb_as_interval (m c : Z) : (m =? c) = (m <=? c) && (c <=? m).
Proof.
  destruct (Z.eqb_spec m c) as [-> | Hne].
  - rewrite Z.leb_refl. reflexivity.
  - destruct (Z.leb_spec m c), (Z.leb_spec c m); try reflexivity. lia.
Qed.

(** A character array is searched like the array of the one-point
    intervals of its characters. *)
Lemma search_char_as_interval fuel c array past : forall b mid t,
  search_char_loop fuel c array past b mid t
  = search_interval_loop fuel c (map (fun x => (x, x)) array) (past, past) b mid t.
Proof.
  induction fuel as [| fuel IH]; intros b mid t; [reflexivity |].
  cbn [search_char_loop search_interval_loop].
  rewrite !(array_read_map (fun x => (x, x))). cbn [fst snd].
  rewrite <- eqb_as_interval. rewrite IH. reflexivity.
Qed.

Lemma chars_as_intervals array :
  chars_ascending array -> intervals_ascending (map (fun x => (x, x)) array).
Proof.
  induction array as [| x r IH]; [auto |].
  cbn [chars_ascending map intervals_ascending fst snd].
  intros [Hx Hr]. split; [lia |]. split; [| exact (IH Hr)].
  destruct r; [exact I | exact Hx].
Qed.

Lemma existsb_chars c array :
  existsb (in_interval c) (map (fun x => (x, x)) array) = existsb (fun x => x =? c) array.
Proof.
  induction array as [| x r IH]; [reflexivity |].
  cbn [map existsb]. rewrite IH. unfold in_interval. cbn [fst snd].
  rewrite <- eqb_as_interval. reflexivity.
Qed.

Lemma last_chars array :
  last (map (fun x => (x, x)) array) (0, 0) = (last array 0, last array 0).
Proof.
  induction array as [| x r IH]; [reflexivity |].
  destruct r as [| y r']; [reflexivity |].
  change (last (map (fun x => (x, x)) (x :: y :: r')) (0, 0))
    with (last (map (fun x => (x, x)) (y :: r')) (0, 0)).
  rewrite IH. reflexivity.
Qed.

(** X22.  [search_char_in_interval_array] on intervals that ascend
    without overlap: for a character up to the end of the last interval
    the answer is whether some interval holds it; for a character above
    it the loop looks at the element stored after the array and answers
    whether that one holds the character. *)
Theorem search_interval_array_spec (c : Z) (array : list (Z * Z)) (past : Z * Z) :
  intervals_ascending array ->
  (array = [] \/ c <= snd (last array (0, 0)) ->
   search_char_in_interval_array c array past = Some (existsb (in_interval c) array))
  /\ (array <> [] -> snd (last array (0, 0)) < c ->
      search_char_in_interval_array c array past = Some (in_interval c past)).
Proof. intros Hasc. exact (search_interval_spec array past c Hasc). Qed.

(** X23.  [search_char_in_char_array] on characters that ascend
    strictly: for a character up to the last one the answer is whether
    the array holds it; for a character above the last one the loop
    looks at the element stored after the array and answers whether it
    equals the character. *)
Theorem search_char_array_spec (c : Z) (array : list Z) (past : Z) :
  chars_ascending array ->
  (array = [] \/ c <= last array 0 ->
   search_char_in_char_array c array past = Some (existsb (fun x => x =? c) array))
  /\ (array <> [] -> last array 0 < c ->
      search_char_in_char_array c array past = Some (past =? c)).
Proof.
  intros Hasc. unfold search_char_in_char_array.
  rewrite search_char_as_interval.
  pose proof (search_interval_spec (map (fun x => (x, x)) array) (past, past) c
                (chars_as_intervals array Hasc)) as [HA HB].
  unfold search_char_in_interval_array in HA, HB.
  rewrite length_map in HA, HB. rewrite last_chars in HA, HB. cbn [snd] in HA, HB.
  split.
  - intros Hin. rewrite HA.
    + rewrite existsb_chars. reflexivity.
    + destruct Hin as [-> | Hin]; [left; reflexivity | right; exact Hin].
  - intros Hne Hc. rewrite HB; auto.
    + unfold in_interval. cbn [fst snd]. rewrite <- eqb_as_interval. reflexivity.
    + intros E. apply map_eq_nil in E. contradiction.
Qed.

Lemma lor_shift_add a v :
  0 <= a -> 0 <= v < 16 -> Z.lor (Z.shiftl a 4) v = 16 * a + v.
Proof.
  intros Ha Hv.
  assert (Hland : Z.land (Z.shiftl a 4) v = 0).
  { apply Z.bits_inj'. intros i Hi. rewrite Z.land_spec, Z.bits_0.
    destruct (Z.lt_ge_cases i 4) as [Hlt | Hge].
    - rewrite Z.shiftl_spec_low by lia. reflexivity.
    - rewrite andb_comm.
      destruct (Z.eq_dec v 0) as [-> | Hne]; [rewrite Z.bits_0; reflexivity |].
      rewrite (Z.bits_above_log2 v i); [reflexivity | lia |].
      assert (Z.log2 v < 4) by (apply Z.log2_lt_pow2; lia). lia. }
  rewrite <- Z.lxor_lor by exact Hland.
  rewrite <- Z.add_nocarry_lxor by exact Hland.
  rewrite Z.shiftl_mul_pow2 by lia. lia.
Qed.

Section LitProofs.
Context {chars : LitChars}.

Hypothesis digits_span :
  LIT_CHAR_ASCII_DIGITS_END - LIT_CHAR_ASCII_DIGITS_BEGIN < 16.
Hypothesis lower_hex_span :
  LIT_CHAR_ASCII_LOWERCASE_LETTERS_HEX_END - LIT_CHAR_ASCII_LOWERCASE_LETTERS_HEX_BEGIN < 6.
Hypothesis upper_hex_span :
  LIT_CHAR_ASCII_UPPERCASE_LETTERS_HEX_END - LIT_CHAR_ASCII_UPPERCASE_LETTERS_HEX_BEGIN < 6.

Lemma hex_to_int_range c :
  lit_char_is_hex_digit c = true -> 0 <= lit_char_hex_to_int c < 16.
Proof.
  unfold lit_char_is_hex_digit, lit_char_hex_to_int, to_uint32.
  intros H.
  destruct (Z.leb_spec LIT_CHAR_ASCII_DIGITS_BEGIN c),
           (Z.leb_spec c LIT_CHAR_ASCII_DIGITS_END),
           (Z.leb_spec LIT_CHAR_ASCII_LOWERCASE_LETTERS_HEX_BEGIN c),
           (Z.leb_spec c LIT_CHAR_ASCII_LOWERCASE_LETTERS_HEX_END),
           (Z.leb_spec LIT_CHAR_ASCII_UPPERCASE_LETTERS_HEX_BEGIN c),
           (Z.leb_spec c LIT_CHAR_ASCII_UPPERCASE_LETTERS_HEX_END);
    cbn in H |- *; try discriminate; lia.
Qed.

Lemma read_loop_spec count : forall buf acc,
  (count <= length buf)%nat ->
  0 <= acc -> (acc + 1) * 16 ^ Z.of_nat count <= 2 ^ 32 ->
  read_code_point_loop buf count acc
  = if forallb lit_char_is_hex_digit (firstn count buf)
    then Some (fold_left (fun acc c => 16 * acc + lit_char_hex_to_int c)
                         (firstn count buf) acc)
    else None.
Proof.
  induction count as [| count IH]; intros buf acc Hlen Hacc Hbound; [reflexivity |].
  destruct buf as [| b buf]; [simpl in Hlen; lia |].
  cbn [read_code_point_loop hd tl firstn forallb fold_left].
  assert (Hpow : 16 ^ Z.of_nat (S count) = 16 * 16 ^ Z.of_nat count).
  { rewrite Nat2Z.inj_succ, Z.pow_succ_r by lia. reflexivity. }
  assert (Hp : 0 < 16 ^ Z.of_nat count) by (apply Z.pow_pos_nonneg; lia).
  assert (Hsh : to_uint32 (Z.shiftl acc 4) = Z.shiftl acc 4).
  { apply to_uint32_small. rewrite Z.shiftl_mul_pow2 by lia. nia. }
  rewrite Hsh.
  pose proof (hex_to_int_range b) as Hr.
  unfold lit_char_is_hex_digit, lit_char_hex_to_int in *.
  assert (Hstep : forall v, 0 <= v < 16 ->
            read_code_point_loop buf count (Z.lor (Z.shiftl acc 4) v)
            = if forallb (fun c =>
                   (LIT_CHAR_ASCII_DIGITS_BEGIN <=? c) && (c <=? LIT_CHAR_ASCII_DIGITS_END)
                   || (LIT_CHAR_ASCII_LOWERCASE_LETTERS_HEX_BEGIN <=? c)
                      && (c <=? LIT_CHAR_ASCII_LOWERCASE_LETTERS_HEX_END)
                   || (LIT_CHAR_ASCII_UPPERCASE_LETTERS_HEX_BEGIN <=? c)
                      && (c <=? LIT_CHAR_ASCII_UPPERCASE_LETTERS_HEX_END))
                 (firstn count buf)
              then Some (fold_left (fun acc c => 16 * acc + lit_char_hex_to_int c)
                                   (firstn count buf) (16 * acc + v))
              else None).
  { intros v Hv. rewrite lor_shift_add by lia.
    apply IH; [simpl in Hlen; lia | lia | nia]. }
  unfold lit_char_hex_to_int in Hstep.
  destruct ((LIT_CHAR_ASCII_DIGITS_BEGIN <=? b) && (b <=? LIT_CHAR_ASCII_DIGITS_END)) eqn:E1.
  { cbn [orb andb]. apply Hstep. apply Hr. reflexivity. }
  destruct ((LIT_CHAR_ASCII_LOWERCASE_LETTERS_HEX_BEGIN <=? b)
            && (b <=? LIT_CHAR_ASCII_LOWERCASE_LETTERS_HEX_END)) eqn:E2.
  { cbn [orb andb].
    replace (b - (LIT_CHAR_ASCII_LOWERCASE_LETTERS_HEX_BEGIN - 10))
      with (b - LIT_CHAR_ASCII_LOWERCASE_LETTERS_HEX_BEGIN + 10) by lia.
    apply Hstep. apply Hr. reflexivity. }
  destruct ((LIT_CHAR_ASCII_UPPERCASE_LETTERS_HEX_BEGIN <=? b)
            && (b <=? LIT_CHAR_ASCII_UPPERCASE_LETTERS_HEX_END)) eqn:E3.
  { cbn [orb andb].
    replace (b - (LIT_CHAR_ASCII_UPPERCASE_LETTERS_HEX_BEGIN - 10))
      with (b - LIT_CHAR_ASCII_UPPERCASE_LETTERS_HEX_BEGIN + 10) by lia.
    apply Hstep. apply Hr. reflexivity. }
  reflexivity.
Qed.

End LitProofs.

Section LitTheorems.
Context {chars : LitChars}.

(** X24.  [lit_read_code_point_from_hex] succeeds exactly when the
    characters it is asked to read are all hexadecimal digits, and then
    gives their value, each digit as [lit_char_hex_to_int] converts it,
    the first one the most significant; the value is below 16 to the
    number of characters. *)
Theorem read_code_point_from_hex_spec (buf_p : list Z) (number_of_characters : Z) :
  LIT_CHAR_ASCII_DIGITS_END - LIT_CHAR_ASCII_DIGITS_BEGIN < 16 ->
  LIT_CHAR_ASCII_LOWERCASE_LETTERS_HEX_END
    - LIT_CHAR_ASCII_LOWERCASE_LETTERS_HEX_BEGIN < 6 ->
  LIT_CHAR_ASCII_UPPERCASE_LETTERS_HEX_END
    - LIT_CHAR_ASCII_UPPERCASE_LETTERS_HEX_BEGIN < 6 ->
  0 <= number_of_characters <= 4 ->
  number_of_characters <= Z.of_nat (length buf_p) ->
  let digits := firstn (Z.to_nat number_of_characters) buf_p in
  lit_read_code_point_from_hex buf_p number_of_characters
  = (if forallb lit_char_is_hex_digit digits then Some (hex_value digits) else None)
  /\ (forallb lit_char_is_hex_digit digits = true ->
      0 <= hex_value digits < 16 ^ number_of_characters).
Proof.
  intros H1 H2 H3 Hn Hlen digits. split.
  - unfold lit_read_code_point_from_hex, hex_value. subst digits.
    apply (read_loop_spec H1 H2 H3); [lia | lia |].
    rewrite Z2Nat.id by lia.
    assert (16 ^ number_of_characters <= 16 ^ 8) by (apply Z.pow_le_mono_r; lia).
    change (16 ^ 8) with (2 ^ 32) in *. lia.
  - intros Hall. unfold hex_value.
    assert (Hgen : forall l acc k,
              forallb lit_char_is_hex_digit l = true -> 0 <= acc < 16 ^ k -> 0 <= k ->
              0 <= fold_left (fun acc c => 16 * acc + lit_char_hex_to_int c) l acc
              < 16 ^ (k + Z.of_nat (length l))).
    { induction l as [| c l IH]; intros acc k Hl Hacc Hk.
      - cbn [fold_left length]. rewrite Z.add_0_r. exact Hacc.
      - cbn [forallb] in Hl. apply andb_true_iff in Hl. destruct Hl as [Hc Hl].
        cbn [fold_left length].
        pose proof (hex_to_int_range H1 H2 H3 c Hc) as Hr.
        replace (k + Z.of_nat (S (length l))) with ((k + 1) + Z.of_nat (length l)) by lia.
        apply IH; [exact Hl | | lia].
        rewrite Z.pow_add_r by lia. change (16 ^ 1) with 16. lia. }
    specialize (Hgen digits 0 0 Hall ltac:(cbn; lia) ltac:(lia)).
    replace (0 + Z.of_nat (length digits)) with number_of_characters in Hgen; [exact Hgen |].
    subst digits. rewrite length_firstn. lia.
Qed.

(** X25.  The case conversions undo each other on the ASCII letters:
    an upper-case letter converts to one lower-case letter that converts
    back to it, and the other way round; every conversion writes between
    one and three characters. *)
Theorem case_conversion_roundtrip (character : Z) :
  0 <= LIT_CHAR_UPPERCASE_A -> 0 <= LIT_CHAR_LOWERCASE_A ->
  LIT_CHAR_UPPERCASE_Z < 2 ^ ecma_char_bits ->
  LIT_CHAR_LOWERCASE_Z < 2 ^ ecma_char_bits ->
  LIT_CHAR_LOWERCASE_Z - LIT_CHAR_LOWERCASE_A
  = LIT_CHAR_UPPERCASE_Z - LIT_CHAR_UPPERCASE_A ->
  (LIT_CHAR_UPPERCASE_A <= character <= LIT_CHAR_UPPERCASE_Z ->
   exists lower,
     lit_char_to_lower_case character = [lower]
     /\ LIT_CHAR_LOWERCASE_A <= lower <= LIT_CHAR_LOWERCASE_Z
     /\ lit_char_to_upper_case lower = [character])
  /\ (LIT_CHAR_LOWERCASE_A <= character <= LIT_CHAR_LOWERCASE_Z ->
      exists upper,
        lit_char_to_upper_case character = [upper]
        /\ LIT_CHAR_UPPERCASE_A <= upper <= LIT_CHAR_UPPERCASE_Z
        /\ lit_char_to_lower_case upper = [character])
  /\ (1 <= length (lit_char_to_lower_case character) <= 2)%nat
  /\ (1 <= length (lit_char_to_upper_case character) <= 3)%nat.
Proof.
  intros HA Ha HZ Hz Hspan.
  split; [| split; [| split]].
  - intros Hc.
    exists (character + (LIT_CHAR_LOWERCASE_A - LIT_CHAR_UPPERCASE_A)).
    unfold lit_char_to_lower_case, lit_char_to_upper_case, to_ecma_char.
    destruct (Z.leb_spec LIT_CHAR_UPPERCASE_A character); [| lia].
    destruct (Z.leb_spec character LIT_CHAR_UPPERCASE_Z); [| lia].
    cbn [andb]. rewrite Z.mod_small by lia.
    split; [reflexivity |]. split; [lia |].
    destruct (Z.leb_spec LIT_CHAR_LOWERCASE_A
                (character + (LIT_CHAR_LOWERCASE_A - LIT_CHAR_UPPERCASE_A))); [| lia].
    destruct (Z.leb_spec (character + (LIT_CHAR_LOWERCASE_A - LIT_CHAR_UPPERCASE_A))
                LIT_CHAR_LOWERCASE_Z); [| lia].
    cbn [andb]. f_equal. rewrite Z.mod_small by lia. lia.
  - intros Hc.
    exists (character - (LIT_CHAR_LOWERCASE_A - LIT_CHAR_UPPERCASE_A)).
    unfold lit_char_to_lower_case, lit_char_to_upper_case, to_ecma_char.
    destruct (Z.leb_spec LIT_CHAR_LOWERCASE_A character); [| lia].
    destruct (Z.leb_spec character LIT_CHAR_LOWERCASE_Z); [| lia].
    cbn [andb]. rewrite Z.mod_small by lia.
    split; [reflexivity |]. split; [lia |].
    destruct (Z.leb_spec LIT_CHAR_UPPERCASE_A
                (character - (LIT_CHAR_LOWERCASE_A - LIT_CHAR_UPPERCASE_A))); [| lia].
    destruct (Z.leb_spec (character - (LIT_CHAR_LOWERCASE_A - LIT_CHAR_UPPERCASE_A))
                LIT_CHAR_UPPERCASE_Z); [| lia].
    cbn [andb]. f_equal. rewrite Z.mod_small by lia. lia.
  - unfold lit_char_to_lower_case.
    destruct ((LIT_CHAR_UPPERCASE_A <=? character) && (character <=? LIT_CHAR_UPPERCASE_Z));
      [simpl; lia |].
    destruct (character =? 304); simpl; lia.
  - unfold lit_char_to_upper_case.
    destruct ((LIT_CHAR_LOWERCASE_A <=? character) && (character <=? LIT_CHAR_LOWERCASE_Z));
      [simpl; lia |].
    destruct (character =? 223); [simpl; lia |].
    destruct (character =? 8151); simpl; lia.
Qed.

End LitTheorems.

(** ** The demo configuration *)

Lemma run_alloc_reachable {cfg : Config} {reg : Registry} fuel size st :
  fuel_ok fuel -> 0 <= size < 2 ^ ptr_bits ->
  reachable st -> reachable (run_alloc fuel size st).
Proof.
  intros Hf Hsize Hreach. unfold run_alloc.
  destruct (jmem_heap_alloc_block_null_on_error fuel size st) as [[[p st'] log] |] eqn:E;
    [| exact Hreach].
  apply (reach_alloc_block_null_on_error fuel size st p st' log); auto.
Qed.

Lemma run_free_reachable {cfg : Config} {reg : Registry} fuel p size st :
  fuel_ok fuel -> block_in_use fuel st p size = true ->
  reachable st -> reachable (run_free fuel p size st).
Proof.
  intros Hf Huse Hreach. unfold run_free.
  destruct (jmem_heap_free_block fuel p size st) as [st' |] eqn:E; [| exact Hreach].
  apply (reach_free_block fuel p size st st'); auto.
Qed.

Lemma demo_config_ok : @config_ok demo_config.
Proof. unfold config_ok. cbn. lia. Qed.

Lemma demo_fuel_ok : @fuel_ok demo_config demo_fuel.
Proof. unfold fuel_ok. cbn. lia. Qed.

Lemma no_callbacks_ok {cfg : Config} : @callbacks_ok cfg no_callbacks.
Proof. intros s st Hwf. exists st. split; [reflexivity | exact Hwf]. Qed.

Lemma demo_init_reachable {reg : Registry} : @reachable demo_config reg demo_init.
Proof. apply (@reach_init demo_config reg). Qed.

Lemma demo_size_ok size : 0 <= size < 2 ^ 32 -> 0 <= size < 2 ^ @ptr_bits demo_config.
Proof. cbn. lia. Qed.

Lemma demo_drained_reachable : @reachable demo_config no_callbacks demo_drained.
Proof.
  unfold demo_drained.
  do 2 apply (@run_alloc_reachable demo_config no_callbacks demo_fuel 8 _ demo_fuel_ok
                (demo_size_ok 8 ltac:(lia))).
  apply (@run_free_reachable demo_config no_callbacks demo_fuel 4120 8 _ demo_fuel_ok);
    [vm_compute; reflexivity |].
  apply (@run_free_reachable demo_config no_callbacks demo_fuel 4104 8 _ demo_fuel_ok);
    [vm_compute; reflexivity |].
  do 4 apply (@run_alloc_reachable demo_config no_callbacks demo_fuel 8 _ demo_fuel_ok
                (demo_size_ok 8 ltac:(lia))).
  exact demo_init_reachable.
Qed.

Lemma demo_full_reachable : @reachable demo_config demo_high_registry demo_full.
Proof.
  unfold demo_full.
  do 2 apply (@run_alloc_reachable demo_config demo_high_registry demo_fuel 16 _
                demo_fuel_ok (demo_size_ok 16 ltac:(lia))).
  exact demo_init_reachable.
Qed.


Lemma demo_high_registry_ok : @callbacks_ok demo_config demo_high_registry.
Proof.
  exact (staged_registry_ok demo_fuel JMEM_FREE_UNUSED_MEMORY_SEVERITY_HIGH 4104 16
           demo_config_ok demo_fuel_ok).
Qed.


Lemma demo_held_reachable : @reachable demo_config no_callbacks demo_held.
Proof.
  unfold demo_held.
  apply (@run_alloc_reachable demo_config no_callbacks demo_fuel 8 _ demo_fuel_ok
           (demo_size_ok 8 ltac:(lia))).
  exact demo_init_reachable.
Qed.

Lemma demo_two_reachable : @reachable demo_config no_callbacks demo_two.
Proof.
  unfold demo_two.
  apply (@run_alloc_reachable demo_config no_callbacks demo_fuel 8 _ demo_fuel_ok
           (demo_size_ok 8 ltac:(lia))).
  exact demo_held_reachable.
Qed.



Lemma demo_gap_reachable : @reachable demo_config no_callbacks demo_gap.
Proof.
  unfold demo_gap.
  apply (@run_free_reachable demo_config no_callbacks demo_fuel 4104 8 _ demo_fuel_ok);
    [vm_compute; reflexivity |].
  exact demo_two_reachable.
Qed.

Lemma demo_released_reachable : @reachable demo_config no_callbacks demo_released.
Proof.
  unfold demo_released.
  apply (@run_free_reachable demo_config no_callbacks demo_fuel 4112 8 _ demo_fuel_ok);
    [vm_compute; reflexivity |].
  exact demo_gap_reachable.
Qed.

(** ** The claims at concrete inputs *)

Lemma compress_roundtrip_witness :
  @jmem_heap_decompress_pointer demo_config (@jmem_heap_compress_pointer demo_config 4104)
  = 4104
  /\ @jmem_heap_compress_pointer demo_config 4104 <> JMEM_CP_NULL.
Proof.
  apply (@compress_roundtrip demo_config 4104); vm_compute; congruence.
Defined.

Lemma is_heap_pointer_inclusive_witness :
  (@jmem_is_heap_pointer demo_config 4136 = true
   <-> @area demo_config <= 4136 <= @area demo_config + @JMEM_HEAP_AREA_SIZE demo_config)
  /\ @jmem_is_heap_pointer demo_config
       (@area demo_config + @JMEM_HEAP_AREA_SIZE demo_config) = true.
Proof.
  apply (@is_heap_pointer_inclusive demo_config 4136). vm_compute. congruence.
Defined.

(** C2 (conservation), the failing runs.  On the heap as
    [jmem_heap_init] leaves it [jmem_heap_alloc_block_store_size] is
    asked for [2 ^ 64 - 9] bytes.  With the header that is [2 ^ 64 - 1],
    which the size rounding wraps to zero: the internal allocation
    returns the first free region, at 4104, and leaves it on the list,
    and the stored size overwrites the [size] field of that region.  The
    call returns 4112; at its exit nothing is allocated and the free
    list holds one node of 4294967295 bytes, in an area of 32 bytes.
    Likewise a request of [2 ^ 64 - 1] bytes with one block held returns
    the free region at 4112, and freeing that pointer with that size
    leaves 8 bytes allocated beside a free list of one empty node. *)
Theorem conservation_fails_on_wrap :
  (0 < 2 ^ 64 - 9 < 2 ^ @ptr_bits demo_config
   /\ exists p st1 log,
        @jmem_heap_alloc_block_store_size demo_config no_callbacks demo_fuel
          (2 ^ 64 - 9) demo_init = Some (Returned p st1, log)
        /\ p = 4112
        /\ @free_list demo_config demo_fuel st1 = Some [(4104, 4294967295)]
        /\ jmem_heap_allocated_size st1 = 0
        /\ jmem_heap_allocated_size st1
           <> @JMEM_HEAP_AREA_SIZE demo_config - sum_sizes [(4104, 4294967295)])
  /\ (@reachable demo_config no_callbacks demo_held
      /\ exists p st1 log st2,
           @jmem_heap_alloc_block_null_on_error demo_config no_callbacks demo_fuel
             (2 ^ 64 - 1) demo_held = Some (p, st1, log)
           /\ p = 4112
           /\ @jmem_heap_free_block demo_config demo_fuel p (2 ^ 64 - 1) st1 = Some st2
           /\ @free_list demo_config demo_fuel st2 = Some [(4112, 0)]
           /\ jmem_heap_allocated_size st2 = 8
           /\ jmem_heap_allocated_size st2
              <> @JMEM_HEAP_AREA_SIZE demo_config - sum_sizes [(4112, 0)]).
Proof.
  split.
  - split; [vm_compute; split; reflexivity |].
    eexists. eexists. eexists.
    split; [vm_compute; reflexivity |].
    split; [reflexivity |].
    split; [vm_compute; reflexivity |].
    split; [vm_compute; reflexivity |].
    vm_compute. congruence.
  - split; [exact demo_held_reachable |].
    eexists. eexists. eexists. eexists.
    split; [vm_compute; reflexivity |].
    split; [reflexivity |].
    split; [vm_compute; reflexivity |].
    split; [vm_compute; reflexivity |].
    split; [vm_compute; reflexivity |].
    vm_compute. congruence.
Qed.

(** C3 (no touching frees), the failing run.  With the block at 4112
    held between the free regions at 4104 (8 bytes) and 4120 (16 bytes),
    [jmem_heap_alloc_block_store_size] is asked for [2 ^ 64 - 9] bytes.
    The padded size rounds to zero, the internal allocation returns the
    free region at 4104 without unlinking it, and the stored size makes
    that node 4294967295 bytes long: at the exit the first free node
    ends far above the start of its successor. *)
Theorem no_touch_fails_on_wrap :
  @reachable demo_config no_callbacks demo_gap
  /\ @free_list demo_config demo_fuel demo_gap = Some [(4104, 8); (4120, 16)]
  /\ 0 < 2 ^ 64 - 9 < 2 ^ @ptr_bits demo_config
  /\ exists p st1 log,
       @jmem_heap_alloc_block_store_size demo_config no_callbacks demo_fuel
         (2 ^ 64 - 9) demo_gap = Some (Returned p st1, log)
       /\ p = 4112
       /\ @free_list demo_config demo_fuel st1
          = Some [(4104, 4294967295); (4120, 16)]
       /\ ~ no_touch [(4104, 4294967295); (4120, 16)].
Proof.
  split; [exact demo_gap_reachable |].
  split; [vm_compute; reflexivity |].
  split; [vm_compute; split; reflexivity |].
  eexists. eexists. eexists.
  split; [vm_compute; reflexivity |].
  split; [reflexivity |].
  split; [vm_compute; reflexivity |].
  cbn [no_touch]. lia.
Qed.

Lemma skip_hint_valid_witness :
  exists l, @free_list demo_config demo_fuel demo_drained = Some l
            /\ (jmem_heap_list_skip_p demo_drained = @first_p demo_config
                \/ In (jmem_heap_list_skip_p demo_drained) (map fst l)
                \/ (jmem_heap_list_skip_p demo_drained = JMEM_HEAP_END_OF_LIST /\ l = [])).
Proof.
  exact (proj1 (@skip_hint_valid demo_config no_callbacks demo_fuel demo_drained
                  demo_config_ok no_callbacks_ok demo_fuel_ok demo_drained_reachable)).
Defined.

(** C7, counterexample: after the run [demo_drained] the free list is
    empty and the skip pointer is the end-of-list pointer, which is
    neither the sentinel nor a free node. *)
Lemma skip_hint_counterexample :
  @reachable demo_config no_callbacks demo_drained
  /\ exists l, @free_list demo_config demo_fuel demo_drained = Some l
               /\ ~ (jmem_heap_list_skip_p demo_drained = @first_p demo_config
                     \/ In (jmem_heap_list_skip_p demo_drained) (map fst l)).
Proof.
  split; [exact demo_drained_reachable |].
  exists []. split; [vm_compute; reflexivity |].
  intros [H | H]; [vm_compute in H; discriminate | exact H].
Qed.

Lemma slow_path_first_fit_witness :
  exists st',
    @jmem_heap_alloc_block_internal demo_config demo_fuel 16 demo_init = Some (4104, st')
    /\ jmem_heap_list_skip_p st' = @first_p demo_config
    /\ get_size (heap_mem st') 4120 = 16
    /\ get_next_offset (heap_mem st') 4120 = get_next_offset (heap_mem demo_init) 4104
    /\ get_next_offset (heap_mem st') (@first_p demo_config)
       = @JMEM_HEAP_GET_OFFSET_FROM_ADDR demo_config 4120
    /\ @free_list demo_config demo_fuel st' = Some [(4120, 16)].
Proof.
  destruct (@slow_path_first_fit demo_config no_callbacks demo_fuel 16 demo_init
              [(4104, 32)] demo_config_ok no_callbacks_ok demo_fuel_ok
              demo_init_reachable) as [_ H].
  - vm_compute. reflexivity.
  - vm_compute. congruence.
  - destruct (H [] 4104 32 [] eq_refl) as (st' & E & Hskip & _ & Hlarger).
    + constructor.
    + vm_compute. congruence.
    + exists st'. split; [exact E |]. split; [exact Hskip |].
      apply Hlarger. vm_compute. reflexivity.
Defined.

Lemma alloc_failure_behaviour_witness :
  @jmem_heap_alloc_block demo_config no_callbacks demo_fuel 0 demo_drained
  = Some (Returned NULL demo_drained, [])
  /\ @jmem_heap_alloc_block_null_on_error demo_config no_callbacks demo_fuel 0 demo_drained
     = Some (NULL, demo_drained, [])
  /\ exists p st' log,
       @jmem_heap_alloc_block_null_on_error demo_config no_callbacks demo_fuel 8
         demo_drained = Some (p, st', log)
       /\ (p = NULL <-> exhausted log)
       /\ ((p = NULL
            /\ @jmem_heap_alloc_block demo_config no_callbacks demo_fuel 8 demo_drained
               = Some (Fatal ERR_OUT_OF_MEMORY, log))
           \/ (p <> NULL
               /\ @jmem_heap_alloc_block demo_config no_callbacks demo_fuel 8 demo_drained
                  = Some (Returned p st', log))).
Proof.
  destruct (@alloc_failure_behaviour demo_config no_callbacks demo_fuel 8 demo_drained
              demo_config_ok no_callbacks_ok demo_fuel_ok demo_drained_reachable)
    as (H0 & H1 & H2).
  split; [exact H0 |]. split; [exact H1 |]. apply H2. discriminate.
Defined.

Lemma pressure_loop_protocol_witness :
  exists st1 st2 st3 st4 st5 st6,
    (jmem_heap_limit demo_full
     <=? @to_size_t demo_config (jmem_heap_allocated_size demo_full + 16)) = true
    /\ @jmem_run_free_unused_memory_callbacks demo_high_registry
         JMEM_FREE_UNUSED_MEMORY_SEVERITY_LOW demo_full = Some st1
    /\ @jmem_heap_alloc_block_internal demo_config demo_fuel 16 st1 = Some (NULL, st2)
    /\ @jmem_run_free_unused_memory_callbacks demo_high_registry
         JMEM_FREE_UNUSED_MEMORY_SEVERITY_LOW st2 = Some st3
    /\ @jmem_heap_alloc_block_internal demo_config demo_fuel 16 st3 = Some (NULL, st4)
    /\ @jmem_run_free_unused_memory_callbacks demo_high_registry
         JMEM_FREE_UNUSED_MEMORY_SEVERITY_HIGH st4 = Some st5
    /\ @jmem_heap_alloc_block_internal demo_config demo_fuel 16 st5 = Some (4104, st6)
    /\ @jmem_heap_gc_and_alloc_block demo_config demo_high_registry demo_fuel 16 demo_full
       = Some (4104, st6,
               [EvCallbacks JMEM_FREE_UNUSED_MEMORY_SEVERITY_LOW; EvAttempt false;
                EvCallbacks JMEM_FREE_UNUSED_MEMORY_SEVERITY_LOW; EvAttempt false;
                EvCallbacks JMEM_FREE_UNUSED_MEMORY_SEVERITY_HIGH; EvAttempt true]).
Proof.
  destruct (@pressure_loop_protocol demo_config demo_high_registry demo_fuel 16 demo_full
              demo_config_ok demo_high_registry_ok demo_fuel_ok demo_full_reachable eq_refl)
    as (st1 & p1 & st2 & H1 & H2 & pre & Hpre & Hrest).
  assert (Hc : (jmem_heap_limit demo_full
                <=? @to_size_t demo_config (jmem_heap_allocated_size demo_full + 16))
               = true) by (vm_compute; reflexivity).
  rewrite Hc in H1, Hpre. subst pre.
  pose proof H1 as K1. vm_compute in K1. injection K1 as K1. subst st1.
  pose proof H2 as K2. vm_compute in K2. injection K2 as Kp Ks. subst p1 st2.
  destruct Hrest as [(Np1 & _) | (_ & st3 & p2 & st4 & H3 & H4 & Hrest)].
  { exfalso. apply Np1. reflexivity. }
  pose proof H3 as K3. vm_compute in K3. injection K3 as K3. subst st3.
  pose proof H4 as K4. vm_compute in K4. injection K4 as Kp Ks. subst p2 st4.
  destruct Hrest as [(Np2 & _) | (_ & st5 & p3 & st6 & H5 & H6 & H7)].
  { exfalso. apply Np2. reflexivity. }
  pose proof H5 as K5. vm_compute in K5. injection K5 as K5. subst st5.
  pose proof H6 as K6. vm_compute in K6. injection K6 as Kp Ks. subst p3 st6.
  eexists. eexists. eexists. eexists. eexists. eexists.
  split; [exact Hc |]. split; [exact H1 |]. split; [exact H2 |].
  split; [exact H3 |]. split; [exact H4 |]. split; [exact H5 |].
  split; [exact H6 |]. exact H7.
Defined.

(** C6, counterexample: with 8 bytes allocated and the limit at 16 a
    request of [2 ^ 64 - 8] bytes has [allocated_size + size] at least
    the limit, but the sum wraps to zero in [size_t]: the request starts
    with the attempt of the internal allocation, and the callbacks run
    only in the retry loop. *)
Lemma pressure_loop_counterexample :
  @reachable demo_config no_callbacks demo_held
  /\ @JMEM_GC_BEFORE_EACH_ALLOC demo_config = false
  /\ 0 < 2 ^ 64 - 8 < 2 ^ @ptr_bits demo_config
  /\ jmem_heap_limit demo_held <= jmem_heap_allocated_size demo_held + (2 ^ 64 - 8)
  /\ exists st',
       @jmem_heap_gc_and_alloc_block demo_config no_callbacks demo_fuel (2 ^ 64 - 8)
         demo_held
       = Some (NULL, st',
               [EvAttempt false;
                EvCallbacks JMEM_FREE_UNUSED_MEMORY_SEVERITY_LOW; EvAttempt false;
                EvCallbacks JMEM_FREE_UNUSED_MEMORY_SEVERITY_HIGH; EvAttempt false]).
Proof.
  split; [exact demo_held_reachable |].
  split; [reflexivity |].
  split; [vm_compute; split; reflexivity |].
  split; [vm_compute; congruence |].
  eexists. vm_compute. reflexivity.
Qed.

Lemma scenario_S4_witness :
  exists p st' log,
    @jmem_heap_gc_and_alloc_block demo_config demo_high_registry demo_fuel 16 demo_full
    = Some (p, st', log)
    /\ p <> NULL
    /\ log = (if jmem_heap_limit demo_full <=? jmem_heap_allocated_size demo_full + 16
              then [EvCallbacks JMEM_FREE_UNUSED_MEMORY_SEVERITY_LOW] else [])
             ++ [EvAttempt false;
                 EvCallbacks JMEM_FREE_UNUSED_MEMORY_SEVERITY_LOW; EvAttempt false;
                 EvCallbacks JMEM_FREE_UNUSED_MEMORY_SEVERITY_HIGH; EvAttempt true]
    /\ jmem_heap_allocated_size st' < jmem_heap_limit st'
       <= jmem_heap_allocated_size st' + @CONFIG_MEM_HEAP_DESIRED_LIMIT demo_config.
Proof.
  apply (@scenario_S4 demo_config demo_fuel 16 4104 16 demo_full
           demo_config_ok demo_fuel_ok eq_refl demo_full_reachable).
  - vm_compute. reflexivity.
  - vm_compute. congruence.
  - lia.
  - vm_compute. reflexivity.
  - vm_compute. congruence.
  - eexists. vm_compute. reflexivity.
Defined.

(** C8, counterexample: in the instance [demo_full] of scenario S4 the
    request succeeds, but the callbacks run at LOW twice before the HIGH
    run, and the limit ends where it was before the request. *)
Lemma scenario_S4_counterexample :
  @reachable demo_config demo_high_registry demo_full
  /\ @block_in_use demo_config demo_fuel demo_full 4104 16 = true
  /\ @JMEM_HEAP_AREA_SIZE demo_config - jmem_heap_allocated_size demo_full
     <= @CONFIG_MEM_HEAP_DESIRED_LIMIT demo_config
  /\ (exists stf,
        @jmem_heap_alloc_block_internal demo_config demo_fuel 16 demo_full
        = Some (NULL, stf))
  /\ exists p st' log,
       @jmem_heap_gc_and_alloc_block demo_config demo_high_registry demo_fuel 16 demo_full
       = Some (p, st', log)
       /\ p <> NULL
       /\ callbacks_run log
          = [JMEM_FREE_UNUSED_MEMORY_SEVERITY_LOW; JMEM_FREE_UNUSED_MEMORY_SEVERITY_LOW;
             JMEM_FREE_UNUSED_MEMORY_SEVERITY_HIGH]
       /\ callbacks_run log
          <> [JMEM_FREE_UNUSED_MEMORY_SEVERITY_LOW; JMEM_FREE_UNUSED_MEMORY_SEVERITY_HIGH]
       /\ ~ jmem_heap_limit demo_full < jmem_heap_limit st'.
Proof.
  split; [exact demo_full_reachable |].
  split; [vm_compute; reflexivity |].
  split; [vm_compute; congruence |].
  split; [eexists; vm_compute; reflexivity |].
  eexists. eexists. eexists.
  split; [vm_compute; reflexivity |].
  split; [vm_compute; congruence |].
  split; [vm_compute; reflexivity |].
  split; [vm_compute; congruence |].
  vm_compute. congruence.
Qed.



(** ** Further properties at concrete inputs *)

Lemma init_single_region_witness :
  @free_list demo_config demo_fuel demo_init = Some [(4104, 32)].
Proof.
  exact (proj1 (@init_single_region demo_config demo_fuel (fun _ => 0)
                  demo_config_ok demo_fuel_ok)).
Defined.

Lemma finalize_iff_whole_area_witness :
  @free_list demo_config demo_fuel demo_gap = Some [(4104, 8); (4120, 16)]
  /\ @jmem_heap_finalize demo_gap = false
  /\ @jmem_heap_finalize demo_released = true
  /\ @free_list demo_config demo_fuel demo_released = Some [(4104, 32)].
Proof.
  split; [vm_compute; reflexivity |].
  split; [vm_compute; reflexivity |].
  split; [vm_compute; reflexivity |].
  apply (@finalize_iff_whole_area demo_config no_callbacks demo_fuel demo_released
           demo_config_ok no_callbacks_ok demo_fuel_ok demo_released_reachable).
  vm_compute. reflexivity.
Defined.

Lemma free_regions_shape_witness :
  get_size (heap_mem demo_gap) 4096 = 0
  /\ exists l, @free_list demo_config demo_fuel demo_gap = Some l
       /\ Forall (fun n => 4104 <= fst n /\ fst n mod 8 = 0 /\ 8 <= snd n
                           /\ snd n mod 8 = 0 /\ fst n + snd n <= 4136) l.
Proof.
  exact (@free_regions_shape demo_config no_callbacks demo_fuel demo_gap
           demo_config_ok no_callbacks_ok demo_fuel_ok demo_gap_reachable).
Defined.

Lemma alloc_block_geometry_witness :
  exists p st' log,
    @jmem_heap_alloc_block_null_on_error demo_config no_callbacks demo_fuel 8 demo_held
    = Some (p, st', log)
    /\ p mod 8 = 0
    /\ @jmem_is_heap_pointer demo_config p = true
    /\ 4104 <= p /\ p + 8 <= 4136
    /\ @block_in_use demo_config demo_fuel st' p 8 = true.
Proof.
  eexists. eexists. eexists. split; [vm_compute; reflexivity |].
  eapply (@alloc_block_geometry demo_config no_callbacks demo_fuel 8 demo_held _ _ _
           demo_config_ok no_callbacks_ok demo_fuel_ok demo_held_reachable).
  - lia.
  - vm_compute. reflexivity.
  - vm_compute. reflexivity.
  - vm_compute. congruence.
Defined.


Lemma alloc_keeps_contents_witness :
  exists p st' log,
    @jmem_heap_alloc_block_null_on_error demo_config no_callbacks demo_fuel 8 demo_held
    = Some (p, st', log)
    /\ @word_in_use demo_config demo_fuel st' 4104 = true
    /\ heap_mem st' 4104 = heap_mem demo_held 4104.
Proof.
  eexists. eexists. eexists. split; [vm_compute; reflexivity |].
  eapply (@alloc_keeps_contents demo_config no_callbacks demo_fuel 8 demo_held _ _ _
           4104 demo_config_ok no_callbacks_ok demo_fuel_ok demo_held_reachable).
  - intros s y z _ H E. injection E as <-. split; [exact H | reflexivity].
  - vm_compute. reflexivity.
  - vm_compute. reflexivity.
Defined.

Lemma free_block_coalesces_witness :
  exists st',
    @jmem_heap_free_block demo_config demo_fuel 4104 8 demo_held = Some st'
    /\ @free_list demo_config demo_fuel st' = Some [(4104, 32)]
    /\ jmem_heap_allocated_size st' = 0.
Proof.
  apply (@free_block_coalesces demo_config no_callbacks demo_fuel 4104 8 demo_held
           [(4112, 24)] demo_config_ok no_callbacks_ok demo_fuel_ok demo_held_reachable).
  - vm_compute. reflexivity.
  - vm_compute. reflexivity.
Defined.

Lemma free_skip_is_predecessor_witness :
  exists st',
    @jmem_heap_free_block demo_config demo_fuel 4112 8 demo_two = Some st'
    /\ (jmem_heap_list_skip_p st' = @first_p demo_config
        \/ In (jmem_heap_list_skip_p st') (map fst [(4120, 16)]))
    /\ jmem_heap_list_skip_p st' < 4112
    /\ (forall n, In n [(4120, 16)] -> fst n < 4112 -> fst n <= jmem_heap_list_skip_p st').
Proof.
  eexists. split; [vm_compute; reflexivity |].
  eapply (@free_skip_is_predecessor demo_config no_callbacks demo_fuel 4112 8 demo_two _
           [(4120, 16)] demo_config_ok no_callbacks_ok demo_fuel_ok demo_two_reachable).
  - vm_compute. reflexivity.
  - vm_compute. reflexivity.
  - vm_compute. reflexivity.
Defined.

Lemma free_keeps_others_witness :
  exists st',
    @jmem_heap_free_block demo_config demo_fuel 4112 8 demo_two = Some st'
    /\ @block_in_use demo_config demo_fuel st' 4104 8 = true
    /\ heap_mem st' 4104 = heap_mem demo_two 4104.
Proof.
  destruct (@jmem_heap_free_block demo_config demo_fuel 4112 8 demo_two) as [st' |] eqn:E.
  2: { vm_compute in E. discriminate. }
  destruct (@free_keeps_others demo_config no_callbacks demo_fuel 4112 8 demo_two st'
              demo_config_ok no_callbacks_ok demo_fuel_ok demo_two_reachable)
    as (Hb & Hm & _).
  - vm_compute. reflexivity.
  - exact E.
  - exists st'. split; [reflexivity |]. split.
    + apply Hb; [vm_compute; reflexivity |]. left. vm_compute. congruence.
    + apply Hm; [vm_compute; reflexivity | lia | lia].
Defined.

Lemma limit_window_witness :
  jmem_heap_allocated_size demo_held <= jmem_heap_limit demo_held
  <= jmem_heap_allocated_size demo_held + @CONFIG_MEM_HEAP_DESIRED_LIMIT demo_config.
Proof.
  exact (proj1 (@limit_window demo_config no_callbacks demo_fuel demo_held
                  demo_config_ok no_callbacks_ok demo_fuel_ok demo_held_reachable)).
Defined.

Lemma alloc_free_roundtrip_witness :
  exists p st1 log st2,
    @jmem_heap_alloc_block_null_on_error demo_config no_callbacks demo_fuel 16 demo_held
    = Some (p, st1, log)
    /\ @jmem_heap_free_block demo_config demo_fuel p 16 st1 = Some st2
    /\ @free_list demo_config demo_fuel st2 = @free_list demo_config demo_fuel demo_held
    /\ jmem_heap_allocated_size st2 = jmem_heap_allocated_size demo_held.
Proof.
  destruct (@jmem_heap_alloc_block_null_on_error demo_config no_callbacks demo_fuel 16
              demo_held) as [[[p st1] log] |] eqn:E.
  2: { vm_compute in E. discriminate. }
  assert (Hp : p = 4112) by (vm_compute in E; congruence).
  destruct (@alloc_free_roundtrip demo_config no_callbacks demo_fuel 16 demo_held p st1 log
              demo_config_ok no_callbacks_ok demo_fuel_ok demo_held_reachable)
    as (st2 & H1 & H2 & H3).
  - intros s x y E0. injection E0 as <-. split; reflexivity.
  - lia.
  - vm_compute. reflexivity.
  - exact E.
  - rewrite Hp. discriminate.
  - exists p, st1, log, st2. auto.
Defined.

Lemma alloc_internal_fails_iff_witness :
  @free_list demo_config demo_fuel demo_gap = Some [(4104, 8); (4120, 16)]
  /\ sum_sizes [(4104, 8); (4120, 16)] = 24
  /\ (exists p st',
        @jmem_heap_alloc_block_internal demo_config demo_fuel 24 demo_gap = Some (p, st')
        /\ p = NULL
        /\ heap_mem st' = heap_mem demo_gap
        /\ jmem_heap_allocated_size st' = jmem_heap_allocated_size demo_gap)
  /\ (exists p st',
        @jmem_heap_alloc_block_internal demo_config demo_fuel 16 demo_gap = Some (p, st')
        /\ p <> NULL).
Proof.
  split; [vm_compute; reflexivity |].
  split; [reflexivity |].
  split.
  - destruct (@alloc_internal_fails_iff demo_config no_callbacks demo_fuel 24 demo_gap
                [(4104, 8); (4120, 16)]
                demo_config_ok no_callbacks_ok demo_fuel_ok demo_gap_reachable)
      as (p & st' & H1 & H2 & H3).
    + vm_compute. reflexivity.
    + assert (Hp : p = NULL).
      { apply H2. repeat constructor; vm_compute; reflexivity. }
      destruct (H3 Hp) as (Hm & Ha & _).
      exists p, st'. auto.
  - destruct (@alloc_internal_fails_iff demo_config no_callbacks demo_fuel 16 demo_gap
                [(4104, 8); (4120, 16)]
                demo_config_ok no_callbacks_ok demo_fuel_ok demo_gap_reachable)
      as (p & st' & H1 & H2 & _).
    + vm_compute. reflexivity.
    + exists p, st'. split; [exact H1 |]. intros Hp. apply H2 in Hp.
      apply Forall_cons_iff in Hp. destruct Hp as [_ Hp].
      apply Forall_cons_iff in Hp. destruct Hp as [Hp _].
      vm_compute in Hp. discriminate.
Defined.

Lemma fast_path_first_region_witness :
  exists st',
    @jmem_heap_alloc_block_internal demo_config demo_fuel 8 demo_init = Some (4104, st')
    /\ @free_list demo_config demo_fuel st' = Some [(4112, 24)]
    /\ jmem_heap_allocated_size st' = 8
    /\ jmem_heap_list_skip_p st' = 4096.
Proof.
  apply (@fast_path_first_region demo_config no_callbacks demo_fuel 8 demo_init 4104 32 []
           demo_config_ok no_callbacks_ok demo_fuel_ok demo_init_reachable).
  - vm_compute. reflexivity.
  - vm_compute. reflexivity.
Defined.


Lemma decompress_roundtrip_witness :
  @jmem_is_heap_pointer demo_config (@jmem_heap_decompress_pointer demo_config 2) = true
  /\ @jmem_heap_decompress_pointer demo_config 2 mod @JMEM_ALIGNMENT demo_config = 0
  /\ @jmem_heap_compress_pointer demo_config (@jmem_heap_decompress_pointer demo_config 2)
     = 2.
Proof.
  apply (@decompress_roundtrip demo_config 2); vm_compute; try congruence.
  split; congruence.
Defined.

Lemma compress_order_and_range_witness :
  (4104 < 4112
   <-> @jmem_heap_compress_pointer demo_config 4104
       < @jmem_heap_compress_pointer demo_config 4112)
  /\ (@jmem_heap_compress_pointer demo_config 4104
      = @jmem_heap_compress_pointer demo_config 4112 -> 4104 = 4112)
  /\ 0 < @jmem_heap_compress_pointer demo_config 4104 < 2 ^ 6.
Proof.
  apply (@compress_order_and_range demo_config 4104 4112 6); vm_compute; congruence.
Defined.

Lemma free_order_irrelevant_witness :
  exists st1 st12 st2 st21,
    @jmem_heap_free_block demo_config demo_fuel 4104 8 demo_two = Some st1
    /\ @jmem_heap_free_block demo_config demo_fuel 4112 8 st1 = Some st12
    /\ @jmem_heap_free_block demo_config demo_fuel 4112 8 demo_two = Some st2
    /\ @jmem_heap_free_block demo_config demo_fuel 4104 8 st2 = Some st21
    /\ @free_list demo_config demo_fuel st12 = @free_list demo_config demo_fuel st21
    /\ jmem_heap_allocated_size st12 = jmem_heap_allocated_size st21.
Proof.
  apply (@free_order_irrelevant demo_config no_callbacks demo_fuel demo_two 4104 8 4112 8
           demo_config_ok no_callbacks_ok demo_fuel_ok demo_two_reachable).
  - vm_compute. reflexivity.
  - vm_compute. reflexivity.
  - left. vm_compute. congruence.
Defined.


Lemma alloc_capacity_witness :
  exists st' log,
    @jmem_heap_alloc_block_null_on_error demo_config no_callbacks demo_fuel 40 demo_held
    = Some (NULL, st', log).
Proof.
  apply (proj1 (@alloc_capacity demo_config no_callbacks demo_fuel 40 demo_held
                  demo_config_ok no_callbacks_ok demo_fuel_ok demo_held_reachable
                  ltac:(lia) ltac:(vm_compute; reflexivity))).
  vm_compute. reflexivity.
Defined.

Lemma stat_alloc_free_restores_witness :
  allocated_bytes (@jmem_heap_stat_free demo_config 5
                     (@jmem_heap_stat_alloc demo_config 5 (@jmem_heap_stat_init demo_config)))
  = 0
  /\ waste_bytes (@jmem_heap_stat_free demo_config 5
                    (@jmem_heap_stat_alloc demo_config 5 (@jmem_heap_stat_init demo_config)))
     = 0.
Proof.
  destruct (@stat_alloc_free_restores demo_config 5 (@jmem_heap_stat_init demo_config))
    as (H1 & H2 & _).
  - vm_compute. split; congruence.
  - vm_compute. split; congruence.
  - split; [exact H1 | exact H2].
Defined.

Lemma stats_peaks_kept_witness :
  @stats_peaks_ok (@jmem_heap_stat_alloc demo_config 5 (@jmem_heap_stat_init demo_config)).
Proof.
  apply (@stats_peaks_kept demo_config 5 (@jmem_heap_stat_init demo_config)).
  unfold stats_peaks_ok. cbn. lia.
Defined.

Lemma search_interval_array_spec_witness :
  search_char_in_interval_array 5 [(1, 2); (4, 6); (9, 9)] (0, 0) = Some true
  /\ search_char_in_interval_array 12 [(1, 2); (4, 6); (9, 9)] (10, 20) = Some true.
Proof.
  split.
  - apply (proj1 (search_interval_array_spec 5 [(1, 2); (4, 6); (9, 9)] (0, 0)
                    ltac:(cbn; lia))).
    right. cbn. lia.
  - apply (proj2 (search_interval_array_spec 12 [(1, 2); (4, 6); (9, 9)] (10, 20)
                    ltac:(cbn; lia))).
    + discriminate.
    + cbn. lia.
Defined.

Lemma search_char_array_spec_witness :
  search_char_in_char_array 5 [2; 5; 9] 0 = Some true
  /\ search_char_in_char_array 12 [2; 5; 9] 12 = Some true.
Proof.
  split.
  - apply (proj1 (search_char_array_spec 5 [2; 5; 9] 0 ltac:(cbn; lia))). right. cbn. lia.
  - apply (proj2 (search_char_array_spec 12 [2; 5; 9] 12 ltac:(cbn; lia))).
    + discriminate.
    + cbn. lia.
Defined.

Lemma read_code_point_from_hex_spec_witness :
  @lit_read_code_point_from_hex ascii_chars [49; 97; 70; 0] 3 = Some 431.
Proof.
  apply (proj1 (@read_code_point_from_hex_spec ascii_chars [49; 97; 70; 0] 3
                  ltac:(cbn; lia) ltac:(cbn; lia) ltac:(cbn; lia) ltac:(lia)
                  ltac:(cbn; lia))).
Defined.

Lemma case_conversion_roundtrip_witness :
  exists lower,
    @lit_char_to_lower_case ascii_chars 81 = [lower]
    /\ @LIT_CHAR_LOWERCASE_A ascii_chars <= lower <= @LIT_CHAR_LOWERCASE_Z ascii_chars
    /\ @lit_char_to_upper_case ascii_chars lower = [81].
Proof.
  apply (proj1 (@case_conversion_roundtrip ascii_chars 81
                  ltac:(cbn; lia) ltac:(cbn; lia) ltac:(cbn; lia) ltac:(cbn; lia)
                  ltac:(cbn; lia))).
  cbn. lia.
Defined.


Lemma freed_block_is_reusable_witness :
  exists st' q st'',
    @jmem_heap_free_block demo_config demo_fuel 4112 8 demo_two = Some st'
    /\ @jmem_heap_alloc_block_internal demo_config demo_fuel 8 st' = Some (q, st'')
    /\ q <> NULL /\ q <= 4112.
Proof.
  destruct (@jmem_heap_free_block demo_config demo_fuel 4112 8 demo_two) as [st' |] eqn:E.
  2: { vm_compute in E. discriminate. }
  destruct (@freed_block_is_reusable demo_config no_callbacks demo_fuel 4112 8 demo_two st'
              demo_config_ok no_callbacks_ok demo_fuel_ok demo_two_reachable)
    as (q & st'' & H).
  - vm_compute. reflexivity.
  - exact E.
  - exists st', q, st''. split; [reflexivity | exact H].
Defined.

Lemma conservation_witness :
  @free_list demo_config demo_fuel demo_gap = Some [(4104, 8); (4120, 16)]
  /\ jmem_heap_allocated_size demo_gap
     = @JMEM_HEAP_AREA_SIZE demo_config - sum_sizes [(4104, 8); (4120, 16)]
  /\ exists st' l',
       @jmem_heap_free_block demo_config demo_fuel 4112 8 demo_gap = Some st'
       /\ @free_list demo_config demo_fuel st' = Some l'
       /\ jmem_heap_allocated_size st' = @JMEM_HEAP_AREA_SIZE demo_config - sum_sizes l'
       /\ jmem_heap_allocated_size st'
          = jmem_heap_allocated_size demo_gap - @align_size demo_config 8
       /\ sum_sizes l' = sum_sizes [(4104, 8); (4120, 16)] + @align_size demo_config 8.
Proof.
  destruct (@conservation demo_config no_callbacks demo_fuel demo_gap
              demo_config_ok no_callbacks_ok demo_fuel_ok demo_gap_reachable)
    as (l & El & Hl & _ & _ & Hfree).
  assert (E : l = [(4104, 8); (4120, 16)]) by (vm_compute in El; congruence).
  subst l.
  split; [exact El |]. split; [exact Hl |].
  apply Hfree. vm_compute. reflexivity.
Defined.

Lemma no_touching_frees_witness :
  @free_list demo_config demo_fuel demo_gap = Some [(4104, 8); (4120, 16)]
  /\ no_touch [(4104, 8); (4120, 16)]
  /\ exists st',
       @jmem_heap_free_block demo_config demo_fuel 4112 8 demo_gap = Some st'
       /\ @free_list demo_config demo_fuel st' = Some [(4104, 32)]
       /\ no_touch [(4104, 32)].
Proof.
  destruct (@no_touching_frees demo_config no_callbacks demo_fuel demo_gap
              demo_config_ok no_callbacks_ok demo_fuel_ok demo_gap_reachable)
    as (l & El & Hl & Hfree).
  assert (E : l = [(4104, 8); (4120, 16)]) by (vm_compute in El; congruence).
  subst l.
  split; [exact El |]. split; [exact Hl |].
  destruct (Hfree 4112 8) as (st' & E1 & E2 & E3 & _); [vm_compute; reflexivity |].
  exists st'. split; [exact E1 |]. split; [exact E2 | exact E3].
Defined.
